(** * The USFM grammar of [peg.py], as a recursive-descent PEG parser

    [peg.py] holds one artefact: the grammar [rules], handed to
    [tatsu.compile] and then used through [grammar.parse].  Every rule of the
    grammar is embedded below under its own name, as a parsing function over
    the unread input.  The combinators follow the engine that interprets the
    grammar:

    - white space is skipped on entry to every rule (the names of the rules
      are all in lower case) and before every string token; this is the
      engine's default, and the grammar sets no [@@whitespace];
    - a pattern [/re/] matches at the current position, without skipping, and
      yields the text it matched;
    - [[e]] and [{e}*] try [e] and restore the position when it fails; the
      grammar has no cut, so nothing is ever committed;
    - a failure is raised at a position and goes up until an option or a
      repetition takes it; on its way it is recorded by every rule it leaves,
      if it lies strictly further into the input than what is recorded.  The
      failure of a pattern is first the failure of the rule around the
      pattern, and as such recorded by the rules further up only.  The entry
      point records the failure that reaches it and reports the one recorded
      furthest into the input.

    The limit that the interpreter sets to the depth of its calls is not part
    of the embedding: on a text that makes the rules [element] and
    [inline_element] call each other too deep, the program raises
    RecursionError where the rules below go on.  What is stated of every
    text that parses is stated of the program where it returns.

    A text is a list of characters with codes below 256.  Positions are kept
    as the number of characters still unread; the entry point turns the one
    it reports into an offset from the start of the text. *)

From Stdlib Require Import String Ascii Bool Arith Lia List.
Import ListNotations.

Set Implicit Arguments.

(** ** Characters *)

Definition str := list ascii.

(** A literal of the source, as a list of characters. *)
Definition L (s : string) : str := list_ascii_of_string s.

Definition code (c : ascii) : nat := nat_of_ascii c.

Definition bslash : ascii := "\"%char.
Definition bar : ascii := "|"%char.
Definition dquote : ascii := "034"%char.
Definition star : ascii := "*"%char.
Definition hyphen : ascii := "-"%char.

(** [\s] on text: the white space characters of the first 256 code points. *)
Definition is_space (c : ascii) : bool :=
  let n := code c in
  ((9 <=? n) && (n <=? 13)) || ((28 <=? n) && (n <=? 32))
  || (n =? 133) || (n =? 160).

Definition is_upper (c : ascii) : bool := (65 <=? code c) && (code c <=? 90).
Definition is_lower (c : ascii) : bool := (97 <=? code c) && (code c <=? 122).
Definition is_digit (c : ascii) : bool := (48 <=? code c) && (code c <=? 57).

(** [[A-Za-z]] *)
Definition is_alpha (c : ascii) : bool := is_upper c || is_lower c.
(** [[A-Za-z0-9-]] *)
Definition is_id_char (c : ascii) : bool :=
  is_alpha c || is_digit c || Ascii.eqb c hyphen.
(** The class of [text]: any character but the backslash and the pipe. *)
Definition is_text_char (c : ascii) : bool :=
  negb (Ascii.eqb c bslash) && negb (Ascii.eqb c bar).
(** The class inside [value]: any character but the double quote. *)
Definition is_value_char (c : ascii) : bool := negb (Ascii.eqb c dquote).

(** The longest prefix whose characters satisfy [p], and what follows it:
    a starred character class. *)
Fixpoint span (p : ascii -> bool) (s : str) : str * str :=
  match s with
  | c :: r => if p c then let (m, r') := span p r in (c :: m, r') else ([], s)
  | [] => ([], [])
  end.

Definition skip_ws (s : str) : str := snd (span is_space s).

Fixpoint strip_prefix (t s : str) : option str :=
  match t, s with
  | [], _ => Some s
  | a :: t', b :: s' => if Ascii.eqb a b then strip_prefix t' s' else None
  | _ :: _, [] => None
  end.

(** ** The document tree *)

Record Pair := mkPair { pair_key : str; pair_value : option str }.

Inductive Element :=
  mkElement (tag : str) (leading_text : option str)
            (children : list (InlineElement * option str))
            (final_text : option str)
with InlineElement :=
  mkInline (element_of : Element) (attrs : list Pair)
           (closing_tag : option str).

Definition Document := list Element.

(** ** Failures *)

(** What the engine was expecting where it failed. *)
Inductive expected :=
| ExpToken (t : str)        (* a string token of the grammar *)
| ExpRule (name : string)   (* the pattern of the rule [name] *)
| ExpEnd.                   (* [$]: end of text *)

(** A failure: the number of characters still unread where it was raised,
    and what was expected there. *)
Definition failure := (nat * expected)%type.

(** The furthest failure recorded so far. *)
Definition furthest := option failure.

(** Recording a failure keeps the earlier one unless the new one is strictly
    further into the input (strictly fewer characters unread). *)
Definition note (rem : nat) (e : expected) (far : furthest) : furthest :=
  match far with
  | None => Some (rem, e)
  | Some (rem0, _) => if rem <? rem0 then Some (rem, e) else far
  end.

(** The failures of a parse so far: none, or the failure raised last,
    whether it is still the failure of a pattern, and the furthest failure
    recorded. *)
Record trail := mkTrail {
  raised : failure;
  of_pattern : bool;
  recorded : furthest
}.

Definition failures := option trail.

Definition furthest_of (st : failures) : furthest :=
  match st with
  | Some t => recorded t
  | None => None
  end.

(** The failure of a pattern names the rule of the pattern. *)
Definition is_pattern (e : expected) : bool :=
  match e with
  | ExpRule _ => true
  | _ => false
  end.

(** A failure leaves a rule.  The failure of a pattern becomes the failure of
    the rule it leaves, and is not recorded there; any other failure is
    recorded. *)
Definition leave (st : failures) : failures :=
  match st with
  | Some (mkTrail (rem, e) true far) => Some (mkTrail (rem, e) false far)
  | Some (mkTrail (rem, e) false far) =>
      Some (mkTrail (rem, e) false (note rem e far))
  | None => None
  end.

(** ** Parsing combinators *)

Inductive outcome (A : Type) :=
| Ok (a : A) (rest : str)
| Fail.
Arguments Fail {A}.

Definition parser (A : Type) := str -> failures -> outcome A * failures.

Definition ret {A} (a : A) : parser A := fun s far => (Ok a s, far).

Definition bind {A B} (p : parser A) (k : A -> parser B) : parser B :=
  fun s far =>
    match p s far with
    | (Ok a r, far') => k a r far'
    | (Fail, far') => (Fail, far')
    end.

Declare Scope parser_scope.
Delimit Scope parser_scope with parser.
Notation "x <- p ;; k" := (bind p (fun x => k))
  (at level 61, p at next level, right associativity) : parser_scope.
Notation "p ;;; k" := (bind p (fun _ => k))
  (at level 61, right associativity) : parser_scope.
Open Scope parser_scope.

(** A failure is raised where the input stands; nothing is recorded yet. *)
Definition raise {A} (e : expected) : parser A :=
  fun s far =>
    (Fail, Some (mkTrail (length s, e) (is_pattern e) (furthest_of far))).

(** A rule: white space is skipped, then the body runs; a failure of the body
    leaves the rule. *)
Definition rule {A} (body : parser A) : parser A :=
  fun s far =>
    match body (skip_ws s) far with
    | (Ok a r, far') => (Ok a r, far')
    | (Fail, far') => (Fail, leave far')
    end.

(** A string token: white space is skipped, then the token must be next. *)
Definition token (t : str) : parser str :=
  fun s far =>
    let s' := skip_ws s in
    match strip_prefix t s' with
    | Some r => (Ok t r, far)
    | None => raise (ExpToken t) s' far
    end.

(** [[e]]: [e], or nothing at the position where [e] was tried. *)
Definition optional {A} (p : parser A) : parser (option A) :=
  fun s far =>
    match p s far with
    | (Ok a r, far') => (Ok (Some a) r, far')
    | (Fail, far') => (Ok None s, far')
    end.

(** [{e}*]: [e] as long as it succeeds and consumes; an iteration that fails
    or consumes nothing is undone and ends the repetition.  Every iteration
    kept consumes, so the bound [length s] on their number is never reached. *)
Fixpoint closure_n {A} (n : nat) (p : parser A) : parser (list A) :=
  fun s far =>
    match p s far with
    | (Ok a r, far') =>
        if length r <? length s then
          match n with
          | 0 => (Ok [] s, far')
          | S n' =>
              match closure_n n' p r far' with
              | (Ok l r', far'') => (Ok (a :: l) r', far'')
              | (Fail, far'') => (Fail, far'')
              end
          end
        else (Ok [] s, far')
    | (Fail, far') => (Ok [] s, far')
    end.

Definition closure {A} (p : parser A) : parser (list A) :=
  fun s far => closure_n (length s) p s far.

(** [$] *)
Definition check_eof : parser unit :=
  fun s far =>
    match skip_ws s with
    | [] => (Ok tt [], far)
    | s' => raise ExpEnd s' far
    end.

(** ** The rules of the grammar *)

Module USFM.

(** [text = /[^\\\\|]*/ ;] *)
Definition text : parser str :=
  rule (fun s far => let (m, r) := span is_text_char s in (Ok m r, far)).

(** [ws = /\s*/ ;] *)
Definition ws : parser str :=
  rule (fun s far => let (m, r) := span is_space s in (Ok m r, far)).

(** [tag_id = /[A-Za-z][A-Za-z0-9-]*/ ;] *)
Definition tag_id : parser str :=
  rule (fun s far =>
    match s with
    | c :: r =>
        if is_alpha c then let (m, r') := span is_id_char r in (Ok (c :: m) r', far)
        else raise (ExpRule "tag_id") s far
    | [] => raise (ExpRule "tag_id") s far
    end).

(** [value]: the pattern of a double quote, a run of characters other than
    the double quote, and a double quote.  The node is the whole match, its
    two quotes included. *)
Definition value : parser str :=
  rule (fun s far =>
    match s with
    | c :: r =>
        if Ascii.eqb c dquote then
          match span is_value_char r with
          | (m, c' :: r') => (Ok (dquote :: m ++ [dquote]) r', far)
          | (_, []) => raise (ExpRule "value") s far
          end
        else raise (ExpRule "value") s far
    | [] => raise (ExpRule "value") s far
    end).

(** [backslash]: the token of one backslash. *)
Definition backslash : parser str := rule (token [bslash]).

(** [pipe]: the token of one pipe. *)
Definition pipe : parser str := rule (token [bar]).

(** [key = tag_id ;] *)
Definition key : parser str := rule tag_id.

(** [pair = key [(= value)] ;] *)
Definition pair : parser Pair :=
  rule (k <- key ;;
        v <- optional (token (L "=") ;;; value) ;;
        ret (mkPair k v)).

(** [attributes = [( pipe {pair}* )] ;] *)
Definition attributes : parser (list Pair) :=
  rule (a <- optional (pipe ;;; closure pair) ;;
        ret (match a with Some l => l | None => [] end)).

(** [tag_start = backslash tag_id ws ;]  The node is the tag id. *)
Definition tag_start : parser str :=
  rule (backslash ;;; t <- tag_id ;; ws ;;; ret t).

(** [tag_end = backslash [tag_id] * ;]  The node is the optional id. *)
Definition tag_end : parser (option str) :=
  rule (backslash ;;; t <- optional tag_id ;; token [star] ;;; ret t).

(** [inline_element = element [attributes] tag_end ;] over a given parser
    for [element]. *)
Definition inline_element_of (element : parser Element) : parser InlineElement :=
  rule (e <- element ;;
        a <- optional attributes ;;
        c <- tag_end ;;
        ret (mkInline e (match a with Some l => l | None => [] end) c)).

(** [element = tag_start [text] {(inline_element [text])}* [text] ;] over a
    given parser for [inline_element]. *)
Definition element_of (inline_element : parser InlineElement) : parser Element :=
  rule (t <- tag_start ;;
        lt <- optional text ;;
        ch <- closure (i <- inline_element ;; tx <- optional text ;; ret (i, tx)) ;;
        ft <- optional text ;;
        ret (mkElement t lt ch ft)).

(** The two rules call each other; [n] bounds the nesting of elements.  An
    element below another starts at least two characters later, so a bound
    above the length of the input is never reached.  The bound is one of
    this definition only: the depth at which the interpreter gives up is
    not modelled. *)
Fixpoint element_n (n : nat) : parser Element :=
  match n with
  | 0 => fun _ far => (Fail, far)
  | S n' => element_of (inline_element_of (element_n n'))
  end.

Definition element : parser Element :=
  fun s far => element_n (S (length s)) s far.

Definition inline_element : parser InlineElement := inline_element_of element.

(** [document = {element}* ;] *)
Definition document : parser Document := rule (closure element).

(** [start = document $ ;] *)
Definition start : parser Document :=
  rule (d <- document ;; check_eof ;;; ret d).

End USFM.

(** ** The entry point *)

Record SyntaxError := mkError { position : nat; expecting : expected }.

(** The error of a failed parse: the entry point records the failure that
    has reached it and reports the furthest failure recorded, at its offset
    from the start of the text. *)
Definition report (txt : str) (far : failures) : SyntaxError :=
  match far with
  | Some (mkTrail (rem, e) _ rec) =>
      match note rem e rec with
      | Some (rem', e') => mkError (length txt - rem') e'
      | None => mkError 0 ExpEnd
      end
  | None => mkError 0 ExpEnd
  end.

(** [grammar.parse(text)]: [start] runs on the whole text, with no failure
    recorded. *)
Definition parse (txt : str) : SyntaxError + Document :=
  match USFM.start txt None with
  | (Ok d _, _) => inr d
  | (Fail, far) => inl (report txt far)
  end.

(** The outcome of a parser on a text, failures left aside. *)
Definition run {A} (p : parser A) (s : str) : outcome A := fst (p s None).

(** The body of the repetition in [element]. *)
Definition child (inline_element : parser InlineElement)
  : parser (InlineElement * option str) :=
  i <- inline_element ;; tx <- optional USFM.text ;; ret (i, tx).

(** ** The text nodes of a tree *)

Definition opt_text (t : option str) : list str :=
  match t with Some x => [x] | None => [] end.

(** The leading, trailing and final texts of an element and of the elements
    below it, in source order. *)
Fixpoint texts_of_element (e : Element) : list str :=
  match e with
  | mkElement _ lt ch ft =>
      opt_text lt
      ++ (fix texts_of_children (l : list (InlineElement * option str)) :=
            match l with
            | [] => []
            | (i, tx) :: l' =>
                texts_of_inline i ++ opt_text tx ++ texts_of_children l'
            end) ch
      ++ opt_text ft
  end
with texts_of_inline (i : InlineElement) : list str :=
  match i with
  | mkInline e _ _ => texts_of_element e
  end.

Definition texts_of_document (d : Document) : list str :=
  flat_map texts_of_element d.

(** A text without backslash and without pipe. *)
Definition text_ok (t : str) : Prop := Forall (fun c => is_text_char c = true) t.

(** A tag id: a letter, then letters, digits and hyphens. *)
Definition is_tag_id (k : str) : bool :=
  match k with
  | c :: m => is_alpha c && forallb is_id_char m
  | [] => false
  end.

(** ** Where the rules can be tried *)

(** From a position of the input, the next position that a rule outside an
    attribute list can be tried at: past one character, or, at a pipe, past
    the whole attribute list that starts there. *)
Definition next (u : str) : str :=
  match u with
  | [] => []
  | c :: u' =>
      if Ascii.eqb c bar
      then match run USFM.attributes u with Ok _ r => r | Fail => u' end
      else u'
  end.

Fixpoint iter_next (k : nat) (u : str) : str :=
  match k with
  | 0 => u
  | S k' => iter_next k' (next u)
  end.

Definition reach (u v : str) : Prop := exists k, iter_next k u = v.

(** A text without pipe. *)
Definition barfree (c : str) : Prop := Forall (fun x => Ascii.eqb x bar = false) c.

(** A parser hands back a suffix of its input. *)
Definition trims {A} (p : parser A) : Prop :=
  forall s far a r far', p s far = (Ok a r, far') -> exists c, s = c ++ r.

(** Two outcomes on two inputs that differ behind a common prefix only, [B]
    on one side and [B'] on the other: both fail; or both stop before the
    difference, with one value; or both stop at one place past it. *)
Inductive twin {A} (B B' : str) : outcome A -> outcome A -> Prop :=
| twin_fail : twin B B' Fail Fail
| twin_before a x : twin B B' (Ok a (x ++ B)) (Ok a (x ++ B'))
| twin_after a a' r :
    length r < length B -> length r < length B' ->
    twin B B' (Ok a r) (Ok a' r).

(** An outcome on [x], seen on [x ++ t]. *)
Definition lift {A} (t : str) (o : outcome A) : outcome A :=
  match o with
  | Ok a r => Ok a (r ++ t)
  | Fail => Fail
  end.

(** [attributes], then [tag_end]: what closes an inline element. *)
Definition close_at (s : str) : outcome (list Pair * option str) :=
  match run USFM.attributes s with
  | Ok a r =>
      match run USFM.tag_end r with
      | Ok c r' => Ok (a, c) r'
      | Fail => Fail
      end
  | Fail => Fail
  end.

(** ** Closing tags *)

(** The closing tag with an id, and the one without. *)
Definition closing (id : str) : str := bslash :: id ++ [star].
Definition anonymous_closing : str := [bslash; star].

(** In the parse that starts at [s], the closing tag of an inline element is
    read from [tgt]: of the inline element at [s] itself or of one below it
    ([inline_closes]), of one below the element at [s] ([element_closes]),
    of one among or below the children that start at [s]
    ([children_close]). *)
Inductive inline_closes (tgt : str) : str -> Prop :=
| ic_here s e r1 a r2 c r3 :
    run USFM.element (skip_ws s) = Ok e r1 ->
    run USFM.attributes r1 = Ok a r2 ->
    run USFM.tag_end r2 = Ok c r3 ->
    skip_ws r2 = tgt ->
    inline_closes tgt s
| ic_below s e r1 a r2 c r3 :
    run USFM.element (skip_ws s) = Ok e r1 ->
    run USFM.attributes r1 = Ok a r2 ->
    run USFM.tag_end r2 = Ok c r3 ->
    element_closes tgt (skip_ws s) ->
    inline_closes tgt s
with element_closes (tgt : str) : str -> Prop :=
| ec_children s t r :
    run USFM.tag_start s = Ok t r ->
    children_close tgt (snd (span is_text_char r)) ->
    element_closes tgt s
with children_close (tgt : str) : str -> Prop :=
| cc_here s : inline_closes tgt s -> children_close tgt s
| cc_later s i r :
    run USFM.inline_element s = Ok i r ->
    children_close tgt (snd (span is_text_char (skip_ws r))) ->
    children_close tgt s.

(** The same for the top-level elements that start at [s]. *)
Inductive document_closes (tgt : str) : str -> Prop :=
| dc_here s : element_closes tgt s -> document_closes tgt s
| dc_later s e r :
    run USFM.element s = Ok e r ->
    document_closes tgt r ->
    document_closes tgt s.

(** Two trees that differ in the closing tag of exactly one inline element,
    [Some id] in the first and [None] in the second. *)
Inductive inline_reclosed (id : str) : InlineElement -> InlineElement -> Prop :=
| ir_here e a : inline_reclosed id (mkInline e a (Some id)) (mkInline e a None)
| ir_below e e' a c :
    element_reclosed id e e' ->
    inline_reclosed id (mkInline e a c) (mkInline e' a c)
with element_reclosed (id : str) : Element -> Element -> Prop :=
| er_children t lt ch ch' ft :
    children_reclosed id ch ch' ->
    element_reclosed id (mkElement t lt ch ft) (mkElement t lt ch' ft)
with children_reclosed (id : str)
  : list (InlineElement * option str) -> list (InlineElement * option str) -> Prop :=
| cr_here i i' tx l :
    inline_reclosed id i i' ->
    children_reclosed id ((i, tx) :: l) ((i', tx) :: l)
| cr_later c l l' :
    children_reclosed id l l' ->
    children_reclosed id (c :: l) (c :: l').

Inductive document_reclosed (id : str) : Document -> Document -> Prop :=
| dr_here e e' d :
    element_reclosed id e e' -> document_reclosed id (e :: d) (e' :: d)
| dr_later e d d' :
    document_reclosed id d d' -> document_reclosed id (e :: d) (e :: d').

(** What the two inputs of a replaced closing tag have in common: they
    differ from a position [h :: tb] on one side and [h :: tb'] on the other,
    a backslash or a pipe, at which no inline element starts, and from which
    the attributes and the closing tag of one inline element are read, with
    the id on one side and without it on the other, up to [post]. *)
Definition bound (id post : str) (h : ascii) (tb tb' : str) : Prop :=
  is_text_char h = false
  /\ (snd (span is_value_char (h :: tb)) = [] ->
      snd (span is_value_char (h :: tb')) = [])
  /\ run USFM.inline_element (h :: tb) = Fail
  /\ run USFM.inline_element (h :: tb') = Fail
  /\ twin (h :: tb) (h :: tb')
          (run USFM.tag_end (h :: tb)) (run USFM.tag_end (h :: tb'))
  /\ (exists a, close_at (h :: tb) = Ok (a, Some id) post
                /\ close_at (h :: tb') = Ok (a, None) post)
  /\ (exists y, h :: tb = y ++ closing id ++ post
                /\ h :: tb' = y ++ anonymous_closing ++ post).

(** The rule [f] succeeds on both inputs from [s] on, past the replaced
    closing tag, with values related by [R]. *)
Definition crossed {A} (R : A -> A -> Prop) (f : parser A) (post : str)
           (h : ascii) (tb tb' : str) (s : str) : Prop :=
  exists x a a' r,
    s = x ++ h :: tb
    /\ run f (x ++ h :: tb) = Ok a r
    /\ run f (x ++ h :: tb') = Ok a' r
    /\ R a a'
    /\ length r <= length post.

(** The attribute list at the pipe [w] is followed by a closing tag. *)
Definition closed_at (w : str) : Prop :=
  exists a r2 c r3, run USFM.attributes w = Ok a r2 /\ run USFM.tag_end r2 = Ok c r3.

(** What is proved of a rule [f] at a position [s] on the path to a
    replaced closing tag: the two inputs differ from a position that can be
    reached from [s], and [f] succeeds on both of them past it. *)
Definition on_path {A} (id post : str) (R : A -> A -> Prop) (f : parser A)
           (s : str) : Prop :=
  exists h tb tb',
    bound id post h tb tb' /\ reach s (h :: tb) /\ crossed R f post h tb tb' s.

(** A position at which a text has ended: the end of the input, a backslash
    or a pipe. *)
Definition stopped (u : str) : Prop :=
  match u with
  | [] => True
  | c :: _ => is_text_char c = false
  end.

(** [r] is what is left of [u] once a text without pipe has been read. *)
Definition eats (u r : str) : Prop := exists c, u = c ++ r /\ barfree c.

(** ** The scenarios of the specification *)

(** The text of [single_attribute], without the lines around it. *)
Definition scenario2 : str :=
  L "\v 1 \w hello | x-occurences = " ++ [dquote] ++ L "1" ++ [dquote] ++ L "\w*".

(** The tree of scenario 2, with [v] for the value of the attribute and
    [t1], [t2], [t3] for the texts that close [w], follow [w] and close
    [v]. *)
Definition scenario2_tree (v : str) (t1 t2 t3 : option str) : Document :=
  [mkElement (L "v") (Some (L "1 "))
     [(mkInline (mkElement (L "w") (Some (L "hello ")) [] t1)
                [mkPair (L "x-occurences") (Some v)]
                (Some (L "w")),
       t2)]
     t3].

(** The text of scenario 3. *)
Definition scenario3 : str := L "\zaln-s\*".

(** The malformed text of scenario 4. *)
Definition scenario4 : str := L "\w hello | x-lemma = " ++ [dquote].

(** ** The driver *)

(** The texts of the driver are triple-quoted: a line break, the lines, each
    behind four spaces and closed by a line break, and four spaces. *)
Definition newline : ascii := "010"%char.

Definition lines (l : list str) : str :=
  newline :: flat_map (fun x => L "    " ++ x ++ [newline]) l ++ L "    ".

(** A literal between double quotes. *)
Definition in_quotes (s : string) : str := dquote :: L s ++ [dquote].

(** The compiled grammar, as far as the driver uses it: its [parse]. *)
Definition grammar_object := str -> SyntaxError + Document.

(** A function of the driver: it is handed the grammar object and calls
    [grammar.parse] on its text.  The tree, which the source drops or
    prints, is kept here. *)
Definition driver := grammar_object -> SyntaxError + Document.

Definition single_simple_tag : driver :=
  fun grammar => grammar (L "\id GEN EN_ULT en_English_ltr").

Definition double_simple_tag : driver :=
  fun grammar =>
    grammar (lines [L "\id GEN EN_ULT en_English_ltr"; L "\usfm 3.0"]).

Definition single_attribute : driver :=
  fun grammar =>
    grammar
      (lines [L "\v 1 \w hello | x-occurences = " ++ in_quotes "1" ++ L "\w*"]).

Definition single_empty_attribute : driver :=
  fun grammar =>
    grammar
      (lines [L "\v 1 \w hello | x-lemma = " ++ in_quotes EmptyString ++ L "\w*"]).

Definition self_closing_tag : driver :=
  fun grammar => grammar (lines [L "\p"; L "\zaln-s\*"]).

Definition inner_elements : driver :=
  fun grammar =>
    grammar
      (lines [L "\v 1 \zaln-s |x-strong=" ++ in_quotes "b:H7225"
              ++ L " x-morph=" ++ in_quotes "He,R:Ncfsa" ++ L "\*\w In\w*"]).

Definition ending_text : driver :=
  fun grammar =>
    grammar
      (lines [L "\v 1";
              L "\w empty|x-occurrence=" ++ in_quotes "1"
              ++ L " x-occurrences=" ++ in_quotes "1" ++ L "\w*\zaln-e\*,";
              L "\zaln-s\*"]).

Definition self_closing_attributes : driver :=
  fun grammar =>
    grammar
      (lines [L "\v 1";
              L "\zaln-s |x-strong=" ++ in_quotes "b" ++ L "\*";
              L "\w hello \w*";
              L "\zaln-e\*"]).

(** The calls of [__main__], one after the other on one grammar object, up
    to the first that raises: the trees of the calls, or the error raised. *)
Fixpoint call_all (grammar : grammar_object) (ds : list driver)
  : SyntaxError + list Document :=
  match ds with
  | [] => inr []
  | d :: ds' =>
      match d grammar with
      | inl e => inl e
      | inr t =>
          match call_all grammar ds' with
          | inl e => inl e
          | inr ts => inr (t :: ts)
          end
      end
  end.

Definition main : SyntaxError + list Document :=
  call_all parse
    [single_simple_tag; double_simple_tag; single_attribute;
     single_empty_attribute; self_closing_tag; inner_elements; ending_text;
     self_closing_attributes].

(** ** The nodes of a tree *)

Definition tag_of (e : Element) : str :=
  match e with mkElement t _ _ _ => t end.
Definition leading_of (e : Element) : option str :=
  match e with mkElement _ lt _ _ => lt end.
Definition children_of (e : Element) : list (InlineElement * option str) :=
  match e with mkElement _ _ ch _ => ch end.
Definition final_of (e : Element) : option str :=
  match e with mkElement _ _ _ ft => ft end.
Definition attrs_of (i : InlineElement) : list Pair :=
  match i with mkInline _ a _ => a end.
Definition closing_of (i : InlineElement) : option str :=
  match i with mkInline _ _ c => c end.

(** An element and the elements below it, in source order. *)
Fixpoint elements_in (e : Element) : list Element :=
  e :: match e with
       | mkElement _ _ ch _ =>
           (fix elements_in_children (l : list (InlineElement * option str)) :=
              match l with
              | [] => []
              | (i, _) :: l' => elements_in_inline i ++ elements_in_children l'
              end) ch
       end
with elements_in_inline (i : InlineElement) : list Element :=
  match i with
  | mkInline e _ _ => elements_in e
  end.

(** The inline elements below an element, in source order. *)
Fixpoint inlines_in (e : Element) : list InlineElement :=
  match e with
  | mkElement _ _ ch _ =>
      (fix inlines_in_children (l : list (InlineElement * option str)) :=
         match l with
         | [] => []
         | (i, _) :: l' => inlines_in_inline i ++ inlines_in_children l'
         end) ch
  end
with inlines_in_inline (i : InlineElement) : list InlineElement :=
  i :: match i with
       | mkInline e _ _ => inlines_in e
       end.

Definition elements_of_document (d : Document) : list Element :=
  flat_map elements_in d.
Definition inlines_of_document (d : Document) : list InlineElement :=
  flat_map inlines_in d.

Definition opt_all {A} (P : A -> Prop) (o : option A) : Prop :=
  match o with Some a => P a | None => True end.

(** A quoted literal: a double quote, characters other than the double
    quote, and a double quote. *)
Definition quoted (v : str) : Prop :=
  exists m, v = dquote :: m ++ [dquote]
            /\ Forall (fun c => is_value_char c = true) m.

(** A pair as the rules can build it: its key is a tag id, and its value,
    when there is one, a quoted literal. *)
Definition pair_ok (p : Pair) : Prop :=
  is_tag_id (pair_key p) = true /\ opt_all quoted (pair_value p).

(** A text that does not begin with white space. *)
Definition trimmed (t : str) : Prop := skip_ws t = t.

(** ** Texts written out *)

Definition spaces (w : str) : Prop := Forall (fun c => is_space c = true) w.

(** What may follow a tag id: no character that would continue it. *)
Definition ends_id (x : str) : Prop :=
  match x with c :: _ => is_id_char c = false | [] => True end.

(** A position at which a tag starts, or the end of the input. *)
Definition at_tag (u : str) : Prop :=
  match u with [] => True | c :: _ => c = bslash end.

(** An element without children, as the rules build it: the final text is
    an empty match. *)
Definition childless (k rest : str) : Element :=
  mkElement k (Some rest) [] (Some []).

(** A tag, one space and a text. *)
Definition simple_tag (kr : str * str) : str :=
  bslash :: fst kr ++ L " " ++ snd kr.

Definition simple_element (kr : str * str) : Element :=
  childless (fst kr) (snd kr).

(** The text of a simple tag has neither backslash nor pipe and begins
    neither with white space nor with a star. *)
Definition simple_ok (kr : str * str) : Prop :=
  is_tag_id (fst kr) = true /\ text_ok (snd kr) /\ trimmed (snd kr)
  /\ strip_prefix [star] (snd kr) = None.

(** The closing tag that gives the node [c]. *)
Definition close_tag (c : option str) : str :=
  match c with Some id => closing id | None => anonymous_closing end.

(** A pair and an attribute list written out: a pipe, and before every pair
    one space. *)
Definition print_pair (p : Pair) : str :=
  pair_key p ++ match pair_value p with Some v => L "=" ++ v | None => [] end.

Definition print_attributes (ps : list Pair) : str :=
  bar :: flat_map (fun p => L " " ++ print_pair p) ps.

(** A result whose error, if it is one, lies [n] characters further. *)
Definition shift_error (n : nat) (r : SyntaxError + Document)
  : SyntaxError + Document :=
  match r with
  | inl e => inl (mkError (n + position e) (expecting e))
  | inr d => inr d
  end.

(** A parser that records no failure when it succeeds. *)
Definition quiet {A} (p : parser A) : Prop :=
  forall s far a r far', p s far = (Ok a r, far') -> far' = far.

(** The failures after a rule has failed at most [n] characters before the
    end of the text: the failure has left a rule, and it is recorded, or one
    at least as far into the text is. *)
Definition settled (n : nat) (st : failures) : Prop :=
  exists rem e rem' e',
    st = Some (mkTrail (rem, e) false (Some (rem', e')))
    /\ rem' <= rem /\ rem <= n.

(** The tree that [self_closing_attributes] prints. *)
Definition self_closing_attributes_tree : Document :=
  [mkElement (L "v") (Some (L "1" ++ newline :: L "    "))
     [(mkInline (childless (L "zaln-s") [])
                [mkPair (L "x-strong") (Some (in_quotes "b"))] None,
       Some []);
      (mkInline (childless (L "w") (L "hello ")) [] (Some (L "w")), Some []);
      (mkInline (childless (L "zaln-e") []) [] None, Some [])]
     (Some [])].

(** ** Trees written out *)

Definition opt_str (o : option str) : str :=
  match o with Some t => t | None => [] end.

(** An attribute list written out: nothing when there is no pair. *)
Definition print_attrs (a : list Pair) : str :=
  match a with [] => [] | _ :: _ => print_attributes a end.

(** An element written out: its tag, one space, its text, and its children,
    each with its attributes, its closing tag and the text behind it. *)
Fixpoint print_element (e : Element) : str :=
  match e with
  | mkElement k lt ch _ =>
      bslash :: k ++ L " " ++ opt_str lt
      ++ flat_map (fun c : InlineElement * option str =>
                     match fst c with
                     | mkInline e' a cl =>
                         print_element e' ++ print_attrs a ++ close_tag cl
                     end ++ opt_str (snd c)) ch
  end.

Definition print_inline (i : InlineElement) : str :=
  match i with
  | mkInline e a c => print_element e ++ print_attrs a ++ close_tag c
  end.

Definition print_child (c : InlineElement * option str) : str :=
  print_inline (fst c) ++ opt_str (snd c).

(** The number of elements on the longest path down a tree. *)
Fixpoint height (e : Element) : nat :=
  match e with
  | mkElement _ _ ch _ =>
      S (list_max (map (fun c : InlineElement * option str =>
                          match fst c with mkInline e' _ _ => height e' end) ch))
  end.

Definition height_inline (i : InlineElement) : nat :=
  match i with
  | mkInline e _ _ => height e
  end.

(** A text node as the rules build it. *)
Definition text_node (t : str) : Prop := text_ok t /\ trimmed t.

(** A tree as the rules build it, all of whose closing tags are without
    id. *)
Inductive anonymous : Element -> Prop :=
| anonymous_element k lt ch :
    is_tag_id k = true -> text_node lt -> Forall anonymous_child ch ->
    anonymous (mkElement k (Some lt) ch (Some []))
with anonymous_child : InlineElement * option str -> Prop :=
| anonymous_inline e a tx :
    anonymous e -> Forall pair_ok a -> text_node tx ->
    anonymous_child (mkInline e a None, Some tx).

(** A child closed by any closing tag, over such a tree. *)
Inductive closed_child : InlineElement * option str -> Prop :=
| closed_inline e a c tx :
    anonymous e -> Forall pair_ok a ->
    opt_all (fun id => is_tag_id id = true) c -> text_node tx ->
    closed_child (mkInline e a c, Some tx).

(** A top-level element as the rules build it: its children are closed by
    any closing tags, and all closing tags below them are without id. *)
Inductive top_level : Element -> Prop :=
| top_level_element k lt ch :
    is_tag_id k = true -> text_node lt -> Forall closed_child ch ->
    top_level (mkElement k (Some lt) ch (Some [])).

(** A verse with attributes, closing tags with and without id, and an
    element two levels down. *)
Definition verse : Element :=
  mkElement (L "v") (Some (L "1 "))
    [(mkInline (childless (L "w") (L "empty"))
               [mkPair (L "x-occurrence") (Some (in_quotes "1"));
                mkPair (L "x-plain") None]
               (Some (L "w")),
      Some (L ", "));
     (mkInline (mkElement (L "zaln-s") (Some [])
                  [(mkInline (childless (L "w") (L "In")) [] None, Some [])]
                  (Some []))
               [mkPair (L "x-strong") (Some (in_quotes "b:H7225"))]
               None,
      Some []);
     (mkInline (childless (L "k") (L "the")) [] (Some (L "zaln-e")), Some (L "."))]
    (Some []).

(** * Properties *)

(** ** Character classes and [span] *)

Lemma span_app p s : fst (span p s) ++ snd (span p s) = s.
Proof.
  induction s as [|c r IH]; simpl; [reflexivity|].
  destruct (p c); simpl; [|reflexivity].
  destruct (span p r); simpl in *. now rewrite IH.
Qed.

Lemma span_fst_all p s : Forall (fun c => p c = true) (fst (span p s)).
Proof.
  induction s as [|c r IH]; simpl; [constructor|].
  destruct (p c) eqn:E; simpl; [|constructor].
  destruct (span p r); simpl in *. now constructor.
Qed.

Lemma span_snd_head p s c r : snd (span p s) = c :: r -> p c = false.
Proof.
  induction s as [|a s IH]; simpl; [discriminate|].
  destruct (p a) eqn:E; simpl.
  - destruct (span p s); simpl in *. exact IH.
  - intros H; now inversion H; subst.
Qed.

Lemma span_length p s : length (snd (span p s)) <= length s.
Proof.
  rewrite <- (span_app p s) at 2. rewrite length_app. lia.
Qed.

(** A run of [p]-characters followed by a character outside [p], or by
    nothing, is split by [span] exactly there. *)
Lemma span_all p m r :
  Forall (fun c => p c = true) m ->
  match r with c :: _ => p c = false | [] => True end ->
  span p (m ++ r) = (m, r).
Proof.
  intros Hm Hr. induction Hm as [|c m Hc _ IH]; simpl.
  - destruct r as [|c r]; [reflexivity|]. simpl. now rewrite Hr.
  - now rewrite Hc, IH.
Qed.

Lemma span_idem p s : span p (snd (span p s)) = ([], snd (span p s)).
Proof.
  destruct (snd (span p s)) as [|c r] eqn:E; [reflexivity|].
  simpl. now rewrite (span_snd_head p s E).
Qed.

Lemma skip_ws_length s : length (skip_ws s) <= length s.
Proof. apply span_length. Qed.

Lemma skip_ws_idem s : skip_ws (skip_ws s) = skip_ws s.
Proof. unfold skip_ws. now rewrite span_idem. Qed.

Lemma skip_ws_cons c s : is_space c = false -> skip_ws (c :: s) = c :: s.
Proof. intros H. unfold skip_ws. simpl. now rewrite H. Qed.

Lemma skip_ws_head s c r : skip_ws s = c :: r -> is_space c = false.
Proof. apply span_snd_head. Qed.

(** Every character is one of 256: a property of characters is settled by
    evaluation. *)
Lemma forall_ascii (P : ascii -> bool) :
  forallb P (map ascii_of_nat (seq 0 256)) = true -> forall c, P c = true.
Proof.
  intros H c. rewrite forallb_forall in H. apply H.
  rewrite <- (ascii_nat_embedding c). apply in_map, in_seq.
  pose proof (nat_ascii_bounded c). lia.
Qed.

Lemma space_is_text c : is_space c = true -> is_text_char c = true.
Proof.
  revert c.
  assert (H : forall c, implb (is_space c) (is_text_char c) = true)
    by (apply forall_ascii; vm_compute; reflexivity).
  intros c Hc. specialize (H c). now rewrite Hc in H.
Qed.

Lemma space_not_alpha c : is_space c = true -> is_alpha c = false.
Proof.
  revert c.
  assert (H : forall c, implb (is_space c) (negb (is_alpha c)) = true)
    by (apply forall_ascii; vm_compute; reflexivity).
  intros c Hc. specialize (H c). rewrite Hc in H. simpl in H.
  now destruct (is_alpha c).
Qed.

Lemma id_char_not_space c : is_id_char c = true -> is_space c = false.
Proof.
  revert c.
  assert (H : forall c, implb (is_id_char c) (negb (is_space c)) = true)
    by (apply forall_ascii; vm_compute; reflexivity).
  intros c Hc. specialize (H c). rewrite Hc in H. simpl in H.
  now destruct (is_space c).
Qed.

Lemma alpha_is_id_char c : is_alpha c = true -> is_id_char c = true.
Proof. unfold is_id_char. now intros ->. Qed.

Lemma id_char_is_text c : is_id_char c = true -> is_text_char c = true.
Proof.
  revert c.
  assert (H : forall c, implb (is_id_char c) (is_text_char c) = true)
    by (apply forall_ascii; vm_compute; reflexivity).
  intros c Hc. specialize (H c). now rewrite Hc in H.
Qed.

(** ** What every parser of the grammar does *)

(** A parser hands back a suffix of what it was given. *)
Definition shrinks {A} (p : parser A) : Prop :=
  forall s far a r far', p s far = (Ok a r, far') -> length r <= length s.

(** A parser consumes at least one character when it succeeds. *)
Definition consumes {A} (p : parser A) : Prop :=
  forall s far a r far', p s far = (Ok a r, far') -> length r < length s.

(** The outcome of a parser does not depend on the failures recorded before
    it runs. *)
Definition blind {A} (p : parser A) : Prop :=
  forall s far1 far2, fst (p s far1) = fst (p s far2).

Create HintDb parsers.

(** A rule succeeds as its body does, behind the white space. *)
Lemma rule_ok {A} (p : parser A) s far a r far' :
  rule p s far = (Ok a r, far') -> p (skip_ws s) far = (Ok a r, far').
Proof.
  unfold rule. destruct (p (skip_ws s) far) as [[a0 r0|] f]; [|discriminate].
  intros H. now inversion H.
Qed.

Lemma rule_ext {A} (p q : parser A) s far :
  p (skip_ws s) far = q (skip_ws s) far -> rule p s far = rule q s far.
Proof. unfold rule. now intros ->. Qed.

Lemma rule_fst {A} (p : parser A) s far :
  fst (rule p s far) = fst (p (skip_ws s) far).
Proof. unfold rule. now destruct (p (skip_ws s) far) as [[a r|] f]. Qed.

Section Combinators.
Context {A B : Type}.
Variables (p : parser A) (k : A -> parser B).

Lemma shrinks_ret (a : A) : shrinks (ret a).
Proof. intros s far a' r far' H. inversion H; subst. lia. Qed.

Lemma shrinks_raise (e : expected) : shrinks (@raise A e).
Proof. intros s far a r far' H. discriminate H. Qed.

Lemma shrinks_bind : shrinks p -> (forall a, shrinks (k a)) -> shrinks (bind p k).
Proof.
  intros Hp Hk s far b r far'. unfold bind.
  destruct (p s far) as [[a r1|] far1] eqn:E; [|discriminate].
  intros H. apply Hp in E. apply Hk in H. lia.
Qed.

Lemma consumes_bind_l : consumes p -> (forall a, shrinks (k a)) -> consumes (bind p k).
Proof.
  intros Hp Hk s far b r far'. unfold bind.
  destruct (p s far) as [[a r1|] far1] eqn:E; [|discriminate].
  intros H. apply Hp in E. apply Hk in H. lia.
Qed.

Lemma shrinks_rule : shrinks p -> shrinks (rule p).
Proof.
  intros Hp s far a r far' H. apply rule_ok in H. apply Hp in H.
  pose proof (skip_ws_length s). lia.
Qed.

Lemma consumes_rule : consumes p -> consumes (rule p).
Proof.
  intros Hp s far a r far' H. apply rule_ok in H. apply Hp in H.
  pose proof (skip_ws_length s). lia.
Qed.

Lemma consumes_shrinks : consumes p -> shrinks p.
Proof. intros Hp s far a r far' H. apply Hp in H. lia. Qed.

Lemma shrinks_optional : shrinks p -> shrinks (optional p).
Proof.
  intros Hp s far a r far'. unfold optional.
  destruct (p s far) as [[a1 r1|] far1] eqn:E; intros H; inversion H; subst.
  - now apply Hp in E.
  - lia.
Qed.

Lemma shrinks_closure_n n : shrinks (closure_n n p).
Proof.
  induction n as [|n IH]; intros s far l r far'; simpl;
    destruct (p s far) as [[a r1|] far1] eqn:E;
    try (intros H; inversion H; subst; lia);
    destruct (length r1 <? length s) eqn:L;
    try (intros H; inversion H; subst; lia).
  apply Nat.ltb_lt in L.
  destruct (closure_n n p r1 far1) as [[l1 r2|] far2] eqn:E2; [|discriminate].
  intros H; inversion H; subst. apply IH in E2. lia.
Qed.

Lemma shrinks_closure : shrinks (closure p).
Proof. intros s far l r far' H. now apply shrinks_closure_n in H. Qed.

Lemma blind_ret (a : A) : blind (ret a).
Proof. now intros s f1 f2. Qed.

Lemma blind_raise (e : expected) : blind (@raise A e).
Proof. now intros s f1 f2. Qed.

Lemma blind_bind : blind p -> (forall a, blind (k a)) -> blind (bind p k).
Proof.
  intros Hp Hk s f1 f2. unfold bind. specialize (Hp s f1 f2).
  destruct (p s f1) as [[a r|] g1], (p s f2) as [[a' r'|] g2];
    simpl in Hp; try discriminate; [|reflexivity].
  inversion Hp; subst. apply Hk.
Qed.

Lemma blind_rule : blind p -> blind (rule p).
Proof. intros Hp s f1 f2. rewrite !rule_fst. apply Hp. Qed.

Lemma blind_optional : blind p -> blind (optional p).
Proof.
  intros Hp s f1 f2. unfold optional. specialize (Hp s f1 f2).
  destruct (p s f1) as [[a r|] g1], (p s f2) as [[a' r'|] g2];
    simpl in Hp; try discriminate; [|reflexivity].
  now inversion Hp; subst.
Qed.

Lemma blind_closure_n n : blind p -> blind (closure_n n p).
Proof.
  intros Hp. induction n as [|n IH]; intros s f1 f2; simpl;
    specialize (Hp s f1 f2);
    destruct (p s f1) as [[a r|] g1], (p s f2) as [[a' r'|] g2];
    simpl in Hp; try discriminate; try reflexivity;
    inversion Hp; subst; destruct (length r' <? length s); try reflexivity.
  specialize (IH r' g1 g2).
  destruct (closure_n n p r' g1) as [[l1 r1|] h1],
           (closure_n n p r' g2) as [[l2 r2|] h2];
    simpl in IH; try discriminate; [|reflexivity].
  now inversion IH; subst.
Qed.

Lemma blind_closure : blind p -> blind (closure p).
Proof. intros Hp s f1 f2. now apply blind_closure_n. Qed.
End Combinators.

Lemma strip_prefix_length t s r :
  strip_prefix t s = Some r -> length r + length t = length s.
Proof.
  revert s; induction t as [|a t IH]; intros [|b s]; simpl; try discriminate.
  - intros H; inversion H; subst; simpl; lia.
  - intros H; inversion H; subst; simpl; lia.
  - destruct (Ascii.eqb a b); [|discriminate]. intros H. apply IH in H. lia.
Qed.

Lemma token_length t s far a r far' :
  token t s far = (Ok a r, far') -> length r + length t <= length s.
Proof.
  unfold token. destruct (strip_prefix t (skip_ws s)) eqn:E; [|discriminate].
  intros H; inversion H; subst. apply strip_prefix_length in E.
  pose proof (skip_ws_length s). lia.
Qed.

Lemma shrinks_token t : shrinks (token t).
Proof. intros s far a r far' H. apply token_length in H. lia. Qed.

Lemma consumes_token t : t <> [] -> consumes (token t).
Proof.
  intros Ht s far a r far' H. apply token_length in H.
  destruct t; [congruence|]. simpl in H. lia.
Qed.

Lemma blind_token t : blind (token t).
Proof.
  intros s f1 f2. unfold token. now destruct (strip_prefix t (skip_ws s)).
Qed.

Lemma shrinks_check_eof : shrinks check_eof.
Proof.
  intros s far a r far'. unfold check_eof.
  destruct (skip_ws s); [|discriminate].
  intros H; inversion H; subst. simpl. lia.
Qed.

Lemma blind_check_eof : blind check_eof.
Proof. intros s f1 f2. unfold check_eof. now destruct (skip_ws s). Qed.

#[export] Hint Resolve shrinks_ret shrinks_raise shrinks_bind shrinks_rule
  shrinks_optional shrinks_closure shrinks_closure_n shrinks_token
  shrinks_check_eof consumes_shrinks consumes_rule consumes_bind_l
  blind_ret blind_raise blind_bind blind_rule blind_optional blind_closure
  blind_closure_n blind_token blind_check_eof : parsers.

(** ** The rules: suffixes and blindness *)

Module RuleFacts.
Import USFM.

Lemma shrinks_text : shrinks text.
Proof.
  apply shrinks_rule. intros s far a r far' H.
  pose proof (span_length is_text_char s).
  destruct (span is_text_char s); inversion H; subst. assumption.
Qed.

Lemma shrinks_ws : shrinks ws.
Proof.
  apply shrinks_rule. intros s far a r far' H.
  pose proof (span_length is_space s).
  destruct (span is_space s); inversion H; subst. assumption.
Qed.

Lemma consumes_tag_id : consumes tag_id.
Proof.
  apply consumes_rule. intros s far a r far' H.
  destruct s as [|c s]; [discriminate|].
  destruct (is_alpha c); [|discriminate].
  pose proof (span_length is_id_char s).
  destruct (span is_id_char s); inversion H; subst. simpl in *. lia.
Qed.

Lemma consumes_value : consumes value.
Proof.
  apply consumes_rule. intros s far a r far' H.
  destruct s as [|c s]; [discriminate|].
  destruct (Ascii.eqb c dquote); [|discriminate].
  pose proof (span_length is_value_char s).
  destruct (span is_value_char s) as [m [|c' r']]; [discriminate|].
  inversion H; subst. simpl in *. lia.
Qed.

Lemma blind_text : blind text.
Proof.
  apply blind_rule. intros s f1 f2. now destruct (span is_text_char s).
Qed.

Lemma blind_ws : blind ws.
Proof.
  apply blind_rule. intros s f1 f2. now destruct (span is_space s).
Qed.

Lemma blind_tag_id : blind tag_id.
Proof.
  apply blind_rule. intros [|c s] f1 f2; [reflexivity|].
  destruct (is_alpha c); [|reflexivity]. now destruct (span is_id_char s).
Qed.

Lemma blind_value : blind value.
Proof.
  apply blind_rule. intros [|c s] f1 f2; [reflexivity|].
  destruct (Ascii.eqb c dquote); [|reflexivity].
  now destruct (span is_value_char s) as [m [|c' r']].
Qed.

Lemma consumes_backslash : consumes backslash.
Proof. apply consumes_rule, consumes_token. discriminate. Qed.

Lemma consumes_pipe : consumes pipe.
Proof. apply consumes_rule, consumes_token. discriminate. Qed.

#[export] Hint Resolve shrinks_text shrinks_ws consumes_tag_id consumes_value
  blind_text blind_ws blind_tag_id blind_value consumes_backslash
  consumes_pipe : parsers.

Lemma consumes_key : consumes key.
Proof. unfold key; auto with parsers. Qed.

Lemma blind_backslash : blind backslash.
Proof. unfold backslash; auto with parsers. Qed.

Lemma blind_pipe : blind pipe.
Proof. unfold pipe; auto with parsers. Qed.

Lemma blind_key : blind key.
Proof. unfold key; auto with parsers. Qed.

#[export] Hint Resolve consumes_key blind_backslash blind_pipe blind_key : parsers.

Lemma consumes_pair : consumes pair.
Proof. unfold pair. auto 10 with parsers. Qed.

Lemma blind_pair : blind pair.
Proof. unfold pair. auto 10 with parsers. Qed.

#[export] Hint Resolve consumes_pair blind_pair : parsers.

Lemma shrinks_attributes : shrinks attributes.
Proof. unfold attributes. auto 10 with parsers. Qed.

Lemma blind_attributes : blind attributes.
Proof. unfold attributes. auto 10 with parsers. Qed.

Lemma consumes_tag_start : consumes tag_start.
Proof. unfold tag_start. auto 10 with parsers. Qed.

Lemma blind_tag_start : blind tag_start.
Proof. unfold tag_start. auto 10 with parsers. Qed.

Lemma consumes_tag_end : consumes tag_end.
Proof. unfold tag_end. auto 10 with parsers. Qed.

Lemma blind_tag_end : blind tag_end.
Proof. unfold tag_end. auto 10 with parsers. Qed.

#[export] Hint Resolve shrinks_attributes blind_attributes consumes_tag_start
  blind_tag_start consumes_tag_end blind_tag_end : parsers.

Lemma consumes_element_of inl : shrinks inl -> consumes (element_of inl).
Proof. intros H. unfold element_of. auto 12 with parsers. Qed.

Lemma blind_element_of inl : blind inl -> blind (element_of inl).
Proof. intros H. unfold element_of. auto 12 with parsers. Qed.

Lemma shrinks_inline_element_of el : shrinks el -> shrinks (inline_element_of el).
Proof. intros H. unfold inline_element_of. auto 12 with parsers. Qed.

Lemma consumes_inline_element_of el : shrinks el -> consumes (inline_element_of el).
Proof.
  intros H. unfold inline_element_of. apply consumes_rule.
  intros s far i r far'. unfold bind.
  destruct (el s far) as [[e r1|] f1] eqn:E1; [|discriminate].
  destruct (optional attributes r1 f1) as [[a r2|] f2] eqn:E2; [|discriminate].
  destruct (tag_end r2 f2) as [[c r3|] f3] eqn:E3; [|discriminate].
  intros Hr; inversion Hr; subst.
  apply H in E1. apply (shrinks_optional shrinks_attributes) in E2.
  apply consumes_tag_end in E3. lia.
Qed.

Lemma blind_inline_element_of el : blind el -> blind (inline_element_of el).
Proof. intros H. unfold inline_element_of. auto 12 with parsers. Qed.

Lemma consumes_element_n n : consumes (element_n n).
Proof.
  induction n as [|n IH]; simpl.
  - intros s far a r far' H; discriminate.
  - apply consumes_element_of, shrinks_inline_element_of, consumes_shrinks, IH.
Qed.

Lemma blind_element_n n : blind (element_n n).
Proof.
  induction n as [|n IH]; simpl.
  - now intros s f1 f2.
  - apply blind_element_of, blind_inline_element_of, IH.
Qed.

Lemma consumes_element : consumes element.
Proof. intros s far a r far' H. now apply consumes_element_n in H. Qed.

Lemma blind_element : blind element.
Proof. intros s f1 f2. apply blind_element_n. Qed.

#[export] Hint Resolve consumes_element_of blind_element_of
  shrinks_inline_element_of consumes_inline_element_of
  blind_inline_element_of consumes_element_n blind_element_n
  consumes_element blind_element : parsers.

Lemma blind_document : blind document.
Proof. unfold document; auto with parsers. Qed.

Lemma blind_start : blind start.
Proof. unfold start. pose proof blind_document. auto 10 with parsers. Qed.

End RuleFacts.

(** ** The nesting bound is never reached *)

Module Fuel.
Import USFM RuleFacts.

Lemma closure_n_ext {A} (p q : parser A) n s far :
  shrinks p ->
  (forall s' far', length s' <= length s -> p s' far' = q s' far') ->
  closure_n n p s far = closure_n n q s far.
Proof.
  intros Hs. revert s far. induction n as [|n IH]; intros s far H; simpl;
    rewrite <- (H s far) by lia; [reflexivity|].
  destruct (p s far) as [[a r|] far'] eqn:E; [|reflexivity].
  destruct (length r <? length s) eqn:Lt; [|reflexivity].
  apply Nat.ltb_lt in Lt. rewrite (IH r far'); [reflexivity|].
  intros s' f' Hl. apply H. lia.
Qed.

Lemma inline_element_of_ext el1 el2 s far :
  (forall s' far', length s' <= length s -> el1 s' far' = el2 s' far') ->
  inline_element_of el1 s far = inline_element_of el2 s far.
Proof.
  intros H. unfold inline_element_of, rule, bind.
  rewrite (H (skip_ws s) far) by apply skip_ws_length. reflexivity.
Qed.

Lemma bind_ext {A B} (p : parser A) (k k' : A -> parser B) s far :
  (forall a r f, p s far = (Ok a r, f) -> k a r f = k' a r f) ->
  bind p k s far = bind p k' s far.
Proof.
  intros H. unfold bind. destruct (p s far) as [[a r|] f]; [|reflexivity].
  now apply H.
Qed.

Lemma element_of_ext inl1 inl2 s far :
  shrinks inl1 ->
  (forall s' far', length s' < length s -> inl1 s' far' = inl2 s' far') ->
  element_of inl1 s far = element_of inl2 s far.
Proof.
  intros Hs H. unfold element_of. apply rule_ext.
  apply bind_ext. intros t r f1 E1.
  apply consumes_tag_start in E1. pose proof (skip_ws_length s) as Hw.
  apply bind_ext. intros lt r2 f2 E2.
  apply (shrinks_optional shrinks_text) in E2.
  unfold bind at 1 4. unfold closure.
  rewrite (@closure_n_ext _
    (i <- inl1 ;; tx <- optional text ;; ret (i, tx))
    (i <- inl2 ;; tx <- optional text ;; ret (i, tx))); [reflexivity| |].
  - auto 10 with parsers.
  - intros s' f' Hl. unfold bind at 1 3. rewrite (H s' f') by lia. reflexivity.
Qed.

(** With more fuel than characters, the amount of fuel does not matter. *)
Lemma element_n_stable n m s far :
  length s < n -> length s < m -> element_n n s far = element_n m s far.
Proof.
  revert m s far. induction n as [|n IH]; intros [|m] s far Hn Hm; try lia.
  simpl. apply element_of_ext.
  - auto with parsers.
  - intros s' f' Hl. apply inline_element_of_ext. intros s2 f2 Hl2.
    apply IH; lia.
Qed.

Lemma element_fuel n s far : length s < n -> element s far = element_n n s far.
Proof. intros H. unfold element. apply element_n_stable; lia. Qed.

End Fuel.

(** * The scenarios, settled *)

(** C1, as stated, fails: whatever is made of the empty texts, the value of
    the attribute is not the one character of the digit one. *)
Lemma C1_value_is_not_unquoted :
  ~ exists t1 t2 t3, parse scenario2 = inr (scenario2_tree (L "1") t1 t2 t3).
Proof.
  intros (t1 & t2 & t3 & H). vm_compute in H. discriminate H.
Qed.

(** C1, amended: scenario 2 parses to one top-level element [v] with leading
    text [1 ] and one child, the inline element that wraps [w] with leading
    text [hello ], carries the one attribute [x-occurences] and is closed by
    [w]; the value of the attribute is the quoted literal as written, its two
    quotes included, and the texts after [hello ], after the closing tag and
    at the end of [v] are empty matches. *)
Theorem C1_scenario2 :
  parse scenario2
  = inr (scenario2_tree (dquote :: L "1" ++ [dquote]) (Some []) (Some []) (Some [])).
Proof. vm_compute. reflexivity. Qed.

(** C3, as stated, fails: the error of scenario 4 is not at the end of the
    input, and it is not about a value. *)
Lemma C3_not_at_end_of_input :
  exists e, parse scenario4 = inl e
            /\ position e <> length scenario4
            /\ expecting e <> ExpRule "value".
Proof.
  eexists. split; [vm_compute; reflexivity|].
  split; vm_compute; discriminate.
Qed.

(** C3, amended: scenario 4 fails at offset 9, the pipe.  The top-level
    element [w] ends there with leading text [hello ]: attributes belong to
    inline elements only, so the pipe is left over, the rule [value] is never
    tried, and the failure reported is the backslash that a further element
    would need. *)
Theorem C3_scenario4 :
  parse scenario4 = inl (mkError 9 (ExpToken [bslash]))
  /\ fst (USFM.document scenario4 None)
     = Ok [mkElement (L "w") (Some (L "hello ")) [] (Some [])]
          (L "| x-lemma = " ++ [dquote]).
Proof. split; vm_compute; reflexivity. Qed.

(** C4, as stated, fails: the position reported for scenario 3 is not the
    offset 7 of the backslash of the left-over closing tag. *)
Lemma C4_not_at_backslash :
  exists e, parse scenario3 = inl e /\ position e <> 7.
Proof. eexists. split; [vm_compute; reflexivity|]. vm_compute; discriminate. Qed.

(** C4, amended: scenario 3 fails.  The element [zaln-s] parses with empty
    text and no children and ends at offset 7; a top-level element has no
    [tag_end], so the closing tag is left over and the end-of-input check
    rejects it there.  The position reported is that of the furthest
    failure, offset 8: the star, where a tag id was expected after the
    backslash. *)
Theorem C4_scenario3 :
  parse scenario3 = inl (mkError 8 (ExpRule "tag_id"))
  /\ fst (USFM.document scenario3 None)
     = Ok [mkElement (L "zaln-s") (Some []) [] (Some [])] (L "\*")
  /\ fst (check_eof (L "\*") None) = Fail
  /\ length scenario3 - length (L "\*") = 7.
Proof. repeat split; vm_compute; reflexivity. Qed.

(** ** Outcomes *)

Module Run.
Import USFM RuleFacts.

Lemma blind_run {A} (p : parser A) s far : blind p -> fst (p s far) = run p s.
Proof. intros H. apply H. Qed.

Lemma run_ret {A} (a : A) s : run (ret a) s = Ok a s.
Proof. reflexivity. Qed.

Lemma run_bind {A B} (p : parser A) (k : A -> parser B) s :
  (forall a, blind (k a)) ->
  run (bind p k) s
  = match run p s with Ok a r => run (k a) r | Fail => Fail end.
Proof.
  intros Hk. unfold run, bind.
  destruct (p s None) as [[a r|] far]; [|reflexivity]. apply Hk.
Qed.

Lemma run_rule {A} (p : parser A) s : run (rule p) s = run p (skip_ws s).
Proof. unfold run. apply rule_fst. Qed.

Lemma run_optional {A} (p : parser A) s :
  run (optional p) s
  = match run p s with Ok a r => Ok (Some a) r | Fail => Ok None s end.
Proof. unfold run, optional. now destruct (p s None) as [[a r|] far]. Qed.

Lemma run_closure_n {A} (p : parser A) n s :
  blind p ->
  run (closure_n n p) s
  = match run p s with
    | Ok a r =>
        if length r <? length s then
          match n with
          | 0 => Ok [] s
          | S n' =>
              match run (closure_n n' p) r with
              | Ok l r' => Ok (a :: l) r'
              | Fail => Fail
              end
          end
        else Ok [] s
    | Fail => Ok [] s
    end.
Proof.
  intros Hp. unfold run. destruct n as [|n]; simpl;
    destruct (p s None) as [[a r|] far]; simpl; try reflexivity;
    destruct (length r <? length s); try reflexivity.
  pose proof (blind_closure_n n Hp r far None) as E.
  destruct (closure_n n p r far) as [[l r'|] far'],
           (closure_n n p r None) as [[l0 r0|] far0];
    simpl in *; congruence.
Qed.

Lemma run_token t s :
  run (token t) s
  = match strip_prefix t (skip_ws s) with Some r => Ok t r | None => Fail end.
Proof. unfold run, token. now destruct (strip_prefix t (skip_ws s)). Qed.

Lemma run_check_eof s :
  run check_eof s = match skip_ws s with [] => Ok tt [] | _ => Fail end.
Proof. unfold run, check_eof. now destruct (skip_ws s). Qed.

Lemma run_text s :
  run text s = Ok (fst (span is_text_char (skip_ws s)))
                  (snd (span is_text_char (skip_ws s))).
Proof. unfold run, text, rule. now destruct (span is_text_char (skip_ws s)). Qed.

Lemma run_ws s : run ws s = Ok [] (skip_ws s).
Proof.
  unfold run, ws, rule. unfold skip_ws at 1. unfold skip_ws.
  now rewrite span_idem.
Qed.

Lemma run_tag_id s :
  run tag_id s
  = match skip_ws s with
    | c :: r => if is_alpha c
                then Ok (c :: fst (span is_id_char r)) (snd (span is_id_char r))
                else Fail
    | [] => Fail
    end.
Proof.
  unfold run, tag_id, rule. destruct (skip_ws s) as [|c r]; [reflexivity|].
  destruct (is_alpha c); [|reflexivity]. now destruct (span is_id_char r).
Qed.

Lemma run_value s :
  run value s
  = match skip_ws s with
    | c :: r =>
        if Ascii.eqb c dquote then
          match snd (span is_value_char r) with
          | _ :: r' => Ok (dquote :: fst (span is_value_char r) ++ [dquote]) r'
          | [] => Fail
          end
        else Fail
    | [] => Fail
    end.
Proof.
  unfold run, value, rule. destruct (skip_ws s) as [|c r]; [reflexivity|].
  destruct (Ascii.eqb c dquote); [|reflexivity].
  now destruct (span is_value_char r) as [m [|c' r']].
Qed.

Lemma run_backslash s :
  run backslash s
  = match skip_ws s with
    | c :: r => if Ascii.eqb c bslash then Ok [bslash] r else Fail
    | [] => Fail
    end.
Proof.
  unfold backslash. rewrite run_rule, run_token, skip_ws_idem.
  destruct (skip_ws s) as [|c r]; [reflexivity|].
  cbn [strip_prefix]. rewrite (Ascii.eqb_sym bslash c).
  now destruct (Ascii.eqb c bslash).
Qed.

Lemma run_pipe s :
  run pipe s
  = match skip_ws s with
    | c :: r => if Ascii.eqb c bar then Ok [bar] r else Fail
    | [] => Fail
    end.
Proof.
  unfold pipe. rewrite run_rule, run_token, skip_ws_idem.
  destruct (skip_ws s) as [|c r]; [reflexivity|].
  cbn [strip_prefix]. rewrite (Ascii.eqb_sym bar c).
  now destruct (Ascii.eqb c bar).
Qed.

Lemma run_key s : run key s = run tag_id s.
Proof. unfold key. rewrite run_rule, !run_tag_id. now rewrite skip_ws_idem. Qed.

Lemma run_tag_start s :
  run tag_start s
  = match run backslash s with
    | Ok _ r =>
        match run tag_id r with
        | Ok t r1 => Ok t (skip_ws r1)
        | Fail => Fail
        end
    | Fail => Fail
    end.
Proof.
  unfold tag_start. rewrite run_rule, run_bind by auto 10 with parsers.
  rewrite !run_backslash, skip_ws_idem.
  destruct (skip_ws s) as [|c r]; [reflexivity|].
  destruct (Ascii.eqb c bslash); [|reflexivity].
  rewrite run_bind by auto 10 with parsers.
  destruct (run tag_id r) as [t r1|]; [|reflexivity].
  rewrite run_bind by auto 10 with parsers. now rewrite run_ws.
Qed.

Lemma run_tag_end s :
  run tag_end s
  = match run backslash s with
    | Ok _ r =>
        match run tag_id r with
        | Ok t r1 =>
            match run (token [star]) r1 with
            | Ok _ r2 => Ok (Some t) r2
            | Fail => Fail
            end
        | Fail =>
            match run (token [star]) r with
            | Ok _ r2 => Ok None r2
            | Fail => Fail
            end
        end
    | Fail => Fail
    end.
Proof.
  unfold tag_end. rewrite run_rule, run_bind by auto 10 with parsers.
  rewrite !run_backslash, skip_ws_idem.
  destruct (skip_ws s) as [|c r]; [reflexivity|].
  destruct (Ascii.eqb c bslash); [|reflexivity].
  rewrite run_bind by auto 10 with parsers. rewrite run_optional.
  destruct (run tag_id r) as [t r1|];
    rewrite run_bind by auto 10 with parsers;
    now destruct (run (token [star]) _).
Qed.

Lemma run_pair s :
  run pair s
  = match run key s with
    | Ok k r =>
        match run (token (L "=")) r with
        | Ok _ r1 =>
            match run value r1 with
            | Ok v r2 => Ok (mkPair k (Some v)) r2
            | Fail => Ok (mkPair k None) r
            end
        | Fail => Ok (mkPair k None) r
        end
    | Fail => Fail
    end.
Proof.
  unfold pair. rewrite run_rule, run_bind by auto 10 with parsers.
  rewrite !run_key, !run_tag_id, skip_ws_idem.
  destruct (skip_ws s) as [|c r]; [reflexivity|].
  destruct (is_alpha c); [|reflexivity].
  rewrite run_bind by auto 10 with parsers. rewrite run_optional.
  rewrite run_bind by auto 10 with parsers.
  destruct (run (token (L "=")) _) as [e r1|]; [|reflexivity].
  now destruct (run value r1).
Qed.

(** A repetition never fails. *)
Lemma run_closure_n_ok {A} (p : parser A) n s :
  blind p -> exists l r, run (closure_n n p) s = Ok l r.
Proof.
  intros Hp. revert s. induction n as [|n IH]; intros s;
    rewrite run_closure_n by assumption;
    destruct (run p s) as [a r|]; eauto;
    destruct (length r <? length s); eauto.
  destruct (IH r) as (l & r' & ->). eauto.
Qed.

Lemma run_attributes s :
  run attributes s
  = match run pipe s with
    | Ok _ r =>
        match run (closure pair) r with
        | Ok l r' => Ok l r'
        | Fail => Ok [] (skip_ws s)
        end
    | Fail => Ok [] (skip_ws s)
    end.
Proof.
  unfold attributes. rewrite run_rule, run_bind by auto 10 with parsers.
  rewrite run_optional, run_bind by auto 10 with parsers.
  rewrite !run_pipe, skip_ws_idem.
  destruct (skip_ws s) as [|c r] eqn:E; [reflexivity|].
  destruct (Ascii.eqb c bar); [|reflexivity].
  now destruct (run (closure pair) r).
Qed.

Lemma run_attributes_ok s : exists l r, run attributes s = Ok l r.
Proof.
  rewrite run_attributes. destruct (run pipe s) as [x r|]; eauto.
  destruct (run (closure pair) r); eauto.
Qed.

Lemma run_inline_element_of el s :
  blind el ->
  run (inline_element_of el) s
  = match run el (skip_ws s) with
    | Ok e r1 =>
        match run attributes r1 with
        | Ok a r2 =>
            match run tag_end r2 with
            | Ok c r3 => Ok (mkInline e a c) r3
            | Fail => Fail
            end
        | Fail => Fail
        end
    | Fail => Fail
    end.
Proof.
  intros Hel. unfold inline_element_of.
  rewrite run_rule, run_bind by auto 10 with parsers.
  destruct (run el (skip_ws s)) as [e r1|]; [|reflexivity].
  rewrite run_bind by auto 10 with parsers. rewrite run_optional.
  destruct (run_attributes_ok r1) as (a & r2 & ->).
  rewrite run_bind by auto 10 with parsers.
  now destruct (run tag_end r2).
Qed.

Lemma blind_child inl : blind inl -> blind (child inl).
Proof. intros H. unfold child. auto 10 with parsers. Qed.

Lemma run_child inl s :
  run (child inl) s
  = match run inl s with
    | Ok i r => Ok (i, Some (fst (span is_text_char (skip_ws r))))
                   (snd (span is_text_char (skip_ws r)))
    | Fail => Fail
    end.
Proof.
  unfold child. rewrite run_bind by auto 10 with parsers.
  destruct (run inl s) as [i r|]; [|reflexivity].
  rewrite run_bind by auto 10 with parsers.
  now rewrite run_optional, run_text.
Qed.

Lemma run_element_of inl s :
  blind inl ->
  run (element_of inl) s
  = match run tag_start s with
    | Ok t r =>
        let r1 := snd (span is_text_char r) in
        match run (closure (child inl)) r1 with
        | Ok ch r2 =>
            Ok (mkElement t (Some (fst (span is_text_char r))) ch
                          (Some (fst (span is_text_char (skip_ws r2)))))
               (snd (span is_text_char (skip_ws r2)))
        | Fail => Fail
        end
    | Fail => Fail
    end.
Proof.
  intros Hinl. pose proof (blind_child Hinl) as Hc. unfold element_of.
  fold (child inl).
  rewrite run_rule, run_bind by auto 10 with parsers.
  replace (run tag_start (skip_ws s)) with (run tag_start s)
    by (rewrite !run_tag_start, !run_backslash; now rewrite skip_ws_idem).
  rewrite run_tag_start.
  destruct (run backslash s) as [b r0|]; [|reflexivity].
  destruct (run tag_id r0) as [t r|]; [|reflexivity].
  rewrite run_bind by auto 10 with parsers.
  rewrite run_optional, run_text, skip_ws_idem.
  rewrite run_bind by auto 10 with parsers. cbv zeta.
  destruct (run (closure (child inl)) _) as [ch r2|]; [|reflexivity].
  rewrite run_bind by auto 10 with parsers.
  now rewrite run_optional, run_text.
Qed.

End Run.

(** ** The entry point, by outcomes *)

Module Entry.
Import USFM RuleFacts Run.

Lemma run_document s : run document s = run (closure element) (skip_ws s).
Proof. apply run_rule. Qed.

Lemma run_document_ok s : exists d r, run document s = Ok d r.
Proof.
  rewrite run_document. apply run_closure_n_ok. auto with parsers.
Qed.

Lemma note_le rem e far :
  exists rem' e', note rem e far = Some (rem', e') /\ rem' <= rem.
Proof.
  unfold note. destruct far as [[rem0 e0]|]; [|eauto].
  destruct (rem <? rem0) eqn:E; [eauto|].
  apply Nat.ltb_ge in E. eauto.
Qed.

Lemma note_again rem e e' far :
  note rem e' (note rem e far) = note rem e far.
Proof.
  unfold note. destruct far as [[rem0 e0]|].
  - destruct (rem <? rem0) eqn:E.
    + now rewrite Nat.ltb_irrefl.
    + now rewrite E.
  - now rewrite Nat.ltb_irrefl.
Qed.

Lemma document_skip s far : document (skip_ws s) far = document s far.
Proof. unfold document, rule. now rewrite skip_ws_idem. Qed.

(** What [start] returns, from what [document] returns: the elements, or the
    failure of the end check, recorded as it leaves [start]. *)
Lemma start_by_document txt d r far :
  document txt None = (Ok d r, far) ->
  start txt None
  = match skip_ws r with
    | [] => (Ok d [], far)
    | c :: r' =>
        (Fail, Some (mkTrail (length (c :: r'), ExpEnd) false
                       (note (length (c :: r')) ExpEnd (furthest_of far))))
    end.
Proof.
  intros H. unfold start, rule, bind. rewrite document_skip, H.
  unfold check_eof. now destruct (skip_ws r).
Qed.

(** What [parse] returns, from what [document] returns: the error is the
    furthest failure recorded, the end check included. *)
Lemma parse_by_state txt d r far :
  document txt None = (Ok d r, far) ->
  parse txt
  = match skip_ws r with
    | [] => inr d
    | c :: r' =>
        inl (match note (length (c :: r')) ExpEnd (furthest_of far) with
             | Some (rem, e) => mkError (length txt - rem) e
             | None => mkError 0 ExpEnd
             end)
    end.
Proof.
  intros H. unfold parse. rewrite (start_by_document _ H).
  destruct (skip_ws r) as [|c r']; [reflexivity|].
  unfold report. now rewrite note_again.
Qed.

Lemma document_state txt d r :
  run document txt = Ok d r -> exists far, document txt None = (Ok d r, far).
Proof.
  unfold run. destruct (document txt None) as [o far]. simpl.
  intros ->. now exists far.
Qed.

(** What [parse] returns, from the outcome of [document]. *)
Lemma parse_by_document txt d r :
  run document txt = Ok d r ->
  (skip_ws r = [] /\ parse txt = inr d)
  \/ (skip_ws r <> []
      /\ exists e, parse txt = inl e
                   /\ length txt - length (skip_ws r) <= position e
                   /\ position e <= length txt).
Proof.
  intros H. destruct (document_state _ H) as [far Hd].
  rewrite (parse_by_state _ Hd). destruct (skip_ws r) as [|c r'] eqn:E.
  - now left.
  - right. split; [discriminate|].
    destruct (note_le (length (c :: r')) ExpEnd (furthest_of far))
      as (rem & e & -> & Hle).
    eexists. split; [reflexivity|]. simpl position. simpl in Hle. simpl. lia.
Qed.

Lemma closure_n_never_fails {A} (p : parser A) n s far far' :
  closure_n n p s far <> (Fail, far').
Proof.
  revert s far. induction n as [|n IH]; intros s far; simpl;
    destruct (p s far) as [[a r|] f]; try discriminate;
    destruct (length r <? length s); try discriminate.
  specialize (IH r f). destruct (closure_n n p r f) as [[l r'|] f'];
    [discriminate|].
  intros H. inversion H; subst. now apply IH.
Qed.

Lemma optional_never_fails {A} (p : parser A) s far far' :
  optional p s far <> (Fail, far').
Proof. unfold optional. destruct (p s far) as [[a r|] f]; discriminate. Qed.

Lemma ws_never_fails s far far' : ws s far <> (Fail, far').
Proof. unfold ws, rule. destruct (span is_space (skip_ws s)). discriminate. Qed.

(** *** Where the failure of an element is recorded *)

Lemma leave_settled n st : settled n st -> leave st = st.
Proof.
  intros (rem & e & rem' & e' & -> & Hle & _). cbn [leave note].
  destruct (rem <? rem') eqn:E; [apply Nat.ltb_lt in E; lia|reflexivity].
Qed.

Lemma settled_note n rem e far :
  rem <= n -> settled n (Some (mkTrail (rem, e) false (note rem e far))).
Proof.
  intros H. destruct (note_le rem e far) as (rem' & e' & Hn & Hle).
  rewrite Hn. exists rem, e, rem', e'. auto.
Qed.

Lemma backslash_fails s far far' :
  backslash s far = (Fail, far') -> settled (length (skip_ws s)) far'.
Proof.
  unfold backslash, rule, token. rewrite skip_ws_idem.
  destruct (strip_prefix [bslash] (skip_ws s)); [discriminate|].
  unfold raise. cbn [is_pattern leave]. intros H. inversion H.
  now apply settled_note.
Qed.

(** The failure of the pattern of [tag_id] leaves [tag_id] unrecorded. *)
Lemma tag_id_fails s far far' :
  tag_id s far = (Fail, far') ->
  exists e,
    far' = Some (mkTrail (length (skip_ws s), e) false (furthest_of far)).
Proof.
  unfold tag_id, rule, raise. destruct (skip_ws s) as [|c r].
  - cbn [is_pattern leave]. intros H. inversion H. eauto.
  - destruct (is_alpha c).
    + destruct (span is_id_char r). discriminate.
    + cbn [is_pattern leave]. intros H. inversion H. eauto.
Qed.

(** A [tag_start] that fails has recorded its failure, at the backslash that
    is missing or behind it. *)
Lemma tag_start_fails s far far' :
  tag_start s far = (Fail, far') -> settled (length (skip_ws s)) far'.
Proof.
  unfold tag_start, rule, bind.
  destruct (backslash (skip_ws s) far) as [[b r|] f1] eqn:Eb.
  - destruct (tag_id r f1) as [[t r2|] f2] eqn:Et.
    + destruct (ws r2 f2) as [[w r3|] f3] eqn:Ew; [discriminate|].
      now apply ws_never_fails in Ew.
    + destruct (tag_id_fails _ _ Et) as [e ->]. cbn [leave].
      intros H. inversion H. apply settled_note.
      pose proof (consumes_backslash _ _ Eb). pose proof (skip_ws_length r).
      lia.
  - intros H. inversion H; subst. apply backslash_fails in Eb.
    rewrite skip_ws_idem in Eb. now rewrite (leave_settled Eb).
Qed.

(** An element fails where its [tag_start] does. *)
Lemma element_of_fails inl s far far' :
  element_of inl s far = (Fail, far') -> settled (length (skip_ws s)) far'.
Proof.
  unfold element_of, rule, bind.
  destruct (tag_start (skip_ws s) far) as [[t r|] f] eqn:Et.
  - destruct (optional text r f) as [[lt r1|] f1] eqn:E1;
      [|now apply optional_never_fails in E1].
    match goal with
    | |- context [closure ?p r1 f1] =>
        destruct (closure p r1 f1) as [[ch r2|] f2] eqn:E2;
          [|now apply closure_n_never_fails in E2]
    end.
    destruct (optional text r2 f2) as [[ft r3|] f3] eqn:E3;
      [discriminate|now apply optional_never_fails in E3].
  - intros H. inversion H; subst. apply tag_start_fails in Et.
    rewrite skip_ws_idem in Et. now rewrite (leave_settled Et).
Qed.

Lemma element_fails s far far' :
  element s far = (Fail, far') -> settled (length (skip_ws s)) far'.
Proof. unfold element. cbn [element_n]. apply element_of_fails. Qed.

(** The repetition of [document] ends at an element that fails: where it
    ends, a failure is recorded. *)
Lemma closure_element_settled n s far d r far' :
  length s <= n -> closure_n n element s far = (Ok d r, far') ->
  settled (length (skip_ws r)) far'.
Proof.
  revert s far d. induction n as [|n IH]; intros s far d Hn; cbn [closure_n];
    destruct (element s far) as [[a r1|] f1] eqn:Ee.
  - pose proof (consumes_element _ _ Ee). lia.
  - intros H. inversion H; subst. now apply element_fails in Ee.
  - pose proof (consumes_element _ _ Ee) as Hl.
    pose proof Hl as Hb. apply Nat.ltb_lt in Hb. rewrite Hb.
    destruct (closure_n n element r1 f1) as [[l r'|] f'] eqn:Ec;
      [|discriminate].
    intros H. inversion H; subst. apply (IH r1 f1 l); [lia|exact Ec].
  - intros H. inversion H; subst. now apply element_fails in Ee.
Qed.

Lemma document_settled s far d r far' :
  document s far = (Ok d r, far') -> settled (length (skip_ws r)) far'.
Proof.
  intros H. unfold document in H. apply rule_ok in H. unfold closure in H.
  eapply closure_element_settled; [|exact H]. lia.
Qed.

(** What [parse] returns, exactly: the elements, or the furthest failure
    recorded while they were parsed, which the end check never exceeds. *)
Lemma parse_by_furthest txt d r far :
  document txt None = (Ok d r, far) ->
  (skip_ws r = [] /\ parse txt = inr d)
  \/ (skip_ws r <> []
      /\ exists rem x,
           furthest_of far = Some (rem, x)
           /\ rem <= length (skip_ws r)
           /\ parse txt = inl (mkError (length txt - rem) x)).
Proof.
  intros H. rewrite (parse_by_state _ H).
  pose proof H as Hs. apply document_settled in Hs.
  destruct Hs as (rem & e & rem' & e' & -> & Hle & Hn).
  destruct (skip_ws r) as [|c r'] eqn:E; [now left|].
  right. split; [discriminate|]. exists rem', e'. cbn [furthest_of recorded].
  split; [reflexivity|]. split; [lia|]. cbn [note].
  destruct (length (c :: r') <? rem') eqn:El;
    [apply Nat.ltb_lt in El; lia|reflexivity].
Qed.

Lemma parse_ok txt d :
  parse txt = inr d <-> exists r, run document txt = Ok d r /\ skip_ws r = [].
Proof.
  destruct (run_document_ok txt) as (d0 & r0 & H0).
  destruct (parse_by_document txt H0) as [[Hr Hp]|(Hr & e & Hp & _)];
    rewrite Hp; split.
  - intros H; inversion H; subst. eauto.
  - intros (r & H & _). congruence.
  - discriminate.
  - intros (r & H & Hs). congruence.
Qed.

End Entry.

(** ** Trailing input *)

(** C6, as stated, fails: after the element [\a x], which ends at offset 4,
    the text [\1] is no element, and the error is reported at offset 5. *)
Lemma C6_error_past_last_element :
  run USFM.document (L "\a x\1")
  = Ok [mkElement (L "a") (Some (L "x")) [] (Some [])] (L "\1")
  /\ length (L "\a x\1") - length (L "\1") = 4
  /\ exists e, parse (L "\a x\1") = inl e /\ position e <> 4.
Proof.
  split; [vm_compute; reflexivity|]. split; [reflexivity|].
  eexists. split; [vm_compute; reflexivity|]. vm_compute; discriminate.
Qed.

(** C6, amended: when [document] has parsed its elements, left [r] and the
    failures [far], either [r] is white space only and [parse] returns these
    elements, or [parse] fails, and its error is the furthest failure
    recorded in [far] while the elements were parsed: the end check adds
    none of its own.  That failure lies at or after the offset where the
    last element ended (white space skipped), so the error is at exactly
    that offset if and only if no failure was recorded further into the
    text.  No Document is returned while anything but white space is
    unread. *)
Theorem C6_trailing_input_rejected txt d r far :
  USFM.document txt None = (Ok d r, far) ->
  (skip_ws r = [] /\ parse txt = inr d)
  \/ (skip_ws r <> []
      /\ exists rem x,
           furthest_of far = Some (rem, x)
           /\ rem <= length (skip_ws r)
           /\ parse txt = inl (mkError (length txt - rem) x)
           /\ (length txt - rem = length txt - length (skip_ws r)
               <-> rem = length (skip_ws r))).
Proof.
  intros H.
  assert (Hr : length (skip_ws r) <= length txt).
  { pose proof (@shrinks_rule _ (closure USFM.element)
                  (@shrinks_closure _ USFM.element) _ _ _ _ _ H) as Hl.
    pose proof (skip_ws_length r). pose proof (skip_ws_length txt). lia. }
  destruct (@Entry.parse_by_furthest _ _ _ _ H)
    as [Hl|(Hn & rem & x & Hf & Hle & Hp)];
    [now left|].
  right. split; [exact Hn|]. exists rem, x.
  split; [exact Hf|]. split; [exact Hle|]. split; [exact Hp|]. lia.
Qed.

Lemma C6_witness :
  (skip_ws (L "\1") = [] /\ parse (L "\a x\1")
     = inr [mkElement (L "a") (Some (L "x")) [] (Some [])])
  \/ (skip_ws (L "\1") <> []
      /\ exists rem x,
           furthest_of
             (Some (mkTrail (1, ExpRule "tag_id") false
                      (Some (1, ExpRule "tag_id"))))
           = Some (rem, x)
           /\ rem <= length (skip_ws (L "\1"))
           /\ parse (L "\a x\1")
              = inl (mkError (length (L "\a x\1") - rem) x)
           /\ (length (L "\a x\1") - rem
               = length (L "\a x\1") - length (skip_ws (L "\1"))
               <-> rem = length (skip_ws (L "\1")))).
Proof.
  apply (@C6_trailing_input_rejected (L "\a x\1")). vm_compute. reflexivity.
Defined.

(** ** Text nodes *)

Module Texts.
Import USFM RuleFacts Run Entry.

Lemma span_app_all p w x :
  Forall (fun c => p c = true) w ->
  span p (w ++ x) = (w ++ fst (span p x), snd (span p x)).
Proof.
  induction 1 as [|c w Hc _ IH]; simpl.
  - now destruct (span p x).
  - now rewrite Hc, IH.
Qed.

(** The white space skipped on entry to [text] belongs to the run that the
    pattern of [text] would match. *)
Lemma span_text_skip_ws s :
  span is_text_char s
  = (fst (span is_space s) ++ fst (span is_text_char (skip_ws s)),
     snd (span is_text_char (skip_ws s))).
Proof.
  rewrite <- (span_app is_space s) at 1. apply span_app_all.
  eapply Forall_impl; [|apply span_fst_all]. apply space_is_text.
Qed.

Lemma closure_n_all {A} (p : parser A) (P : A -> Prop) n :
  blind p ->
  (forall s a r, run p s = Ok a r -> P a) ->
  forall s l r, run (closure_n n p) s = Ok l r -> Forall P l.
Proof.
  intros Hb Hp. induction n as [|n IH]; intros s l r;
    rewrite run_closure_n by assumption;
    destruct (run p s) as [a r1|] eqn:E;
    try (intros H; inversion H; subst; constructor);
    destruct (length r1 <? length s);
    try (intros H; inversion H; subst; constructor).
  destruct (run (closure_n n p) r1) as [l1 r2|] eqn:E2; [|discriminate].
  intros H; inversion H; subst. constructor; eauto.
Qed.

Lemma texts_of_children_flat tag lt ch ft :
  texts_of_element (mkElement tag lt ch ft)
  = opt_text lt
    ++ flat_map (fun c => texts_of_inline (fst c) ++ opt_text (snd c)) ch
    ++ opt_text ft.
Proof.
  simpl. do 2 f_equal. induction ch as [|[i tx] ch IH]; [reflexivity|].
  simpl. now rewrite IH, app_assoc.
Qed.

Lemma element_n_texts n :
  forall s e r, run (element_n n) s = Ok e r ->
                Forall text_ok (texts_of_element e).
Proof.
  induction n as [|n IH]; intros s e r; [discriminate|].
  simpl element_n. rewrite run_element_of by auto with parsers.
  destruct (run tag_start s) as [t r0|]; [|discriminate]. cbv zeta.
  destruct (run (closure _) _) as [ch r2|] eqn:Ec; [|discriminate].
  intros H; inversion H; subst; clear H.
  rewrite texts_of_children_flat. rewrite !Forall_app. repeat split.
  - repeat constructor. apply span_fst_all.
  - apply Forall_flat_map.
    eapply (@closure_n_all _ (child (inline_element_of (element_n n)))
              (fun c => Forall text_ok (texts_of_inline (fst c) ++ opt_text (snd c))));
      [auto using blind_child with parsers| |exact Ec].
    intros s1 [i tx] r1. rewrite run_child.
    rewrite run_inline_element_of by auto with parsers.
    destruct (run (element_n n) _) as [e1 r3|] eqn:E1; [|discriminate].
    destruct (run attributes r3) as [a r4|]; [|discriminate].
    destruct (run tag_end r4) as [c r5|]; [|discriminate].
    intros H; inversion H; subst; clear H. simpl.
    rewrite Forall_app. split; [eapply IH; eassumption|].
    repeat constructor. apply span_fst_all.
  - repeat constructor. apply span_fst_all.
Qed.

Lemma document_texts s d r :
  run document s = Ok d r -> Forall text_ok (texts_of_document d).
Proof.
  rewrite run_document. intros H. unfold texts_of_document.
  apply Forall_flat_map.
  eapply (@closure_n_all _ element); [auto with parsers| |exact H].
  intros s1 e r1 H1. eapply element_n_texts. exact H1.
Qed.

End Texts.

(** C9: every text node of a parsed Document is free of backslash and pipe;
    and the rule [text] succeeds on every input, consuming exactly the
    longest prefix free of the two (its node is that prefix, less the white
    space skipped on entry to the rule), and records no failure. *)
Theorem C9_text_nodes :
  (forall txt d, parse txt = inr d -> Forall text_ok (texts_of_document d))
  /\ (forall s far,
        exists m,
          USFM.text s far = (Ok m (snd (span is_text_char s)), far)
          /\ text_ok m
          /\ fst (span is_text_char s) = fst (span is_space s) ++ m
          /\ fst (span is_text_char s) ++ snd (span is_text_char s) = s).
Proof.
  split.
  - intros txt d H. apply Entry.parse_ok in H. destruct H as (r & H & _).
    eapply Texts.document_texts; eassumption.
  - intros s far. exists (fst (span is_text_char (skip_ws s))).
    unfold USFM.text, rule. rewrite (Texts.span_text_skip_ws s). simpl.
    destruct (span is_text_char (skip_ws s)) as [m r] eqn:E. simpl.
    repeat split.
    + replace m with (fst (span is_text_char (skip_ws s))) by now rewrite E.
      apply span_fst_all.
    + rewrite <- app_assoc.
      replace (m ++ r) with (skip_ws s)
        by (rewrite <- (span_app is_text_char (skip_ws s)); now rewrite E).
      apply span_app.
Qed.

(** ** A single tag and its text *)

Module Single.
Import USFM RuleFacts Run Entry.

Lemma skip_ws_space c s : is_space c = true -> skip_ws (c :: s) = skip_ws s.
Proof.
  intros H. unfold skip_ws. simpl. rewrite H. now destruct (span is_space s).
Qed.

Lemma run_element_n_nil n : run (element_n n) [] = Fail.
Proof.
  destruct n as [|n]; [reflexivity|]. simpl element_n.
  rewrite run_element_of by auto with parsers. now rewrite run_tag_start.
Qed.

Lemma run_element_nil : run element [] = Fail.
Proof. apply (run_element_n_nil 1). Qed.

(** Nothing is repeated at the end of the input. *)
Lemma run_closure_child_nil n k :
  run (closure_n k (child (inline_element_of (element_n n)))) [] = Ok [] [].
Proof.
  rewrite run_closure_n by auto using blind_child with parsers.
  rewrite run_child, run_inline_element_of by auto with parsers.
  simpl skip_ws. now rewrite run_element_n_nil.
Qed.

Lemma run_closure_element_nil k : run (closure_n k element) [] = Ok [] [].
Proof.
  rewrite run_closure_n by auto with parsers. now rewrite run_element_nil.
Qed.

Lemma is_tag_id_inv k :
  is_tag_id k = true ->
  exists c m, k = c :: m /\ is_alpha c = true
              /\ Forall (fun x => is_id_char x = true) m.
Proof.
  destruct k as [|c m]; [discriminate|]. simpl.
  intros H. apply andb_prop in H. destruct H as [Hc Hm].
  exists c, m. repeat split; [assumption|].
  apply Forall_forall. now apply forallb_forall.
Qed.

Lemma alpha_not_space c : is_alpha c = true -> is_space c = false.
Proof. intros H. apply id_char_not_space, alpha_is_id_char, H. Qed.

(** A tag id is read whole when what follows cannot continue it. *)
Lemma run_tag_id_exact k r :
  is_tag_id k = true ->
  match r with c :: _ => is_id_char c = false | [] => True end ->
  run tag_id (k ++ r) = Ok k r.
Proof.
  intros Hk Hr. destruct (@is_tag_id_inv k Hk) as (c & m & -> & Hc & Hm).
  rewrite run_tag_id. simpl app.
  rewrite skip_ws_cons by now apply alpha_not_space.
  now rewrite Hc, (@span_all is_id_char m r Hm Hr).
Qed.

(** The element of a text made of one tag, one space and a text. *)
Lemma run_closure {A} (p : parser A) s :
  run (closure p) s = run (closure_n (length s) p) s.
Proof. reflexivity. Qed.

Lemma run_element_unfold s :
  run element s = run (element_of (inline_element_of (element_n (length s)))) s.
Proof. reflexivity. Qed.

Lemma run_element_single k rest :
  is_tag_id k = true -> text_ok rest -> skip_ws rest = rest ->
  run element (bslash :: k ++ L " " ++ rest)
  = Ok (mkElement k (Some rest) [] (Some [])) [].
Proof.
  intros Hk Ht Hs. rewrite run_element_unfold.
  generalize (length (bslash :: k ++ L " " ++ rest)). intros n.
  rewrite run_element_of by auto with parsers.
  rewrite run_tag_start, run_backslash.
  rewrite skip_ws_cons by reflexivity.
  replace (Ascii.eqb bslash bslash) with true by reflexivity.
  rewrite run_tag_id_exact by (auto; reflexivity).
  simpl app. rewrite skip_ws_space by reflexivity. rewrite Hs.
  cbv zeta.
  assert (E : span is_text_char rest = (rest, [])).
  { rewrite <- (app_nil_r rest) at 1. now apply span_all. }
  rewrite E. simpl fst. simpl snd.
  now rewrite run_closure, run_closure_child_nil.
Qed.

Lemma parse_single k rest :
  is_tag_id k = true -> text_ok rest -> skip_ws rest = rest ->
  parse (bslash :: k ++ L " " ++ rest)
  = inr [mkElement k (Some rest) [] (Some [])].
Proof.
  intros Hk Ht Hs. apply parse_ok. exists []. split; [|reflexivity].
  rewrite run_document, skip_ws_cons by reflexivity.
  rewrite run_closure. simpl length.
  rewrite run_closure_n by auto with parsers.
  rewrite run_element_single by assumption. simpl.
  now rewrite run_closure_element_nil.
Qed.

End Single.

(** C5, as stated, fails: white space at the start of the rest is skipped,
    so the leading text of [\a] followed by two spaces and [x] is [x], not a
    space and [x]. *)
Lemma C5_leading_space_dropped :
  is_tag_id (L "a") = true /\ text_ok (L " x")
  /\ parse (bslash :: L "a" ++ L " " ++ L " x")
     = inr [mkElement (L "a") (Some (L "x")) [] (Some [])]
  /\ L "x" <> L " x".
Proof.
  split; [reflexivity|]. split; [repeat constructor|].
  split; [vm_compute; reflexivity|discriminate].
Qed.

(** C5, amended: for every tag id and every rest that has neither backslash
    nor pipe and does not begin with white space, the text made of a
    backslash, the id, one space and the rest parses to one top-level
    Element with that tag, leading text the rest, no children and an empty
    final text. *)
Theorem C5_single_tag k rest :
  is_tag_id k = true -> text_ok rest -> skip_ws rest = rest ->
  parse (bslash :: k ++ L " " ++ rest)
  = inr [mkElement k (Some rest) [] (Some [])].
Proof. apply Single.parse_single. Qed.

Lemma C5_witness :
  parse (bslash :: L "id" ++ L " " ++ L "GEN EN_ULT en_English_ltr")
  = inr [mkElement (L "id") (Some (L "GEN EN_ULT en_English_ltr")) [] (Some [])].
Proof.
  apply C5_single_tag.
  - reflexivity.
  - apply Forall_forall. apply forallb_forall. reflexivity.
  - reflexivity.
Defined.

(** ** Attributes *)

Module Attr.
Import USFM RuleFacts Run Entry Single.

Lemma skip_ws_spaces w x :
  Forall (fun c => is_space c = true) w -> skip_ws (w ++ x) = skip_ws x.
Proof.
  induction 1 as [|c w Hc _ IH]; [reflexivity|].
  simpl app. now rewrite skip_ws_space.
Qed.

Lemma space_not_id_char c : is_space c = true -> is_id_char c = false.
Proof.
  intros H. destruct (is_id_char c) eqn:E; [|reflexivity].
  apply id_char_not_space in E. congruence.
Qed.

(** What follows a key does not continue it when it is white space or an
    equals sign. *)
Lemma after_key w c x :
  Forall (fun c => is_space c = true) w -> is_id_char c = false ->
  match w ++ c :: x with c' :: _ => is_id_char c' = false | [] => True end.
Proof.
  intros [|c' w' Hc' _] Hc; simpl; [assumption|]. now apply space_not_id_char.
Qed.

(** A pair written with an empty quoted value. *)
Lemma run_pair_empty_value k w1 w2 r :
  is_tag_id k = true ->
  Forall (fun c => is_space c = true) w1 ->
  Forall (fun c => is_space c = true) w2 ->
  run pair (k ++ w1 ++ L "=" ++ w2 ++ [dquote; dquote] ++ r)
  = Ok (mkPair k (Some [dquote; dquote])) r.
Proof.
  intros Hk H1 H2. rewrite run_pair, run_key.
  rewrite run_tag_id_exact by (auto; apply after_key; auto).
  rewrite run_token, skip_ws_spaces by assumption.
  simpl app. rewrite skip_ws_cons by reflexivity.
  cbn [strip_prefix L list_ascii_of_string].
  replace (Ascii.eqb "="%char "="%char) with true by reflexivity.
  rewrite run_value, skip_ws_spaces by assumption.
  rewrite skip_ws_cons by reflexivity.
  replace (Ascii.eqb dquote dquote) with true by reflexivity.
  reflexivity.
Qed.

(** A pair written without an equals sign. *)
Lemma run_pair_no_value k r :
  is_tag_id k = true ->
  match r with c :: _ => is_id_char c = false | [] => True end ->
  strip_prefix (L "=") (skip_ws r) = None ->
  run pair (k ++ r) = Ok (mkPair k None) r.
Proof.
  intros Hk Hr He. rewrite run_pair, run_key.
  rewrite run_tag_id_exact by assumption.
  now rewrite run_token, He.
Qed.

(** The pair production when its value fails after the equals sign. *)
Lemma run_pair_backtracks s k r e r1 :
  run key s = Ok k r ->
  run (token (L "=")) r = Ok e r1 ->
  run value r1 = Fail ->
  run pair s = Ok (mkPair k None) r.
Proof. intros Hk He Hv. now rewrite run_pair, Hk, He, Hv. Qed.

(** Nothing that may follow a pair starts at an equals sign. *)
Lemma stuck_at_equals r e r1 :
  run (token (L "=")) r = Ok e r1 ->
  run pair r = Fail /\ run tag_end r = Fail.
Proof.
  rewrite run_token. destruct (skip_ws r) as [|c x] eqn:E; [discriminate|].
  cbn [strip_prefix L list_ascii_of_string].
  destruct (Ascii.eqb "="%char c) eqn:Ec; [|discriminate].
  apply Ascii.eqb_eq in Ec. subst c. intros _. split.
  - now rewrite run_pair, run_key, run_tag_id, E.
  - now rewrite run_tag_end, run_backslash, E.
Qed.

(** The repetition of [pair] ends where the next pair fails. *)
Lemma run_closure_pair_last n s p r :
  run pair s = Ok p r -> run pair r = Fail ->
  run (closure_n (S n) pair) s = Ok [p] r.
Proof.
  intros Hp Hr. rewrite run_closure_n by auto with parsers. rewrite Hp.
  assert (Hl : (length r <? length s) = true).
  { apply Nat.ltb_lt. unfold run in Hp.
    destruct (pair s None) as [o far] eqn:E. simpl in Hp. subst o.
    eapply consumes_pair; eassumption. }
  rewrite Hl. rewrite run_closure_n by auto with parsers. now rewrite Hr.
Qed.

End Attr.

(** C7, as stated, fails: the value of an attribute written with an empty
    quoted value is the two quotes as written, not the empty string. *)
Lemma C7_value_keeps_quotes :
  run USFM.pair (L "x-lemma = " ++ [dquote; dquote] ++ L "\w*")
  = Ok (mkPair (L "x-lemma") (Some [dquote; dquote])) (L "\w*")
  /\ Some [dquote; dquote] <> Some (@nil ascii).
Proof. split; [vm_compute; reflexivity|discriminate]. Qed.

(** C7, amended: an attribute written as a key, an equals sign and an empty
    quoted value, with any white space around the equals sign, parses to a
    Pair whose value is Some of the two quote characters as written; the same
    key with no equals sign after it parses to a Pair whose value is None;
    the two Pairs are distinct. *)
Theorem C7_empty_value k w1 w2 r r' :
  is_tag_id k = true ->
  Forall (fun c => is_space c = true) w1 ->
  Forall (fun c => is_space c = true) w2 ->
  match r' with c :: _ => is_id_char c = false | [] => True end ->
  strip_prefix (L "=") (skip_ws r') = None ->
  run USFM.pair (k ++ w1 ++ L "=" ++ w2 ++ [dquote; dquote] ++ r)
  = Ok (mkPair k (Some [dquote; dquote])) r
  /\ run USFM.pair (k ++ r') = Ok (mkPair k None) r'
  /\ mkPair k (Some [dquote; dquote]) <> mkPair k None.
Proof.
  intros Hk H1 H2 Hr He. split; [|split].
  - now apply Attr.run_pair_empty_value.
  - now apply Attr.run_pair_no_value.
  - discriminate.
Qed.

Lemma C7_witness :
  run USFM.pair (L "x-lemma" ++ L " " ++ L "=" ++ L " " ++ [dquote; dquote] ++ L "\w*")
  = Ok (mkPair (L "x-lemma") (Some [dquote; dquote])) (L "\w*")
  /\ run USFM.pair (L "x-lemma" ++ L "\w*") = Ok (mkPair (L "x-lemma") None) (L "\w*")
  /\ mkPair (L "x-lemma") (Some [dquote; dquote]) <> mkPair (L "x-lemma") None.
Proof.
  apply C7_empty_value.
  - reflexivity.
  - repeat constructor.
  - repeat constructor.
  - reflexivity.
  - reflexivity.
Defined.

Lemma C9_witness :
  Forall text_ok
    (texts_of_document
       (scenario2_tree (dquote :: L "1" ++ [dquote]) (Some []) (Some []) (Some []))).
Proof.
  apply (proj1 C9_text_nodes scenario2). vm_compute. reflexivity.
Defined.

(** ** The two recursive rules, without the nesting bound *)

Module Rec.
Import USFM RuleFacts Run Fuel.

(** [element] is its rule, over [inline_element] itself. *)
Lemma element_unfold s far :
  element s far = element_of inline_element s far.
Proof.
  unfold element at 1. simpl element_n. apply element_of_ext.
  - auto with parsers.
  - intros s1 f1 H1. unfold inline_element. apply inline_element_of_ext.
    intros s2 f2 H2. unfold element. apply element_n_stable; lia.
Qed.

Lemma run_element s :
  run element s
  = match run tag_start s with
    | Ok t r =>
        let r1 := snd (span is_text_char r) in
        match run (closure (child inline_element)) r1 with
        | Ok ch r2 =>
            Ok (mkElement t (Some (fst (span is_text_char r))) ch
                          (Some (fst (span is_text_char (skip_ws r2)))))
               (snd (span is_text_char (skip_ws r2)))
        | Fail => Fail
        end
    | Fail => Fail
    end.
Proof.
  unfold run at 1. rewrite element_unfold.
  apply (@run_element_of inline_element). unfold inline_element.
  auto with parsers.
Qed.

Lemma blind_inline_element : blind inline_element.
Proof. unfold inline_element; auto with parsers. Qed.

Lemma run_inline_element s :
  run inline_element s
  = match run element (skip_ws s) with
    | Ok e r1 =>
        match run attributes r1 with
        | Ok a r2 =>
            match run tag_end r2 with
            | Ok c r3 => Ok (mkInline e a c) r3
            | Fail => Fail
            end
        | Fail => Fail
        end
    | Fail => Fail
    end.
Proof. apply run_inline_element_of. auto with parsers. Qed.

Lemma consumes_inline_element : consumes inline_element.
Proof. unfold inline_element; auto with parsers. Qed.

Lemma consumes_child : consumes (child inline_element).
Proof.
  unfold child. apply consumes_bind_l; [apply consumes_inline_element|].
  auto 10 with parsers.
Qed.

Lemma blind_child_inline : blind (child inline_element).
Proof. apply blind_child, blind_inline_element. Qed.

(** Lengths, for outcomes. *)
Lemma run_consumes {A} (p : parser A) s a r :
  consumes p -> run p s = Ok a r -> length r < length s.
Proof.
  intros Hp H. unfold run in H. destruct (p s None) as [o far] eqn:E.
  simpl in H. subst o. eapply Hp; eassumption.
Qed.

Lemma run_shrinks {A} (p : parser A) s a r :
  shrinks p -> run p s = Ok a r -> length r <= length s.
Proof.
  intros Hp H. unfold run in H. destruct (p s None) as [o far] eqn:E.
  simpl in H. subst o. eapply Hp; eassumption.
Qed.

(** A repetition of a consuming parser, one iteration at a time. *)
Lemma run_closure_step {A} (p : parser A) s :
  blind p -> consumes p ->
  run (closure p) s
  = match run p s with
    | Ok a r =>
        match run (closure p) r with
        | Ok l r' => Ok (a :: l) r'
        | Fail => Fail
        end
    | Fail => Ok [] s
    end.
Proof.
  intros Hb Hc.
  assert (Hn : forall n m s, length s <= n -> length s <= m ->
             run (closure_n n p) s = run (closure_n m p) s).
  { induction n as [|n IH]; intros m s0 Hn Hm;
      rewrite (@run_closure_n _ p _ s0 Hb), (@run_closure_n _ p m s0 Hb);
      destruct (run p s0) as [a r|] eqn:E; try reflexivity;
      pose proof (run_consumes s0 Hc E) as Hl; [lia|].
    destruct m as [|m]; [lia|].
    destruct (length r <? length s0); [|reflexivity].
    rewrite (IH m r) by lia. reflexivity. }
  rewrite (@Single.run_closure _ p s).
  rewrite run_closure_n by assumption.
  destruct (run p s) as [a r|] eqn:E; [|reflexivity].
  pose proof (run_consumes s Hc E) as Hl.
  rewrite (@Single.run_closure _ p r).
  apply Nat.ltb_lt in Hl. rewrite Hl. apply Nat.ltb_lt in Hl.
  destruct (length s) as [|n] eqn:En; [lia|].
  rewrite (Hn n (length r) r) by lia. reflexivity.
Qed.

End Rec.

(** ** Positions *)

Module Reach.
Import USFM RuleFacts Run Rec.

Lemma iter_next_add k m u : iter_next (k + m) u = iter_next m (iter_next k u).
Proof. revert u. induction k as [|k IH]; intros u; simpl; auto. Qed.

Lemma reach_refl u : reach u u.
Proof. now exists 0. Qed.

Lemma reach_trans u v w : reach u v -> reach v w -> reach u w.
Proof.
  intros [k Hk] [m Hm]. exists (k + m). now rewrite iter_next_add, Hk.
Qed.

Lemma run_attributes_consumes z a r :
  run attributes (bar :: z) = Ok a r -> length r <= length z.
Proof.
  rewrite run_attributes, run_pipe. rewrite skip_ws_cons by reflexivity.
  replace (Ascii.eqb bar bar) with true by reflexivity.
  destruct (run (closure pair) z) as [l r'|] eqn:E.
  - intros H; inversion H; subst.
    eapply run_shrinks; [|exact E]. auto with parsers.
  - destruct (@run_closure_n_ok _ pair (length z) z) as (l & r' & H);
      [auto with parsers|].
    rewrite <- Single.run_closure in H. congruence.
Qed.

Lemma next_shorter c u : length (next (c :: u)) <= length u.
Proof.
  simpl. destruct (Ascii.eqb c bar) eqn:Ec; [|lia].
  apply Ascii.eqb_eq in Ec. subst c.
  destruct (run attributes (bar :: u)) as [a r|] eqn:E; [|lia].
  now apply run_attributes_consumes in E.
Qed.

Lemma next_le u : length (next u) <= length u.
Proof.
  destruct u as [|c u]; [simpl; lia|]. pose proof (next_shorter c u).
  change (length (c :: u)) with (S (length u)). lia.
Qed.

Lemma iter_next_le k u : length (iter_next k u) <= length u.
Proof.
  revert u. induction k as [|k IH]; intros u; simpl; [lia|].
  specialize (IH (next u)). pose proof (next_le u). lia.
Qed.

Lemma reach_length u v : reach u v -> length v <= length u.
Proof. intros [k <-]. apply iter_next_le. Qed.

Lemma iter_next_nil k : iter_next k [] = [].
Proof. induction k; simpl; auto. Qed.

Lemma iter_next_lt k u : u <> [] -> length (iter_next (S k) u) < length u.
Proof.
  intros Hu. destruct u as [|c u]; [congruence|].
  change (iter_next (S k) (c :: u)) with (iter_next k (next (c :: u))).
  pose proof (iter_next_le k (next (c :: u))) as H1.
  pose proof (next_shorter c u) as H2.
  change (length (c :: u)) with (S (length u)). lia.
Qed.

(** The positions that can be reached from one position are in a line. *)
Lemma reach_linear u v w :
  reach u v -> reach u w -> length w <= length v -> reach v w.
Proof.
  intros [k Hk] [m Hm] Hl. destruct (le_lt_dec k m) as [Hkm|Hkm].
  - exists (m - k). rewrite <- Hk, <- iter_next_add.
    now replace (k + (m - k)) with m by lia.
  - assert (Hv : iter_next (k - m) w = v).
    { rewrite <- Hm, <- iter_next_add. now replace (m + (k - m)) with k by lia. }
    destruct w as [|c w].
    + rewrite iter_next_nil in Hv. rewrite <- Hv. apply reach_refl.
    + destruct (k - m) as [|j] eqn:Ej; [lia|].
      assert (Hlt : length (iter_next (S j) (c :: w)) < length (c :: w))
        by (apply iter_next_lt; discriminate).
      rewrite Hv in Hlt. lia.
Qed.

(** A step over any character but the pipe. *)
Lemma reach_steps c r : barfree c -> reach (c ++ r) r.
Proof.
  induction 1 as [|x c Hx _ IH]; [apply reach_refl|].
  apply reach_trans with (c ++ r); [|exact IH].
  exists 1. simpl. now rewrite Hx.
Qed.

(** From a pipe, the one step is the attribute list. *)
Lemma reach_from_bar z v :
  reach (bar :: z) v -> v <> bar :: z ->
  exists a r, run attributes (bar :: z) = Ok a r /\ reach r v.
Proof.
  intros [k Hk] Hv. destruct k as [|k]; [simpl in Hk; congruence|].
  simpl in Hk. replace (Ascii.eqb bar bar) with true in Hk by reflexivity.
  destruct (run_attributes_ok (bar :: z)) as (a & r & E).
  rewrite E in Hk. exists a, r. split; [exact E|]. now exists k.
Qed.

End Reach.

(** ** What the rules read *)

Module Eats.
Import USFM RuleFacts Run Rec Reach.

Lemma eats_refl u : eats u u.
Proof. exists []. split; [reflexivity|constructor]. Qed.

Lemma eats_trans u v w : eats u v -> eats v w -> eats u w.
Proof.
  intros (c & -> & Hc) (d & -> & Hd). exists (c ++ d).
  split; [now rewrite app_assoc|]. now apply Forall_app.
Qed.

Lemma eats_reach u r : eats u r -> reach u r.
Proof. intros (c & -> & Hc). now apply reach_steps. Qed.

Lemma eats_length u r : eats u r -> length r <= length u.
Proof. intros (c & -> & _). rewrite length_app. lia. Qed.

Lemma eats_span p u :
  (forall c, p c = true -> Ascii.eqb c bar = false) ->
  eats u (snd (span p u)).
Proof.
  intros Hp. exists (fst (span p u)). split; [now rewrite span_app|].
  eapply Forall_impl; [|apply span_fst_all]. exact Hp.
Qed.

Lemma space_not_bar c : is_space c = true -> Ascii.eqb c bar = false.
Proof.
  intros H. apply space_is_text in H. unfold is_text_char in H.
  apply andb_prop in H. destruct H as [_ H]. now destruct (Ascii.eqb c bar).
Qed.

Lemma text_char_not_bar c : is_text_char c = true -> Ascii.eqb c bar = false.
Proof.
  unfold is_text_char. intros H. apply andb_prop in H. destruct H as [_ H].
  now destruct (Ascii.eqb c bar).
Qed.

Lemma id_char_not_bar c : is_id_char c = true -> Ascii.eqb c bar = false.
Proof. intros H. now apply text_char_not_bar, id_char_is_text. Qed.

Lemma eats_skip_ws u : eats u (skip_ws u).
Proof. apply eats_span, space_not_bar. Qed.

Lemma eats_cons c u : Ascii.eqb c bar = false -> eats (c :: u) u.
Proof. intros H. exists [c]. split; [reflexivity|]. now repeat constructor. Qed.

Lemma eats_text u m r : run text u = Ok m r -> eats u r.
Proof.
  rewrite run_text. intros H; inversion H; subst.
  eapply eats_trans; [apply eats_skip_ws|]. apply eats_span, text_char_not_bar.
Qed.

Lemma eats_tag_id u t r : run tag_id u = Ok t r -> eats u r.
Proof.
  rewrite run_tag_id. intros H.
  eapply eats_trans; [apply eats_skip_ws|].
  destruct (skip_ws u) as [|c x]; [discriminate|].
  destruct (is_alpha c) eqn:Ec; [|discriminate]. inversion H; subst.
  eapply eats_trans; [apply eats_cons|apply eats_span, id_char_not_bar].
  now apply id_char_not_bar, alpha_is_id_char.
Qed.

Lemma eats_backslash u t r : run backslash u = Ok t r -> eats u r.
Proof.
  rewrite run_backslash. intros H.
  eapply eats_trans; [apply eats_skip_ws|].
  destruct (skip_ws u) as [|c x]; [discriminate|].
  destruct (Ascii.eqb c bslash) eqn:Ec; [|discriminate]. inversion H; subst.
  apply Ascii.eqb_eq in Ec. subst c. now apply eats_cons.
Qed.

Lemma eats_star u t r : run (token [star]) u = Ok t r -> eats u r.
Proof.
  rewrite run_token. intros H.
  eapply eats_trans; [apply eats_skip_ws|].
  destruct (skip_ws u) as [|c x]; [discriminate|]. cbn [strip_prefix] in H.
  destruct (Ascii.eqb star c) eqn:Ec; [|discriminate]. inversion H; subst.
  apply Ascii.eqb_eq in Ec. subst c. now apply eats_cons.
Qed.

Lemma eats_tag_start u t r : run tag_start u = Ok t r -> eats u r.
Proof.
  rewrite run_tag_start.
  destruct (run backslash u) as [b r0|] eqn:E0; [|discriminate].
  destruct (run tag_id r0) as [t0 r1|] eqn:E1; [|discriminate].
  intros H; inversion H; subst.
  eapply eats_trans; [eapply eats_backslash; eassumption|].
  eapply eats_trans; [eapply eats_tag_id; eassumption|apply eats_skip_ws].
Qed.

Lemma eats_tag_end u c r : run tag_end u = Ok c r -> eats u r.
Proof.
  rewrite run_tag_end.
  destruct (run backslash u) as [b r0|] eqn:E0; [|discriminate].
  intros H.
  eapply eats_trans; [eapply eats_backslash; eassumption|].
  destruct (run tag_id r0) as [t0 r1|] eqn:E1.
  - destruct (run (token [star]) r1) as [x r2|] eqn:E2; [|discriminate].
    inversion H; subst.
    eapply eats_trans; [eapply eats_tag_id; eassumption|].
    eapply eats_star; eassumption.
  - destruct (run (token [star]) r0) as [x r2|] eqn:E2; [|discriminate].
    inversion H; subst. eapply eats_star; eassumption.
Qed.

Lemma run_attributes_skip u : run attributes u = run attributes (skip_ws u).
Proof. now rewrite !run_attributes, !run_pipe, skip_ws_idem. Qed.

Lemma reach_attributes u a r : run attributes u = Ok a r -> reach u r.
Proof.
  intros H. apply reach_trans with (skip_ws u);
    [apply eats_reach, eats_skip_ws|].
  rewrite run_attributes_skip in H.
  destruct (skip_ws u) as [|c x] eqn:E.
  - rewrite run_attributes, run_pipe in H. simpl in H.
    inversion H; subst. apply reach_refl.
  - destruct (Ascii.eqb c bar) eqn:Ec.
    + exists 1. simpl. now rewrite Ec, H.
    + assert (Hc : is_space c = false) by (eapply skip_ws_head; exact E).
      rewrite run_attributes, run_pipe, (@skip_ws_cons c x Hc), Ec in H.
      inversion H; subst. apply reach_refl.
Qed.

End Eats.

(** ** From where a rule starts to where it ends *)

Module Walk.
Import USFM RuleFacts Run Rec Reach Eats.

Lemma run_element_at_end : run element [] = Fail.
Proof. now rewrite run_element, run_tag_start, run_backslash. Qed.

Lemma run_inline_element_nil : run inline_element [] = Fail.
Proof.
  rewrite run_inline_element. change (skip_ws []) with (@nil ascii).
  now rewrite run_element_at_end.
Qed.

Lemma run_children_step s :
  run (closure (child inline_element)) s
  = match run inline_element s with
    | Ok i r =>
        match run (closure (child inline_element))
                  (snd (span is_text_char (skip_ws r))) with
        | Ok l r' => Ok ((i, Some (fst (span is_text_char (skip_ws r)))) :: l) r'
        | Fail => Fail
        end
    | Fail => Ok [] s
    end.
Proof.
  rewrite run_closure_step by (apply blind_child_inline || apply consumes_child).
  rewrite run_child. now destruct (run inline_element s).
Qed.

Lemma length_text_rest r : length (snd (span is_text_char (skip_ws r))) <= length r.
Proof.
  pose proof (span_length is_text_char (skip_ws r)).
  pose proof (skip_ws_length r). lia.
Qed.

Lemma eats_text_rest r : eats r (snd (span is_text_char (skip_ws r))).
Proof.
  eapply eats_trans; [apply eats_skip_ws|apply eats_span, text_char_not_bar].
Qed.

(** Every rule that succeeds ends at a position that can be reached from
    where it started. *)
Lemma reach_rec n :
  forall s, length s <= n ->
    (forall e r, run element s = Ok e r -> reach s r)
    /\ (forall i r, run inline_element s = Ok i r -> reach s r)
    /\ (forall l r, run (closure (child inline_element)) s = Ok l r -> reach s r).
Proof.
  induction n as [|n IH].
  - intros [|c s] Hl; [|simpl in Hl; lia]. repeat split.
    + intros e r. now rewrite run_element_at_end.
    + intros i r. now rewrite run_inline_element_nil.
    + intros l r. rewrite run_children_step, run_inline_element_nil.
      intros H; inversion H; subst. apply reach_refl.
  - assert (HE : forall s, length s <= S n ->
                 forall e r, run element s = Ok e r -> reach s r).
    { intros s Hl e r. rewrite run_element.
      destruct (run tag_start s) as [t r0|] eqn:E0; [|discriminate]. cbv zeta.
      pose proof (eats_tag_start s E0) as H0.
      pose proof (run_consumes s consumes_tag_start E0) as L0.
      pose proof (@eats_span is_text_char r0 text_char_not_bar) as H1.
      pose proof (eats_length H1) as L1.
      destruct (run (closure _) _) as [ch r2|] eqn:E2; [|discriminate].
      intros H; inversion H; subst.
      apply reach_trans with r0; [now apply eats_reach|].
      apply reach_trans with (snd (span is_text_char r0)); [now apply eats_reach|].
      apply reach_trans with r2; [|apply eats_reach, eats_text_rest].
      destruct (IH (snd (span is_text_char r0))) as (_ & _ & HC); [lia|].
      eapply HC; eassumption. }
    assert (HI : forall s, length s <= S n ->
                 forall i r, run inline_element s = Ok i r -> reach s r).
    { intros s Hl i r. rewrite run_inline_element.
      destruct (run element (skip_ws s)) as [e r1|] eqn:E1; [|discriminate].
      destruct (run attributes r1) as [a r2|] eqn:E2; [|discriminate].
      destruct (run tag_end r2) as [c r3|] eqn:E3; [|discriminate].
      intros H; inversion H; subst.
      apply reach_trans with (skip_ws s); [apply eats_reach, eats_skip_ws|].
      apply reach_trans with r1.
      { eapply HE; [|eassumption]. pose proof (skip_ws_length s). lia. }
      apply reach_trans with r2; [eapply reach_attributes; eassumption|].
      eapply eats_reach, eats_tag_end; eassumption. }
    intros s Hl. repeat split; [now apply HE|now apply HI|].
    intros l r. rewrite run_children_step.
    destruct (run inline_element s) as [i r1|] eqn:E1.
    + pose proof (run_consumes s consumes_inline_element E1) as L1.
      pose proof (length_text_rest r1) as L2.
      destruct (run (closure _) _) as [l1 r2|] eqn:E2; [|discriminate].
      intros H; inversion H; subst.
      apply reach_trans with r1; [eapply HI; eassumption|].
      apply reach_trans with (snd (span is_text_char (skip_ws r1)));
        [apply eats_reach, eats_text_rest|].
      destruct (IH (snd (span is_text_char (skip_ws r1)))) as (_ & _ & HC); [lia|].
      eapply HC; eassumption.
    + intros H; inversion H; subst. apply reach_refl.
Qed.

Lemma reach_element s e r : run element s = Ok e r -> reach s r.
Proof. apply (@reach_rec (length s) s (le_n _)). Qed.

Lemma reach_inline_element s i r : run inline_element s = Ok i r -> reach s r.
Proof. apply (@reach_rec (length s) s (le_n _)). Qed.

Lemma reach_children s l r :
  run (closure (child inline_element)) s = Ok l r -> reach s r.
Proof. apply (@reach_rec (length s) s (le_n _)). Qed.

End Walk.

(** ** Suffixes *)

Module Trim.
Import USFM RuleFacts Run Rec.

Lemma trims_ret {A} (a : A) : trims (ret a).
Proof. intros s far a' r far' H. inversion H; subst. now exists []. Qed.

Lemma trims_bind {A B} (p : parser A) (k : A -> parser B) :
  trims p -> (forall a, trims (k a)) -> trims (bind p k).
Proof.
  intros Hp Hk s far b r far'. unfold bind.
  destruct (p s far) as [[a r1|] far1] eqn:E; [|discriminate].
  intros H. apply Hp in E. apply Hk in H.
  destruct E as [c ->], H as [d ->]. exists (c ++ d). now rewrite app_assoc.
Qed.

Lemma trims_span p s : exists c, s = c ++ snd (span p s).
Proof. exists (fst (span p s)). now rewrite span_app. Qed.

Lemma trims_rule {A} (p : parser A) : trims p -> trims (rule p).
Proof.
  intros Hp s far a r far' H. apply rule_ok in H. apply Hp in H.
  destruct H as [d Hd]. destruct (trims_span is_space s) as [c Hc].
  fold (skip_ws s) in Hc. exists (c ++ d). rewrite <- app_assoc, <- Hd. exact Hc.
Qed.

Lemma trims_optional {A} (p : parser A) : trims p -> trims (optional p).
Proof.
  intros Hp s far a r far'. unfold optional.
  destruct (p s far) as [[a1 r1|] far1] eqn:E; intros H; inversion H; subst.
  - now apply Hp in E.
  - now exists [].
Qed.

Lemma trims_closure_n {A} (p : parser A) n : trims p -> trims (closure_n n p).
Proof.
  intros Hp. induction n as [|n IH]; intros s far l r far'; simpl;
    destruct (p s far) as [[a r1|] far1] eqn:E;
    try (intros H; inversion H; subst; now exists []);
    destruct (length r1 <? length s) eqn:L;
    try (intros H; inversion H; subst; now exists []).
  destruct (closure_n n p r1 far1) as [[l1 r2|] far2] eqn:E2; [|discriminate].
  intros H; inversion H; subst. apply IH in E2. apply Hp in E.
  destruct E as [c ->], E2 as [d ->]. exists (c ++ d). now rewrite app_assoc.
Qed.

Lemma trims_closure {A} (p : parser A) : trims p -> trims (closure p).
Proof. intros Hp s far l r far' H. now apply trims_closure_n in H. Qed.

Lemma strip_prefix_app t s r : strip_prefix t s = Some r -> s = t ++ r.
Proof.
  revert s; induction t as [|a t IH]; intros [|b s]; simpl; try discriminate.
  - intros H; now inversion H.
  - intros H; now inversion H.
  - destruct (Ascii.eqb a b) eqn:E; [|discriminate].
    apply Ascii.eqb_eq in E. subst b. intros H. apply IH in H. now subst.
Qed.

Lemma trims_token t : trims (token t).
Proof.
  intros s far a r far'. unfold token.
  destruct (strip_prefix t (skip_ws s)) as [r0|] eqn:E; [|discriminate].
  apply strip_prefix_app in E. intros H.
  assert (Hr : r0 = r) by (inversion H; reflexivity). rewrite Hr in E.
  destruct (trims_span is_space s) as [c Hc]. fold (skip_ws s) in Hc.
  exists (c ++ t). rewrite <- app_assoc, <- E. exact Hc.
Qed.

Lemma trims_tag_id : trims tag_id.
Proof.
  apply trims_rule. intros s far a r far' H.
  destruct s as [|c s]; [discriminate|].
  destruct (is_alpha c); [|discriminate].
  destruct (trims_span is_id_char s) as [d Hd].
  destruct (span is_id_char s) as [m r0]. simpl in Hd.
  assert (Hr : r0 = r) by (inversion H; reflexivity). rewrite Hr in Hd.
  exists (c :: d). simpl. now rewrite <- Hd.
Qed.

Lemma trims_value : trims value.
Proof.
  apply trims_rule. intros s far a r far' H.
  destruct s as [|c s]; [discriminate|].
  destruct (Ascii.eqb c dquote); [|discriminate].
  destruct (trims_span is_value_char s) as [d Hd].
  destruct (span is_value_char s) as [m [|c' r']]; [discriminate|].
  simpl in Hd.
  assert (Hr : r' = r) by (inversion H; reflexivity). rewrite Hr in Hd.
  exists (c :: d ++ [c']).
  simpl. rewrite <- app_assoc. simpl. now rewrite <- Hd.
Qed.

#[export] Hint Resolve trims_ret trims_bind trims_rule trims_optional
  trims_closure trims_token trims_tag_id trims_value : parsers.

Lemma trims_pair : trims pair.
Proof. unfold pair, key. auto 12 with parsers. Qed.

Lemma trims_attributes : trims attributes.
Proof. unfold attributes, pipe. pose proof trims_pair. auto 12 with parsers. Qed.

Lemma trims_element_n n : trims (element_n n).
Proof.
  induction n as [|n IH]; simpl.
  - intros s far a r far' H; discriminate.
  - unfold element_of, inline_element_of, tag_start, tag_end, backslash, text, ws.
    pose proof trims_attributes.
    assert (Ht : trims (rule (fun s far =>
              let (m, r) := span is_text_char s in (Ok m r, far)))).
    { apply trims_rule. intros s far a r far' H0.
      destruct (trims_span is_text_char s) as [c Hc].
      destruct (span is_text_char s); inversion H0; subst. now exists c. }
    assert (Hw : trims (rule (fun s far =>
              let (m, r) := span is_space s in (Ok m r, far)))).
    { apply trims_rule. intros s far a r far' H0.
      destruct (trims_span is_space s) as [c Hc].
      destruct (span is_space s); inversion H0; subst. now exists c. }
    auto 20 with parsers.
Qed.

Lemma trims_element : trims element.
Proof. intros s far a r far' H. now apply trims_element_n in H. Qed.

Lemma run_trims {A} (p : parser A) s a r :
  trims p -> run p s = Ok a r -> exists c, s = c ++ r.
Proof.
  intros Hp H. unfold run in H. destruct (p s None) as [o far] eqn:E.
  simpl in H. subst o. eapply Hp; eassumption.
Qed.

Lemma next_suffix u : exists c, u = c ++ next u.
Proof.
  destruct u as [|x u]; [now exists []|]. simpl.
  destruct (Ascii.eqb x bar); [|now exists [x]].
  destruct (run attributes (x :: u)) as [a r|] eqn:E; [|now exists [x]].
  eapply run_trims; [apply trims_attributes|exact E].
Qed.

Lemma reach_suffix u v : reach u v -> exists c, u = c ++ v.
Proof.
  intros [k <-]. revert u. induction k as [|k IH]; intros u; [now exists []|].
  simpl. destruct (IH (next u)) as [d Hd]. destruct (next_suffix u) as [c Hc].
  exists (c ++ d). rewrite <- app_assoc, <- Hd. exact Hc.
Qed.

End Trim.

(** ** Rules in front of a backslash or a pipe *)

Module Frame.
Import USFM RuleFacts Run Rec.

(** The two characters that end a text end every other run as well. *)
Lemma stop_char c :
  is_text_char c = false ->
  is_space c = false /\ is_alpha c = false /\ is_id_char c = false
  /\ Ascii.eqb c dquote = false /\ Ascii.eqb "="%char c = false
  /\ Ascii.eqb star c = false.
Proof.
  revert c.
  assert (H : forall c,
    implb (negb (is_text_char c))
          (negb (is_space c) && negb (is_alpha c) && negb (is_id_char c)
           && negb (Ascii.eqb c dquote) && negb (Ascii.eqb "="%char c)
           && negb (Ascii.eqb star c)) = true)
    by (apply forall_ascii; vm_compute; reflexivity).
  intros c Hc. specialize (H c). rewrite Hc in H. simpl in H.
  repeat (apply andb_prop in H; destruct H as [H ?]).
  repeat split; now apply negb_true_iff.
Qed.

Lemma span_stop p x c t :
  p c = false ->
  span p (x ++ c :: t) = (fst (span p x), snd (span p x) ++ c :: t).
Proof.
  intros Hc. induction x as [|a x IH]; simpl.
  - now rewrite Hc.
  - destruct (p a); [|reflexivity]. rewrite IH. now destruct (span p x).
Qed.

Section Stop.
Variables (h : ascii) (t : str).
Hypothesis stop_h : is_text_char h = false.

Lemma skip_ws_frame x : skip_ws (x ++ h :: t) = skip_ws x ++ h :: t.
Proof.
  unfold skip_ws. rewrite span_stop; [reflexivity|].
  now destruct (stop_char h stop_h).
Qed.

Lemma run_text_frame x : run text (x ++ h :: t) = lift (h :: t) (run text x).
Proof.
  rewrite !run_text, skip_ws_frame. simpl lift.
  now rewrite span_stop by assumption.
Qed.

Lemma text_rest_frame x :
  span is_text_char (skip_ws (x ++ h :: t))
  = (fst (span is_text_char (skip_ws x)),
     snd (span is_text_char (skip_ws x)) ++ h :: t).
Proof. rewrite skip_ws_frame. now apply span_stop. Qed.

Lemma run_tag_id_frame x :
  run tag_id (x ++ h :: t) = lift (h :: t) (run tag_id x).
Proof.
  destruct (stop_char h stop_h) as (_ & Ha & Hi & _).
  rewrite !run_tag_id, skip_ws_frame.
  destruct (skip_ws x) as [|c x1]; simpl.
  - now rewrite Ha.
  - destruct (is_alpha c); [|reflexivity]. now rewrite span_stop by assumption.
Qed.

Lemma run_token_frame c x :
  Ascii.eqb c h = false ->
  run (token [c]) (x ++ h :: t) = lift (h :: t) (run (token [c]) x).
Proof.
  intros Hc. rewrite !run_token, skip_ws_frame.
  destruct (skip_ws x) as [|c1 x1]; simpl.
  - now rewrite Hc.
  - now destruct (Ascii.eqb c c1).
Qed.

Lemma run_backslash_frame x :
  skip_ws x <> [] ->
  run backslash (x ++ h :: t) = lift (h :: t) (run backslash x).
Proof.
  intros Hx. rewrite !run_backslash, skip_ws_frame.
  destruct (skip_ws x) as [|c x1]; [congruence|]. simpl.
  now destruct (Ascii.eqb c bslash).
Qed.

Lemma run_tag_start_frame x :
  skip_ws x <> [] ->
  run tag_start (x ++ h :: t) = lift (h :: t) (run tag_start x).
Proof.
  intros Hx. rewrite !run_tag_start, run_backslash_frame by assumption.
  destruct (run backslash x) as [b r0|]; [|reflexivity]. cbv beta iota delta [lift].
  rewrite run_tag_id_frame.
  destruct (run tag_id r0) as [k r1|]; [|reflexivity]. cbv beta iota delta [lift].
  now rewrite skip_ws_frame.
Qed.

Lemma run_tag_end_frame x :
  skip_ws x <> [] ->
  run tag_end (x ++ h :: t) = lift (h :: t) (run tag_end x).
Proof.
  intros Hx. destruct (stop_char h stop_h) as (_ & _ & _ & _ & _ & Hs).
  rewrite !run_tag_end, run_backslash_frame by assumption.
  destruct (run backslash x) as [b r0|]; [|reflexivity]. cbv beta iota delta [lift].
  rewrite run_tag_id_frame.
  destruct (run tag_id r0) as [k r1|]; cbv beta iota delta [lift].
  - rewrite run_token_frame by assumption.
    now destruct (run (token [star]) r1).
  - rewrite run_token_frame by assumption.
    now destruct (run (token [star]) r0).
Qed.

End Stop.

Lemma run_tag_end_skip u : run tag_end u = run tag_end (skip_ws u).
Proof. now rewrite !run_tag_end, !run_backslash, skip_ws_idem. Qed.

Lemma run_inline_element_skip u :
  run inline_element u = run inline_element (skip_ws u).
Proof. now rewrite !run_inline_element, skip_ws_idem. Qed.

Lemma close_at_skip u : close_at u = close_at (skip_ws u).
Proof. unfold close_at. now rewrite <- Eats.run_attributes_skip. Qed.

End Frame.

(** ** Attribute lists in front of a backslash or a pipe *)

Module Locality.
Import USFM RuleFacts Run Rec Frame.

(** A run that ends inside [x] ends at the same place in [x ++ t]. *)
Lemma span_inside p x t c r :
  snd (span p x) = c :: r ->
  span p (x ++ t) = (fst (span p x), snd (span p x) ++ t).
Proof.
  induction x as [|a x IH]; simpl; [discriminate|].
  destruct (p a); [|reflexivity].
  destruct (span p x) as [m r0] eqn:E. simpl. intros H.
  rewrite IH by assumption. reflexivity.
Qed.

(** A run that takes all of [x] goes on in [t]. *)
Lemma span_through p x t :
  snd (span p x) = [] ->
  span p (x ++ t) = (x ++ fst (span p t), snd (span p t)).
Proof.
  induction x as [|a x IH]; simpl.
  - intros _. now destruct (span p t).
  - destruct (p a); [|discriminate].
    destruct (span p x) as [m r0] eqn:E. simpl. intros H.
    rewrite IH by assumption. reflexivity.
Qed.

Lemma skip_ws_inside x t : skip_ws x <> [] -> skip_ws (x ++ t) = skip_ws x ++ t.
Proof.
  unfold skip_ws. destruct (snd (span is_space x)) as [|c r] eqn:E; [congruence|].
  intros _. rewrite (span_inside is_space x t E). simpl. now rewrite E.
Qed.

(** A value read inside [x] is read in [x ++ t] as well. *)
Lemma run_value_inside x t v r0 :
  run value x = Ok v r0 -> run value (x ++ t) = Ok v (r0 ++ t).
Proof.
  rewrite !run_value. destruct (skip_ws x) as [|c x1] eqn:E; [discriminate|].
  rewrite skip_ws_inside by congruence. rewrite E. cbn [app].
  destruct (Ascii.eqb c dquote); [|discriminate].
  destruct (snd (span is_value_char x1)) as [|q x2] eqn:E2; [discriminate|].
  intros H. rewrite (span_inside is_value_char x1 t E2). simpl.
  rewrite E2. simpl. inversion H; subst. reflexivity.
Qed.

Section Boundary.
Variables (h : ascii) (tb tb' : str).
Hypothesis stop_h : is_text_char h = false.
Hypothesis quotes :
  snd (span is_value_char (h :: tb)) = [] ->
  snd (span is_value_char (h :: tb')) = [].

(** A value that ends before the boundary is read inside [x]. *)
Lemma run_value_before x v r :
  run value (x ++ h :: tb) = Ok v r -> length (h :: tb) <= length r ->
  exists r0, r = r0 ++ h :: tb /\ run value x = Ok v r0.
Proof.
  destruct (stop_char h stop_h) as (_ & _ & _ & Hq & _).
  rewrite !run_value, skip_ws_frame by assumption.
  destruct (skip_ws x) as [|c x1]; cbn [app].
  - now rewrite Hq.
  - destruct (Ascii.eqb c dquote); [|discriminate].
    destruct (snd (span is_value_char x1)) as [|q x2] eqn:E2.
    + rewrite (span_through is_value_char x1 (h :: tb) E2). cbn [fst snd].
      pose proof (span_length is_value_char (h :: tb)) as Hl.
      destruct (snd (span is_value_char (h :: tb))) as [|q r1]; [discriminate|].
      intros H; inversion H; subst. simpl in *. lia.
    + rewrite (span_inside is_value_char x1 (h :: tb) E2). cbn [fst snd].
      rewrite E2. cbn [app]. intros H _. inversion H; subst.
      exists x2. split; reflexivity.
Qed.

(** A value that fails on one side fails on the other. *)
Lemma run_value_fail x :
  run value (x ++ h :: tb) = Fail -> run value (x ++ h :: tb') = Fail.
Proof.
  destruct (stop_char h stop_h) as (_ & _ & _ & Hq & _).
  rewrite !run_value, !skip_ws_frame by assumption.
  destruct (skip_ws x) as [|c x1]; cbn [app].
  - now rewrite Hq.
  - destruct (Ascii.eqb c dquote); [|reflexivity].
    destruct (snd (span is_value_char x1)) as [|q x2] eqn:E2.
    + rewrite !(span_through is_value_char x1 _ E2). cbn [fst snd].
      destruct (snd (span is_value_char (h :: tb))) as [|q r1] eqn:E3;
        [|discriminate].
      now rewrite quotes.
    + rewrite !(span_inside is_value_char x1 _ E2). cbn [fst snd].
      rewrite E2. discriminate.
Qed.

End Boundary.
End Locality.

(** ** Attribute lists on two inputs *)

Module AttrTwin.
Import USFM RuleFacts Run Rec Frame Locality.

Section Boundary.
Variables (h : ascii) (tb tb' : str).
Hypothesis stop_h : is_text_char h = false.
Hypothesis quotes :
  snd (span is_value_char (h :: tb)) = [] ->
  snd (span is_value_char (h :: tb')) = [].

Lemma eq_not_stop : Ascii.eqb "="%char h = false.
Proof. now destruct (stop_char h stop_h) as (_ & _ & _ & _ & He & _). Qed.

(** One pair: it fails on both sides, or ends before the boundary on both
    sides with one value, or passes the boundary. *)
Lemma run_pair_twin x :
  match run pair (x ++ h :: tb) with
  | Fail => run pair (x ++ h :: tb') = Fail
  | Ok p r =>
      length (h :: tb) <= length r ->
      exists r0, r = r0 ++ h :: tb /\ run pair (x ++ h :: tb') = Ok p (r0 ++ h :: tb')
  end.
Proof.
  rewrite !run_pair, !run_key, !run_tag_id_frame by assumption.
  destruct (run tag_id x) as [k r1|]; cbv beta iota delta [lift]; [|reflexivity].
  change (L "=") with ["="%char].
  rewrite !run_token_frame by (assumption || apply eq_not_stop).
  destruct (run (token ["="%char]) r1) as [e r2|]; cbv beta iota delta [lift].
  - destruct (run value (r2 ++ h :: tb)) as [v r|] eqn:Ev.
    + intros Hl.
      destruct (@run_value_before h tb tb' stop_h quotes r2 v r Ev Hl) as (r0 & -> & H0).
      exists r0. split; [reflexivity|].
      now rewrite (@run_value_inside r2 (h :: tb') v r0 H0).
    + intros _. exists r1. split; [reflexivity|].
      now rewrite (@run_value_fail h tb tb' stop_h quotes r2 Ev).
  - intros _. exists r1. split; reflexivity.
Qed.

Lemma run_pairs_twin n :
  forall x l r, length x <= n ->
    run (closure pair) (x ++ h :: tb) = Ok l r ->
    length (h :: tb) <= length r ->
    exists r0, r = r0 ++ h :: tb
               /\ run (closure pair) (x ++ h :: tb') = Ok l (r0 ++ h :: tb').
Proof.
  induction n as [|n IH]; intros x l r Hn;
    rewrite !(@run_closure_step _ pair) by auto with parsers;
    pose proof (run_pair_twin x) as Hp;
    destruct (run pair (x ++ h :: tb)) as [p r1|] eqn:E1.
  - apply (@run_consumes _ pair) in E1; [|apply consumes_pair].
    destruct x; [|simpl in Hn; lia].
    destruct (run (closure pair) r1) as [l1 r2|] eqn:E2; [|discriminate].
    intros H Hl; inversion H; subst.
    apply (@run_shrinks _ (closure pair)) in E2; [|auto with parsers].
    simpl in *. lia.
  - rewrite Hp. intros H _; inversion H; subst. now exists x.
  - destruct (run (closure pair) r1) as [l1 r2|] eqn:E2; [|discriminate].
    intros H Hl; inversion H; subst; clear H.
    assert (Hl1 : length (h :: tb) <= length r1).
    { assert (length r <= length r1); [|lia].
      eapply run_shrinks; [|exact E2]. auto with parsers. }
    destruct (Hp Hl1) as (x1 & -> & Hp').
    apply (@run_consumes _ pair) in E1; [|apply consumes_pair].
    rewrite !length_app in E1.
    destruct (IH x1 l1 r) as (r0 & -> & H0); [lia|assumption|assumption|].
    exists r0. split; [reflexivity|]. now rewrite Hp', H0.
  - rewrite Hp. intros H _; inversion H; subst. now exists x.
Qed.

(** An attribute list that starts before the boundary and does not pass it
    is the same list on both sides. *)
Lemma run_attributes_twin x a r :
  skip_ws x <> [] ->
  run attributes (x ++ h :: tb) = Ok a r ->
  length (h :: tb) <= length r ->
  exists r0, r = r0 ++ h :: tb
             /\ run attributes (x ++ h :: tb') = Ok a (r0 ++ h :: tb').
Proof.
  intros Hx. rewrite !run_attributes, !run_pipe, !skip_ws_frame by assumption.
  destruct (skip_ws x) as [|c x1]; [congruence|]. cbn [app].
  destruct (Ascii.eqb c bar).
  - destruct (run (closure pair) (x1 ++ h :: tb)) as [l r1|] eqn:E.
    + intros H Hl; inversion H; subst.
      destruct (@run_pairs_twin (length x1) x1 a r (le_n _) E Hl) as (r0 & -> & H0).
      exists r0. split; [reflexivity|]. now rewrite H0.
    + destruct (@run_closure_n_ok _ pair (length (x1 ++ h :: tb)) (x1 ++ h :: tb))
        as (l & r' & H); [auto with parsers|].
      rewrite <- Single.run_closure in H. congruence.
  - intros H _; inversion H; subst. exists (c :: x1). split; reflexivity.
Qed.

End Boundary.
End AttrTwin.

(** ** The recursive rules on two inputs *)

Module Sim.
Import USFM RuleFacts Run Rec Reach Eats Walk Frame AttrTwin.

Lemma run_inline_element_close s :
  run inline_element s
  = match run element (skip_ws s) with
    | Ok e r1 =>
        match close_at r1 with
        | Ok ac r3 => Ok (mkInline e (fst ac) (snd ac)) r3
        | Fail => Fail
        end
    | Fail => Fail
    end.
Proof.
  rewrite run_inline_element. unfold close_at.
  destruct (run element (skip_ws s)) as [e r1|]; [|reflexivity].
  destruct (run attributes r1) as [a r2|]; [|reflexivity].
  now destruct (run tag_end r2).
Qed.

Lemma close_at_shrinks s ac r : close_at s = Ok ac r -> length r <= length s.
Proof.
  unfold close_at. destruct (run attributes s) as [a r1|] eqn:E1; [|discriminate].
  destruct (run tag_end r1) as [c r2|] eqn:E2; [|discriminate].
  intros H; inversion H; subst.
  apply (@run_shrinks _ attributes) in E1; [|auto with parsers].
  apply (@run_shrinks _ tag_end) in E2; [|auto with parsers]. lia.
Qed.

Section Boundary.
Variables (h : ascii) (tb tb' : str).
Hypothesis stop_h : is_text_char h = false.
Hypothesis quotes :
  snd (span is_value_char (h :: tb)) = [] ->
  snd (span is_value_char (h :: tb')) = [].
Hypothesis no_inline : run inline_element (h :: tb) = Fail.
Hypothesis no_inline' : run inline_element (h :: tb') = Fail.
Hypothesis tag_end_twin :
  twin (h :: tb) (h :: tb') (run tag_end (h :: tb)) (run tag_end (h :: tb')).
Hypothesis close_twin :
  twin (h :: tb) (h :: tb') (close_at (h :: tb)) (close_at (h :: tb')).

Lemma reach_before u x1 :
  reach u (h :: tb) -> reach u (x1 ++ h :: tb) -> reach (x1 ++ h :: tb) (h :: tb).
Proof.
  intros H1 H2. eapply reach_linear; [exact H2|exact H1|].
  rewrite length_app. lia.
Qed.

Lemma twin_close x :
  reach (x ++ h :: tb) (h :: tb) ->
  twin (h :: tb) (h :: tb') (close_at (x ++ h :: tb)) (close_at (x ++ h :: tb')).
Proof.
  intros Hr. rewrite (close_at_skip (x ++ h :: tb)), (close_at_skip (x ++ h :: tb')).
  rewrite !skip_ws_frame by assumption.
  assert (Hr1 : reach (skip_ws x ++ h :: tb) (h :: tb)).
  { apply reach_before with (x ++ h :: tb); [assumption|].
    rewrite <- skip_ws_frame by assumption. apply eats_reach, eats_skip_ws. }
  destruct (skip_ws x) as [|c x1] eqn:Ex; [exact close_twin|].
  assert (Hsk : skip_ws (c :: x1) <> []).
  { rewrite <- Ex, skip_ws_idem, Ex. discriminate. }
  unfold close_at.
  destruct (run_attributes_ok ((c :: x1) ++ h :: tb)) as (a & r & Ea).
  assert (Hl : length (h :: tb) <= length r).
  { destruct (Ascii.eqb c bar) eqn:Ec.
    - apply Ascii.eqb_eq in Ec. subst c.
      destruct (@reach_from_bar (x1 ++ h :: tb) (h :: tb) Hr1) as (a0 & r0 & E0 & H0).
      + intros Heq. apply (f_equal (@length ascii)) in Heq.
        simpl in Heq. rewrite length_app in Heq. simpl in Heq. lia.
      + cbn [app] in Ea. rewrite E0 in Ea. inversion Ea; subst.
        now apply reach_length.
    - rewrite run_attributes, run_pipe in Ea. cbn [app] in Ea.
      assert (Hc : is_space c = false) by (eapply skip_ws_head; exact Ex).
      rewrite (@skip_ws_cons c _ Hc), Ec in Ea. inversion Ea; subst.
      simpl. rewrite length_app. simpl. lia. }
  destruct (@run_attributes_twin h tb tb' stop_h quotes (c :: x1) a r Hsk Ea Hl)
    as (r0 & -> & Ea').
  rewrite Ea, Ea'.
  rewrite (run_tag_end_skip (r0 ++ h :: tb)), (run_tag_end_skip (r0 ++ h :: tb')).
  rewrite !skip_ws_frame by assumption.
  destruct (skip_ws r0) as [|c0 x0] eqn:E0.
  - cbn [app]. inversion tag_end_twin as [Hf Hf'|c1 x2 Hb Hb'|c1 c2 r2 L1 L2 Hb Hb'].
    + constructor.
    + apply (twin_before (h :: tb) (h :: tb') (a, c1) x2).
    + now apply twin_after.
  - assert (Hsk0 : skip_ws (c0 :: x0) <> []).
    { rewrite <- E0, skip_ws_idem, E0. discriminate. }
    rewrite !run_tag_end_frame by assumption.
    destruct (run tag_end (c0 :: x0)) as [c1 r3|]; cbv beta iota delta [lift].
    + apply (twin_before (h :: tb) (h :: tb') (a, c1) r3).
    + constructor.
Qed.

Local Abbreviation B := (h :: tb).
Local Abbreviation B' := (h :: tb').
Local Abbreviation children := (closure (child inline_element)).

Ltac split_twin H :=
  match type of H with
  | twin _ _ ?o ?o' =>
      let E := fresh "E" in
      let E' := fresh "E'" in
      let oo := fresh "o" in
      let oo' := fresh "o'" in
      remember o as oo eqn:E; remember o' as oo' eqn:E'; destruct H
  end.

Lemma twin_element_step n :
  (forall x, length x < n -> reach (x ++ B) B ->
             twin B B' (run children (x ++ B)) (run children (x ++ B'))) ->
  forall x, length x <= n -> skip_ws x <> [] -> reach (x ++ B) B ->
            twin B B' (run element (x ++ B)) (run element (x ++ B')).
Proof.
  intros IH x Hn Hx Hr. rewrite !run_element.
  pose proof (@eats_tag_start (x ++ B)) as Heat.
  rewrite !run_tag_start_frame in * by assumption.
  destruct (run tag_start x) as [t r0|] eqn:E0; cbv beta iota delta [lift] in *;
    [|constructor].
  specialize (Heat _ _ eq_refl). cbv zeta.
  rewrite !(span_stop is_text_char r0) by assumption. cbn [fst snd].
  set (r1 := snd (span is_text_char r0)).
  assert (L1 : length r1 < n).
  { apply (@run_consumes _ tag_start) in E0; [|auto with parsers].
    pose proof (span_length is_text_char r0). unfold r1. lia. }
  assert (Hr1 : reach (r1 ++ B) B).
  { apply reach_before with (x ++ B); [assumption|].
    apply reach_trans with (r0 ++ B); [now apply eats_reach|].
    apply eats_reach. unfold r1.
    replace (snd (span is_text_char r0) ++ B)
      with (snd (span is_text_char (r0 ++ B)))
      by now rewrite span_stop.
    apply eats_span, text_char_not_bar. }
  specialize (IH r1 L1 Hr1). split_twin IH.
  - constructor.
  - rewrite !text_rest_frame by assumption. cbn [fst snd].
    apply (twin_before B B').
  - pose proof (length_text_rest r). apply twin_after; lia.
Qed.

Lemma twin_inline_step n :
  (forall x, length x <= n -> skip_ws x <> [] -> reach (x ++ B) B ->
             twin B B' (run element (x ++ B)) (run element (x ++ B'))) ->
  forall x, length x <= n -> reach (x ++ B) B ->
            twin B B' (run inline_element (x ++ B)) (run inline_element (x ++ B')).
Proof.
  intros HE x Hn Hr.
  rewrite (run_inline_element_skip (x ++ B)), (run_inline_element_skip (x ++ B')).
  rewrite !skip_ws_frame by assumption.
  assert (Hr1 : reach (skip_ws x ++ B) B).
  { apply reach_before with (x ++ B); [assumption|].
    rewrite <- skip_ws_frame by assumption. apply eats_reach, eats_skip_ws. }
  destruct (skip_ws x) as [|c x1] eqn:Ex.
  - cbn [app]. rewrite no_inline, no_inline'. constructor.
  - assert (Hsk : skip_ws (c :: x1) <> []).
    { rewrite <- Ex, skip_ws_idem, Ex. discriminate. }
    assert (Hl : length (c :: x1) <= n).
    { rewrite <- Ex. pose proof (skip_ws_length x). lia. }
    rewrite !run_inline_element_close.
    rewrite !skip_ws_frame by assumption. rewrite <- Ex, skip_ws_idem, Ex.
    specialize (HE (c :: x1) Hl Hsk Hr1). split_twin HE.
    + constructor.
    + symmetry in E. apply reach_element in E.
      assert (Hr2 : reach (x0 ++ B) B) by (eapply reach_before; eassumption).
      pose proof (twin_close x0 Hr2) as Hc. split_twin Hc.
      * constructor.
      * apply (twin_before B B').
      * now apply twin_after.
    + destruct (close_at r) as [ac r3|] eqn:Ec; [|constructor].
      apply close_at_shrinks in Ec. apply twin_after; lia.
Qed.

Lemma twin_children_step n :
  (forall x, length x < n -> reach (x ++ B) B ->
             twin B B' (run children (x ++ B)) (run children (x ++ B'))) ->
  (forall x, length x <= n -> reach (x ++ B) B ->
             twin B B' (run inline_element (x ++ B)) (run inline_element (x ++ B'))) ->
  forall x, length x <= n -> reach (x ++ B) B ->
            twin B B' (run children (x ++ B)) (run children (x ++ B')).
Proof.
  intros IH HI x Hn Hr. rewrite !run_children_step.
  specialize (HI x Hn Hr). split_twin HI.
  - apply (twin_before B B' [] x).
  - symmetry in E.
    pose proof (reach_inline_element _ E) as Hre.
    apply (@run_consumes _ inline_element) in E; [|apply consumes_inline_element].
    rewrite !length_app in E.
    rewrite !text_rest_frame by assumption. cbn [fst snd].
    set (x2 := snd (span is_text_char (skip_ws x0))).
    assert (L1 : length x2 < n).
    { pose proof (length_text_rest x0). unfold x2. lia. }
    assert (Hr2 : reach (x2 ++ B) B).
    { apply reach_before with (x ++ B); [assumption|].
      apply reach_trans with (x0 ++ B); [assumption|].
      apply eats_reach. unfold x2.
      replace (snd (span is_text_char (skip_ws x0)) ++ B)
        with (snd (span is_text_char (skip_ws (x0 ++ B))))
        by now rewrite text_rest_frame.
      apply eats_text_rest. }
    specialize (IH x2 L1 Hr2). split_twin IH.
    + constructor.
    + apply (twin_before B B').
    + now apply twin_after.
  - destruct (run children (snd (span is_text_char (skip_ws r)))) as [l r3|] eqn:Ec;
      [|constructor].
    apply (@run_shrinks _ children) in Ec; [|auto using consumes_child with parsers].
    pose proof (length_text_rest r). apply twin_after; lia.
Qed.

(** The rules on two inputs that differ behind a common prefix. *)
Lemma twin_rec n :
  forall x, length x < n -> reach (x ++ B) B ->
    (skip_ws x <> [] -> twin B B' (run element (x ++ B)) (run element (x ++ B')))
    /\ twin B B' (run inline_element (x ++ B)) (run inline_element (x ++ B'))
    /\ twin B B' (run children (x ++ B)) (run children (x ++ B')).
Proof.
  induction n as [|n IH]; [intros x Hn; lia|].
  assert (HC : forall x, length x < n -> reach (x ++ B) B ->
               twin B B' (run children (x ++ B)) (run children (x ++ B')))
    by (intros x Hx Hr; now apply IH).
  pose proof (twin_element_step HC) as HE.
  pose proof (twin_inline_step HE) as HI.
  pose proof (twin_children_step HC HI) as HC'.
  intros x Hx Hr. assert (Hx' : length x <= n) by lia. repeat split; auto.
Qed.

End Boundary.
End Sim.

(** ** Where an element ends *)

Module Ends.
Import USFM RuleFacts Run Rec Walk Frame.

Local Abbreviation children := (closure (child inline_element)).

Lemma stopped_span s : stopped (snd (span is_text_char s)).
Proof.
  unfold stopped. destruct (snd (span is_text_char s)) as [|c r] eqn:E; [exact I|].
  eapply span_snd_head; exact E.
Qed.

Lemma stopped_skip_ws u : stopped u -> skip_ws u = u.
Proof.
  destruct u as [|c u]; [reflexivity|]. simpl. intros H.
  apply skip_ws_cons. now destruct (stop_char c H).
Qed.

Lemma stopped_text u : stopped u -> span is_text_char u = ([], u).
Proof. destruct u as [|c u]; [reflexivity|]. simpl. now intros ->. Qed.

Lemma stopped_rest u : stopped u -> snd (span is_text_char (skip_ws u)) = u.
Proof. intros H. now rewrite (stopped_skip_ws u H), (stopped_text u H). Qed.

Lemma run_children_ok u : exists l r, run children u = Ok l r.
Proof.
  rewrite Single.run_closure. apply run_closure_n_ok, blind_child_inline.
Qed.

(** Where the children of an element end, no inline element starts. *)
Lemma children_end n :
  forall u l r, length u <= n -> stopped u -> run children u = Ok l r ->
                stopped r /\ run inline_element r = Fail.
Proof.
  induction n as [|n IH]; intros u l r Hn Hu; rewrite run_children_step;
    destruct (run inline_element u) as [i r1|] eqn:E1;
    try (intros H; inversion H; subst; now split).
  - apply (@run_consumes _ inline_element) in E1; [|apply consumes_inline_element].
    lia.
  - apply (@run_consumes _ inline_element) in E1; [|apply consumes_inline_element].
    destruct (run children _) as [l1 r2|] eqn:E2; [|discriminate].
    intros H; inversion H; subst.
    eapply IH; [|apply stopped_span|exact E2].
    pose proof (length_text_rest r1). lia.
Qed.

(** Where an element ends, no inline element starts. *)
Lemma element_end s e r :
  run element s = Ok e r -> stopped r /\ run inline_element r = Fail.
Proof.
  rewrite run_element. destruct (run tag_start s) as [t r0|]; [|discriminate].
  cbv zeta. destruct (run children _) as [ch r2|] eqn:E2; [|discriminate].
  intros H; inversion H; subst.
  destruct (@children_end (length (snd (span is_text_char r0))) _ _ _
              (le_n _) (stopped_span r0) E2) as [Hs Hi].
  now rewrite (stopped_rest r2 Hs).
Qed.

End Ends.

(** ** The two closing tags *)

Module Closing.
Import USFM RuleFacts Run Rec Walk Frame Locality Ends.

Lemma run_inline_at_bar z : run inline_element (bar :: z) = Fail.
Proof.
  rewrite run_inline_element, skip_ws_cons by reflexivity.
  rewrite run_element, run_tag_start, run_backslash.
  now rewrite skip_ws_cons by reflexivity.
Qed.

Lemma run_tag_end_at_bar z : run tag_end (bar :: z) = Fail.
Proof.
  rewrite run_tag_end, run_backslash. now rewrite skip_ws_cons by reflexivity.
Qed.

Lemma run_attributes_at_backslash z :
  run attributes (bslash :: z) = Ok [] (bslash :: z).
Proof.
  rewrite run_attributes, run_pipe. now rewrite skip_ws_cons by reflexivity.
Qed.

Section Tag.
Variables (id post : str).
Hypothesis Hid : is_tag_id id = true.

Lemma closing_eq : closing id ++ post = bslash :: id ++ star :: post.
Proof. unfold closing. simpl. now rewrite <- app_assoc. Qed.

Lemma anonymous_eq : anonymous_closing ++ post = bslash :: star :: post.
Proof. reflexivity. Qed.

Lemma run_tag_end_closing : run tag_end (closing id ++ post) = Ok (Some id) post.
Proof.
  rewrite closing_eq, run_tag_end, run_backslash.
  rewrite skip_ws_cons by reflexivity.
  replace (Ascii.eqb bslash bslash) with true by reflexivity.
  rewrite Single.run_tag_id_exact by (auto; reflexivity).
  rewrite run_token, skip_ws_cons by reflexivity.
  cbn [strip_prefix]. now replace (Ascii.eqb star star) with true by reflexivity.
Qed.

Lemma run_tag_end_anonymous :
  run tag_end (anonymous_closing ++ post) = Ok None post.
Proof.
  rewrite anonymous_eq, run_tag_end, run_backslash.
  rewrite skip_ws_cons by reflexivity.
  replace (Ascii.eqb bslash bslash) with true by reflexivity.
  rewrite run_tag_id, skip_ws_cons by reflexivity.
  replace (is_alpha star) with false by reflexivity.
  rewrite run_token, skip_ws_cons by reflexivity.
  cbn [strip_prefix]. now replace (Ascii.eqb star star) with true by reflexivity.
Qed.

Lemma run_inline_anonymous :
  run inline_element (anonymous_closing ++ post) = Fail.
Proof.
  rewrite anonymous_eq, run_inline_element, skip_ws_cons by reflexivity.
  rewrite run_element, run_tag_start, run_backslash.
  rewrite skip_ws_cons by reflexivity.
  replace (Ascii.eqb bslash bslash) with true by reflexivity.
  rewrite run_tag_id, skip_ws_cons by reflexivity. reflexivity.
Qed.

Lemma id_has_no_quote : Forall (fun c => is_value_char c = true) id.
Proof.
  destruct (@Single.is_tag_id_inv id Hid) as (c & m & -> & Hc & Hm).
  assert (H : forall x, is_id_char x = true -> is_value_char x = true).
  { assert (H : forall x, implb (is_id_char x) (is_value_char x) = true)
      by (apply forall_ascii; vm_compute; reflexivity).
    intros x Hx. specialize (H x). now rewrite Hx in H. }
  constructor; [now apply H, alpha_is_id_char|].
  eapply Forall_impl; [|exact Hm]. exact H.
Qed.

Lemma span_value_closing :
  snd (span is_value_char (closing id ++ post)) = snd (span is_value_char post).
Proof.
  rewrite closing_eq. cbn [span].
  replace (is_value_char bslash) with true by reflexivity.
  rewrite (Texts.span_app_all is_value_char (star :: post) id_has_no_quote).
  cbn [fst snd span]. replace (is_value_char star) with true by reflexivity.
  now destruct (span is_value_char post).
Qed.

Lemma span_value_anonymous :
  snd (span is_value_char (anonymous_closing ++ post))
  = snd (span is_value_char post).
Proof.
  rewrite anonymous_eq. cbn [span].
  replace (is_value_char bslash) with true by reflexivity.
  replace (is_value_char star) with true by reflexivity.
  now destruct (span is_value_char post).
Qed.

(** No quote up to the end on one side, none on the other. *)
Lemma quotes_closing y :
  snd (span is_value_char (y ++ closing id ++ post)) = [] ->
  snd (span is_value_char (y ++ anonymous_closing ++ post)) = [].
Proof.
  destruct (snd (span is_value_char y)) as [|q r] eqn:E.
  - rewrite !(span_through is_value_char y _ E). cbn [snd].
    now rewrite span_value_closing, span_value_anonymous.
  - rewrite (span_inside is_value_char y _ E). cbn [snd]. rewrite E.
    discriminate.
Qed.

End Tag.
End Closing.

(** ** The inline element whose closing tag is replaced *)

Module Leaf.
Import USFM RuleFacts Run Rec Reach Eats Walk Frame Locality AttrTwin Ends Closing Trim.

Lemma spaces_prefix r :
  exists w, r = w ++ skip_ws r /\ skip_ws w = [].
Proof.
  exists (fst (span is_space r)). split.
  - unfold skip_ws. now rewrite span_app.
  - unfold skip_ws.
    rewrite <- (app_nil_r (fst (span is_space r))).
    rewrite (@span_all is_space (fst (span is_space r)) []); [reflexivity| |exact I].
    apply span_fst_all.
Qed.

Section Tag.
Variables (id post : str).
Hypothesis Hid : is_tag_id id = true.

Local Abbreviation T := (closing id ++ post).
Local Abbreviation T' := (anonymous_closing ++ post).

Lemma quotes_T :
  snd (span is_value_char (bslash :: id ++ star :: post)) = [] ->
  snd (span is_value_char (bslash :: star :: post)) = [].
Proof.
  rewrite <- (closing_eq id post), <- (anonymous_eq post).
  apply (@quotes_closing id post Hid []).
Qed.

Lemma length_T : length post < length T.
Proof. rewrite closing_eq, !length_cons, length_app. simpl. lia. Qed.

(** No attributes: the element ends at the closing tag itself. *)
Lemma bound_tag s e r1 :
  run element s = Ok e r1 -> skip_ws r1 = T ->
  bound id post bslash (id ++ star :: post) (star :: post)
  /\ close_at (bslash :: id ++ star :: post) = Ok ([], Some id) post.
Proof.
  intros He Hr. rewrite closing_eq in Hr.
  assert (Hc : close_at (bslash :: id ++ star :: post) = Ok ([], Some id) post).
  { unfold close_at. rewrite run_attributes_at_backslash.
    rewrite <- closing_eq. now rewrite run_tag_end_closing. }
  assert (Hc' : close_at (bslash :: star :: post) = Ok ([], None) post).
  { unfold close_at. rewrite run_attributes_at_backslash.
    rewrite <- anonymous_eq. now rewrite run_tag_end_anonymous. }
  split; [|exact Hc]. unfold bound.
  split; [reflexivity|]. split; [exact quotes_T|]. split.
  { destruct (element_end s He) as [_ Hi].
    now rewrite run_inline_element_skip, Hr in Hi. }
  split.
  { rewrite <- anonymous_eq. apply run_inline_anonymous. }
  split.
  { rewrite <- closing_eq, <- anonymous_eq.
    rewrite run_tag_end_closing, run_tag_end_anonymous by assumption.
    pose proof length_T. apply twin_after; [assumption|simpl; lia]. }
  split.
  { exists []. split; assumption. }
  exists []. split; [now rewrite closing_eq|reflexivity].
Qed.

(** Attributes: the element ends at their pipe. *)
Lemma bound_pipe z a r2 :
  run attributes (bar :: z) = Ok a r2 -> skip_ws r2 = T ->
  exists y0,
    z = y0 ++ T
    /\ bound id post bar (y0 ++ T) (y0 ++ T')
    /\ close_at (bar :: y0 ++ T) = Ok (a, Some id) post.
Proof.
  intros Ha Hr.
  remember (closing id ++ post) as T0 eqn:ET.
  assert (HT : T0 = bslash :: id ++ star :: post)
    by (rewrite ET; apply closing_eq).
  destruct (run_trims (bar :: z) trims_attributes Ha) as [c1 Hc1].
  destruct (spaces_prefix r2) as (w2 & Hw2 & Hsw2). rewrite Hr in Hw2.
  rewrite Hw2, app_assoc in Hc1.
  destruct (c1 ++ w2) as [|b y0] eqn:Ey.
  { rewrite HT in Hc1. discriminate Hc1. }
  cbn [app] in Hc1. injection Hc1 as Hb Hz. subst b. clear HT. subst T0.
  exists y0. split; [exact Hz|].
  assert (Hte : run tag_end r2 = Ok (Some id) post).
  { now rewrite run_tag_end_skip, Hr, run_tag_end_closing. }
  assert (Hc : close_at (bar :: y0 ++ T) = Ok (a, Some id) post).
  { unfold close_at. rewrite <- Hz, Ha, Hte. reflexivity. }
  assert (Hl : length (bslash :: id ++ star :: post) <= length r2).
  { rewrite Hw2, length_app, closing_eq. lia. }
  rewrite Hz, closing_eq in Ha.
  destruct (@run_attributes_twin bslash (id ++ star :: post) (star :: post)
              eq_refl quotes_T (bar :: y0) a r2 (ltac:(discriminate)) Ha Hl)
    as (r0 & Hr0 & Ha').
  assert (Hs0 : skip_ws r0 = []).
  { rewrite Hr0, skip_ws_frame, closing_eq in Hr by reflexivity.
    apply (app_inv_tail (bslash :: id ++ star :: post) (skip_ws r0) []).
    exact Hr. }
  assert (Hc' : close_at (bar :: y0 ++ T') = Ok (a, None) post).
  { unfold close_at. rewrite anonymous_eq. cbn [app] in Ha'. rewrite Ha'.
    rewrite run_tag_end_skip, skip_ws_frame, Hs0 by reflexivity.
    cbn [app]. rewrite <- anonymous_eq. now rewrite run_tag_end_anonymous. }
  split; [|exact Hc]. unfold bound.
  split; [reflexivity|].
  split; [apply (@quotes_closing id post Hid (bar :: y0))|].
  split; [apply run_inline_at_bar|].
  split; [apply run_inline_at_bar|].
  split; [rewrite !run_tag_end_at_bar; constructor|].
  split; [exists a; split; assumption|].
  exists (bar :: y0). split; reflexivity.
Qed.

End Tag.
End Leaf.

(** ** Along the path to the replaced closing tag *)

Module Spine.
Import USFM RuleFacts Run Rec Reach Eats Walk Frame Locality AttrTwin Ends
       Closing Trim Sim Leaf.

Local Abbreviation children := (closure (child inline_element)).

Lemma run_tag_start_skip u : run tag_start u = run tag_start (skip_ws u).
Proof. now rewrite !run_tag_start, !run_backslash, skip_ws_idem. Qed.

Lemma run_element_skip u : run element u = run element (skip_ws u).
Proof. now rewrite !run_element, <- run_tag_start_skip. Qed.

Section Tag.
Variables (id post : str).
Hypothesis Hid : is_tag_id id = true.

Local Abbreviation T := (closing id ++ post).
Local Abbreviation T' := (anonymous_closing ++ post).

Section Bound.
Variables (h : ascii) (tb tb' : str).
Hypothesis Hb : bound id post h tb tb'.

Local Abbreviation B := (h :: tb).
Local Abbreviation B' := (h :: tb').

Lemma bound_stop : is_text_char h = false.
Proof. apply Hb. Qed.

Lemma bound_lengths : length post < length B /\ length post < length B'.
Proof.
  destruct Hb as (_ & _ & _ & _ & _ & _ & y & -> & ->).
  unfold closing, anonymous_closing. rewrite !length_app. simpl.
  rewrite !length_app. simpl. lia.
Qed.

Lemma bound_close_twin : twin B B' (close_at B) (close_at B').
Proof.
  destruct bound_lengths as [L1 L2].
  destruct Hb as (_ & _ & _ & _ & _ & (a & -> & ->) & _).
  now apply twin_after.
Qed.

(** The rules on both inputs, before the position where they differ. *)
Lemma twin_of_bound x :
  reach (x ++ B) B ->
  (skip_ws x <> [] -> twin B B' (run element (x ++ B)) (run element (x ++ B')))
  /\ twin B B' (run inline_element (x ++ B)) (run inline_element (x ++ B'))
  /\ twin B B' (run children (x ++ B)) (run children (x ++ B')).
Proof.
  pose proof bound_close_twin as Hc.
  destruct Hb as (H1 & H2 & H3 & H4 & H5 & _).
  apply (@twin_rec h tb tb' H1 H2 H3 H4 H5 Hc (S (length x)) x). lia.
Qed.

(** A rule that stops before that position on one input stops there on
    the other, with the same value. *)
Lemma twin_stays {A} (a : A) r (o' : outcome A) :
  twin B B' (Ok a r) o' -> length B <= length r ->
  exists x, r = x ++ B /\ o' = Ok a (x ++ B').
Proof.
  intros H Hl. remember (Ok a r) as o eqn:E. destruct H.
  - discriminate.
  - inversion E; subst. eauto.
  - inversion E; subst. lia.
Qed.

Lemma skip_ws_at x x1 : skip_ws (x ++ B) = x1 ++ B -> skip_ws x = x1.
Proof.
  rewrite skip_ws_frame by apply bound_stop. apply app_inv_tail.
Qed.

Lemma length_at x : length B <= length (x ++ B).
Proof. rewrite length_app. lia. Qed.

End Bound.

Local Abbreviation spine R f s := (on_path id post R f s).

Lemma spine_element_step n :
  (forall s, length s < n -> children_close T s ->
             spine (children_reclosed id) children s) ->
  forall s, length s <= n -> element_closes T s ->
            spine (element_reclosed id) element s.
Proof.
  intros IH s Hn Hs. inversion Hs as [s0 t r0 E0 Hc Es]. subst s0.
  pose proof (run_consumes s consumes_tag_start E0) as L0.
  pose proof (span_length is_text_char r0) as L1.
  destruct (IH (snd (span is_text_char r0)) ltac:(lia) Hc)
    as (h & tb & tb' & Hb & Hr & Hx).
  destruct Hx as (x1 & l & l' & r & E1 & Hl & Hl' & HR & Lr).
  exists h, tb, tb'. split; [exact Hb|].
  pose proof (bound_stop Hb) as Hh.
  assert (Hrs : reach s (h :: tb)).
  { apply reach_trans with r0; [eapply eats_reach, eats_tag_start; eassumption|].
    apply reach_trans with (snd (span is_text_char r0)); [|exact Hr].
    apply eats_reach, eats_span, text_char_not_bar. }
  split; [exact Hrs|].
  destruct (Trim.reach_suffix Hrs) as [x Ex].
  assert (Hsk : skip_ws x <> []).
  { intros Hsk. rewrite run_tag_start_skip, Ex, skip_ws_frame, Hsk in E0 by assumption.
    cbn [app] in E0. apply (@run_consumes _ tag_start) in E0; [|auto with parsers].
    rewrite E1 in L1. pose proof (length_at h tb x1). lia. }
  rewrite Ex, run_tag_start_frame in E0 by assumption.
  destruct (run tag_start x) as [t0 r0x|] eqn:E0x; [|discriminate].
  cbv beta iota delta [lift] in E0. inversion E0; subst t0 r0. clear E0.
  rewrite span_stop in E1 by assumption. cbn [snd] in E1.
  apply app_inv_tail in E1.
  exists x, (mkElement t (Some (fst (span is_text_char r0x))) l
                      (Some (fst (span is_text_char (skip_ws r))))),
         (mkElement t (Some (fst (span is_text_char r0x))) l'
                      (Some (fst (span is_text_char (skip_ws r))))),
         (snd (span is_text_char (skip_ws r))).
  split; [exact Ex|].
  rewrite !run_element, !run_tag_start_frame, E0x by assumption.
  cbv beta iota zeta delta [lift].
  rewrite !(span_stop is_text_char r0x) by assumption. cbn [fst snd].
  rewrite E1, Hl, Hl'.
  split; [reflexivity|]. split; [reflexivity|].
  split; [now constructor|].
  pose proof (length_text_rest r). lia.
Qed.

(** The position where the two inputs differ, from the inline element whose
    closing tag is replaced. *)
Lemma bound_of_leaf s e r1 a r2 :
  run element s = Ok e r1 ->
  run attributes r1 = Ok a r2 ->
  skip_ws r2 = T ->
  exists h tb tb',
    bound id post h tb tb' /\ skip_ws r1 = h :: tb
    /\ close_at (h :: tb) = Ok (a, Some id) post
    /\ close_at (h :: tb') = Ok (a, None) post.
Proof.
  intros E1 E2 E4. rewrite run_attributes_skip in E2.
  assert (Hbd : exists h tb tb',
             bound id post h tb tb' /\ skip_ws r1 = h :: tb
             /\ close_at (h :: tb) = Ok (a, Some id) post).
  { destruct (skip_ws r1) as [|c0 z] eqn:Er1.
    - rewrite run_attributes, run_pipe in E2.
      change (skip_ws []) with (@nil ascii) in E2. inversion E2; subst r2.
      change (skip_ws []) with (@nil ascii) in E4. rewrite closing_eq in E4.
      discriminate E4.
    - destruct (Ascii.eqb c0 bar) eqn:Ec.
      + apply Ascii.eqb_eq in Ec. subst c0.
        destruct (bound_pipe Hid z E2 E4) as (y0 & Hz & Hb & Hc).
        exists bar, (y0 ++ T), (y0 ++ T'). subst z. auto.
      + assert (Hc0 : is_space c0 = false) by (eapply skip_ws_head; exact Er1).
        rewrite run_attributes, run_pipe, (@skip_ws_cons c0 z Hc0), Ec in E2.
        inversion E2; subst a r2. rewrite (@skip_ws_cons c0 z Hc0) in E4.
        rewrite E4 in Er1.
        destruct (bound_tag Hid s E1 Er1) as [Hb Hc].
        exists bslash, (id ++ star :: post), (star :: post).
        rewrite E4, closing_eq. auto. }
  destruct Hbd as (h & tb & tb' & Hb & Er1 & Hca).
  exists h, tb, tb'. repeat (split; [assumption|]).
  destruct Hb as (_ & _ & _ & _ & _ & (a0 & H0 & H0') & _).
  rewrite Hca in H0. inversion H0; subst a0. exact H0'.
Qed.

Lemma spine_inline_step n :
  (forall s, length s <= n -> element_closes T s ->
             spine (element_reclosed id) element s) ->
  forall s, length s <= n -> inline_closes T s ->
            spine (inline_reclosed id) inline_element s.
Proof.
  intros HE s Hn Hs. pose proof (skip_ws_length s) as Lsk.
  inversion Hs as [s0 e r1 a r2 c r3 E1 E2 E3 E4 Es
                  |s0 e r1 a r2 c r3 E1 E2 E3 Hc Es]; subst s0.
  - destruct (bound_of_leaf _ E1 E2 E4) as (h & tb & tb' & Hb & Er1 & Hca & Hca').
    pose proof (bound_stop Hb) as Hh.
    exists h, tb, tb'. split; [exact Hb|].
    destruct (spaces_prefix r1) as (w1 & Hw1 & Hsw1). rewrite Er1 in Hw1.
    destruct (run_trims (skip_ws s) (trims_element) E1) as [c1 Hc1].
    destruct (spaces_prefix s) as (w0 & Hw0 & Hsw0).
    assert (Ex1 : skip_ws s = (c1 ++ w1) ++ h :: tb).
    { now rewrite <- app_assoc, <- Hw1. }
    assert (Ex : s = (w0 ++ c1 ++ w1) ++ h :: tb).
    { rewrite <- app_assoc, <- Ex1. exact Hw0. }
    assert (Hr1 : reach (skip_ws s) (h :: tb)).
    { apply reach_trans with r1; [eapply reach_element; eassumption|].
      rewrite <- Er1. apply eats_reach, eats_skip_ws. }
    assert (Hrs : reach s (h :: tb)).
    { apply reach_trans with (skip_ws s); [apply eats_reach, eats_skip_ws|exact Hr1]. }
    split; [exact Hrs|].
    assert (Hskx : skip_ws (w0 ++ c1 ++ w1) = c1 ++ w1).
    { apply (skip_ws_at Hb). now rewrite <- Ex, Ex1. }
    assert (Hsk : skip_ws (c1 ++ w1) <> []).
    { intros H0.
      assert (H1 : skip_ws ((c1 ++ w1) ++ h :: tb) = (c1 ++ w1) ++ h :: tb)
        by (rewrite <- Ex1; apply skip_ws_idem).
      rewrite skip_ws_frame, H0 in H1 by assumption.
      apply (app_inv_tail (h :: tb) [] (c1 ++ w1)) in H1.
      rewrite Ex1, <- H1 in E1. cbn [app] in E1.
      apply (@run_consumes _ element) in E1; [|auto with parsers].
      rewrite Hw1, length_app in E1. lia. }
    rewrite Ex1 in Hr1.
    destruct (twin_of_bound Hb (c1 ++ w1) Hr1) as (HtE & _ & _).
    specialize (HtE Hsk). rewrite <- Ex1, E1 in HtE.
    destruct (twin_stays HtE) as (x' & Er & He').
    { rewrite Hw1. apply length_at. }
    rewrite Hw1 in Er. apply app_inv_tail in Er. subst x'.
    exists (w0 ++ c1 ++ w1), (mkInline e a (Some id)), (mkInline e a None), post.
    split; [exact Ex|]. split; [|split; [|split; [constructor|lia]]].
    + rewrite run_inline_element_close, skip_ws_frame, Hskx by assumption.
      rewrite <- Ex1, E1, Hw1, close_at_skip, skip_ws_frame, Hsw1 by assumption.
      cbn [app]. now rewrite Hca.
    + rewrite run_inline_element_close, skip_ws_frame, Hskx by assumption.
      rewrite He', close_at_skip, skip_ws_frame, Hsw1 by assumption.
      cbn [app]. now rewrite Hca'.
  - destruct (HE (skip_ws s) ltac:(lia) Hc) as (h & tb & tb' & Hb & Hr & Hx).
    destruct Hx as (x1 & e0 & e0' & r & Ex1 & He & He' & HR & Lr).
    pose proof (bound_stop Hb) as Hh.
    rewrite <- Ex1, E1 in He. inversion He; subst e0 r. clear He.
    exists h, tb, tb'. split; [exact Hb|].
    assert (Hrs : reach s (h :: tb)).
    { apply reach_trans with (skip_ws s); [apply eats_reach, eats_skip_ws|exact Hr]. }
    split; [exact Hrs|].
    destruct (Trim.reach_suffix Hrs) as [x Ex].
    assert (Hskx : skip_ws x = x1).
    { apply (skip_ws_at Hb). now rewrite <- Ex, Ex1. }
    exists x, (mkInline e a c), (mkInline e0' a c), r3.
    split; [exact Ex|]. split; [|split; [|split; [now constructor|]]].
    + rewrite run_inline_element, skip_ws_frame, Hskx by assumption.
      now rewrite <- Ex1, E1, E2, E3.
    + rewrite run_inline_element, skip_ws_frame, Hskx by assumption.
      now rewrite He', E2, E3.
    + apply (@run_shrinks _ attributes) in E2; [|auto with parsers].
      apply (@run_shrinks _ tag_end) in E3; [|auto with parsers]. lia.
Qed.

Lemma spine_children_step n :
  (forall s, length s < n -> children_close T s ->
             spine (children_reclosed id) children s) ->
  (forall s, length s <= n -> inline_closes T s ->
             spine (inline_reclosed id) inline_element s) ->
  forall s, length s <= n -> children_close T s ->
            spine (children_reclosed id) children s.
Proof.
  intros IH HI s Hn Hs.
  inversion Hs as [s0 Hi Es|s0 i r Ei Hc Es]; subst s0.
  - destruct (HI s Hn Hi) as (h & tb & tb' & Hb & Hr & Hx).
    destruct Hx as (x & i & i' & r & Ex & Hi1 & Hi2 & HR & Lr).
    exists h, tb, tb'. split; [exact Hb|]. split; [exact Hr|].
    destruct (run_children_ok (snd (span is_text_char (skip_ws r))))
      as (l & r' & El).
    exists x, ((i, Some (fst (span is_text_char (skip_ws r)))) :: l),
           ((i', Some (fst (span is_text_char (skip_ws r)))) :: l), r'.
    split; [exact Ex|]. rewrite !run_children_step, Hi1, Hi2, El.
    split; [reflexivity|]. split; [reflexivity|]. split; [now constructor|].
    apply (@run_shrinks _ children) in El; [|auto using consumes_child with parsers].
    pose proof (length_text_rest r). lia.
  - pose proof (run_consumes s consumes_inline_element Ei) as L0.
    pose proof (length_text_rest r) as L1.
    destruct (IH (snd (span is_text_char (skip_ws r))) ltac:(lia) Hc)
      as (h & tb & tb' & Hb & Hr & Hx).
    destruct Hx as (x2 & l & l' & r' & Ex2 & Hl & Hl' & HR & Lr).
    pose proof (bound_stop Hb) as Hh.
    exists h, tb, tb'. split; [exact Hb|].
    assert (Hrs : reach s (h :: tb)).
    { apply reach_trans with r; [eapply reach_inline_element; eassumption|].
      apply reach_trans with (snd (span is_text_char (skip_ws r))); [|exact Hr].
      apply eats_reach, eats_text_rest. }
    split; [exact Hrs|].
    destruct (Trim.reach_suffix Hrs) as [x Ex].
    pose proof Hrs as Hrx. rewrite Ex in Hrx.
    destruct (twin_of_bound Hb x Hrx) as (_ & HtI & _).
    rewrite <- Ex, Ei in HtI.
    destruct (twin_stays HtI) as (x1 & Er & Hi').
    { rewrite Ex2 in L1. pose proof (length_at h tb x2). lia. }
    pose proof Ex2 as Ex2'. rewrite Er, text_rest_frame in Ex2' by assumption.
    cbn [snd] in Ex2'. apply app_inv_tail in Ex2'.
    exists x, ((i, Some (fst (span is_text_char (skip_ws x1)))) :: l),
           ((i, Some (fst (span is_text_char (skip_ws x1)))) :: l'), r'.
    split; [exact Ex|]. split; [|split; [|split; [now constructor|exact Lr]]].
    + rewrite run_children_step, <- Ex, Ei, Er.
      rewrite text_rest_frame by assumption. cbn [fst snd].
      now rewrite Ex2', Hl.
    + rewrite run_children_step, Hi'.
      rewrite text_rest_frame by assumption. cbn [fst snd].
      now rewrite Ex2', Hl'.
Qed.

(** On the path to the replaced closing tag, every rule succeeds on both
    inputs, with values that differ in that closing tag only. *)
Lemma spine_rec n :
  forall s, length s < n ->
    (element_closes T s -> spine (element_reclosed id) element s)
    /\ (inline_closes T s -> spine (inline_reclosed id) inline_element s)
    /\ (children_close T s -> spine (children_reclosed id) children s).
Proof.
  induction n as [|n IH]; [intros s Hn; lia|].
  assert (HC : forall s, length s < n -> children_close T s ->
               spine (children_reclosed id) children s)
    by (intros s Hs; now apply IH).
  pose proof (spine_element_step HC) as HE.
  pose proof (spine_inline_step HE) as HI.
  pose proof (spine_children_step HC HI) as HC'.
  intros s Hs. assert (Hs' : length s <= n) by lia. repeat split; auto.
Qed.

Lemma spine_element s :
  element_closes T s -> spine (element_reclosed id) element s.
Proof. apply (@spine_rec (S (length s)) s). lia. Qed.

Lemma run_elements_ok u : exists d r, run (closure element) u = Ok d r.
Proof.
  rewrite Single.run_closure. apply run_closure_n_ok. auto with parsers.
Qed.

Lemma run_elements_step s :
  run (closure element) s
  = match run element s with
    | Ok e r =>
        match run (closure element) r with
        | Ok d r' => Ok (e :: d) r'
        | Fail => Fail
        end
    | Fail => Ok [] s
    end.
Proof. apply run_closure_step; auto with parsers. Qed.

Lemma spine_document s :
  document_closes T s -> spine (document_reclosed id) (closure element) s.
Proof.
  induction 1 as [s Hs|s e r Ee Hd IH].
  - destruct (spine_element Hs) as (h & tb & tb' & Hb & Hr & Hx).
    destruct Hx as (x & e & e' & r & Ex & He & He' & HR & Lr).
    exists h, tb, tb'. split; [exact Hb|]. split; [exact Hr|].
    destruct (run_elements_ok r) as (d & r' & Ed).
    exists x, (e :: d), (e' :: d), r'. split; [exact Ex|].
    rewrite !run_elements_step, He, He', Ed.
    split; [reflexivity|]. split; [reflexivity|]. split; [now constructor|].
    apply (@run_shrinks _ (closure element)) in Ed; [lia|auto with parsers].
  - destruct IH as (h & tb & tb' & Hb & Hr & Hx).
    destruct Hx as (x1 & d & d' & r' & Ex1 & Hd1 & Hd1' & HR & Lr).
    unfold Document in *.
    pose proof (bound_stop Hb) as Hh.
    exists h, tb, tb'. split; [exact Hb|].
    assert (Hrs : reach s (h :: tb)).
    { apply reach_trans with r; [eapply reach_element; eassumption|exact Hr]. }
    split; [exact Hrs|].
    destruct (Trim.reach_suffix Hrs) as [x Ex].
    assert (Hsk : skip_ws x <> []).
    { intros H0. rewrite run_element_skip, Ex, skip_ws_frame, H0 in Ee by assumption.
      cbn [app] in Ee. apply (@run_consumes _ element) in Ee; [|auto with parsers].
      rewrite Ex1 in Ee. pose proof (length_at h tb x1). lia. }
    pose proof Hrs as Hrx. rewrite Ex in Hrx.
    destruct (twin_of_bound Hb x Hrx) as (HtE & _ & _).
    specialize (HtE Hsk). rewrite <- Ex, Ee in HtE.
    destruct (twin_stays HtE) as (x' & Er & He').
    { rewrite Ex1. apply length_at. }
    rewrite Ex1 in Er. apply app_inv_tail in Er. subst x'.
    exists x, (e :: d), (e :: d'), r'. split; [exact Ex|].
    split; [|split; [|split; [now constructor|exact Lr]]].
    + now rewrite run_elements_step, <- Ex, Ee, Ex1, Hd1.
    + now rewrite run_elements_step, He', Hd1'.
Qed.

(** The closing tag of an inline element replaced by the anonymous one. *)
Lemma parse_reclosed pre d :
  parse (pre ++ T) = inr d ->
  document_closes T (skip_ws (pre ++ T)) ->
  exists d', parse (pre ++ T') = inr d' /\ document_reclosed id d d'.
Proof.
  intros Hp Hs. apply Entry.parse_ok in Hp. destruct Hp as (r & Hd & Hr).
  rewrite Entry.run_document in Hd.
  destruct (spine_document Hs) as (h & tb & tb' & Hb & _ & Hx).
  destruct Hx as (x & d0 & d' & r0 & Ex & Hd0 & Hd' & HR & _).
  unfold Document in *.
  rewrite <- Ex, Hd in Hd0. inversion Hd0; subst d0 r0.
  exists d'. split; [|exact HR].
  apply Entry.parse_ok. exists r. split; [|exact Hr].
  rewrite Entry.run_document.
  replace (skip_ws (pre ++ T')) with (x ++ h :: tb'); [exact Hd'|].
  destruct Hb as (_ & _ & _ & _ & _ & _ & y & Hy & Hy').
  rewrite Hy', (app_assoc x y). rewrite Hy, (app_assoc x y) in Ex.
  rewrite closing_eq in Ex. rewrite skip_ws_frame in Ex by reflexivity.
  apply app_inv_tail in Ex. rewrite anonymous_eq.
  rewrite skip_ws_frame by reflexivity. now rewrite Ex.
Qed.

End Tag.
End Spine.

(** ** Every pipe is passed by an inline element *)

Module Pass.
Import USFM RuleFacts Run Rec Reach Eats Walk Frame Ends Trim.

Local Abbreviation children := (closure (child inline_element)).

(** Reading a text without pipe does not pass a pipe. *)
Lemma eats_keeps_bar s r z :
  eats s r -> reach s (bar :: z) -> reach r (bar :: z).
Proof.
  intros He Hw. destruct (le_lt_dec (length (bar :: z)) (length r)) as [Hl|Hl].
  - eapply reach_linear; [apply eats_reach; exact He|exact Hw|exact Hl].
  - exfalso. destruct He as (c & -> & Hc).
    destruct (reach_suffix Hw) as [c2 Hc2].
    assert (Hlen : length c2 < length c).
    { apply (f_equal (@length ascii)) in Hc2. rewrite !length_app in Hc2. lia. }
    clear Hw Hl. revert c2 Hc2 Hlen.
    induction Hc as [|x c Hx Hc IH]; intros c2 Hc2 Hlen; [simpl in Hlen; lia|].
    destruct c2 as [|y c2].
    + cbn [app] in Hc2. inversion Hc2; subst x. discriminate Hx.
    + cbn [app] in Hc2. inversion Hc2; subst y.
      apply (IH c2); [assumption|simpl in Hlen; lia].
Qed.

Lemma beyond_or_reach s r z :
  reach s r -> reach s (bar :: z) ->
  length r < length (bar :: z) \/ reach r (bar :: z).
Proof.
  intros Hr Hw. destruct (le_lt_dec (length (bar :: z)) (length r)) as [Hl|Hl].
  - right. eapply reach_linear; eassumption.
  - now left.
Qed.

Lemma pass_rec n :
  forall s z, length s < n -> reach s (bar :: z) ->
    (forall e r, run element s = Ok e r -> length r < length (bar :: z) ->
                 closed_at (bar :: z))
    /\ (forall i r, run inline_element s = Ok i r -> length r < length (bar :: z) ->
                    closed_at (bar :: z))
    /\ (forall l r, run children s = Ok l r -> length r < length (bar :: z) ->
                    closed_at (bar :: z)).
Proof.
  induction n as [|n IH]; [intros s z Hn; lia|].
  assert (HE : forall s z, length s < S n -> reach s (bar :: z) ->
               forall e r, run element s = Ok e r ->
                           length r < length (bar :: z) -> closed_at (bar :: z)).
  { intros s z Hn Hw e r. rewrite run_element.
    destruct (run tag_start s) as [t r0|] eqn:E0; [|discriminate]. cbv zeta.
    pose proof (run_consumes s consumes_tag_start E0) as L0.
    pose proof (span_length is_text_char r0) as L1.
    destruct (run children _) as [ch r2|] eqn:E2; [|discriminate].
    intros H Hl; inversion H; subst; clear H.
    assert (Hw1 : reach (snd (span is_text_char r0)) (bar :: z)).
    { eapply eats_keeps_bar; [|eapply eats_keeps_bar; [|exact Hw]].
      - apply eats_span, text_char_not_bar.
      - eapply eats_tag_start; eassumption. }
    destruct (beyond_or_reach (reach_children _ E2) Hw1) as [Hb|Hw2].
    - destruct (IH (snd (span is_text_char r0)) z ltac:(lia) Hw1) as (_ & _ & HC).
      eapply HC; eassumption.
    - pose proof (eats_keeps_bar (eats_text_rest r2) Hw2) as Hw3.
      apply reach_length in Hw3. lia. }
  assert (HI : forall s z, length s < S n -> reach s (bar :: z) ->
               forall i r, run inline_element s = Ok i r ->
                           length r < length (bar :: z) -> closed_at (bar :: z)).
  { intros s z Hn Hw i r. rewrite run_inline_element.
    destruct (run element (skip_ws s)) as [e r1|] eqn:E1; [|discriminate].
    destruct (run attributes r1) as [a r2|] eqn:E2; [|discriminate].
    destruct (run tag_end r2) as [c r3|] eqn:E3; [|discriminate].
    intros H Hl; inversion H; subst; clear H.
    pose proof (skip_ws_length s) as Lsk.
    pose proof (eats_keeps_bar (eats_skip_ws s) Hw) as Hw0.
    destruct (beyond_or_reach (reach_element _ E1) Hw0) as [Hb|Hw1].
    { eapply (HE (skip_ws s) z); [lia|exact Hw0|exact E1|exact Hb]. }
    pose proof (eats_keeps_bar (eats_skip_ws r1) Hw1) as Hw2.
    rewrite run_attributes_skip in E2.
    assert (Hw3 : skip_ws r1 = bar :: z \/ reach r2 (bar :: z)).
    { destruct (skip_ws r1) as [|c0 z0] eqn:Er1.
      - apply reach_length in Hw2. simpl in Hw2. lia.
      - destruct (Ascii.eqb c0 bar) eqn:Ec.
        + apply Ascii.eqb_eq in Ec. subst c0.
          destruct (list_eq_dec ascii_dec (bar :: z) (bar :: z0)) as [Heq|Hne].
          * left. now rewrite Heq.
          * right. destruct (reach_from_bar Hw2 Hne) as (a0 & r0 & E0 & H0).
            rewrite E0 in E2. now inversion E2; subst.
        + right.
          assert (Hc0 : is_space c0 = false) by (eapply skip_ws_head; exact Er1).
          rewrite run_attributes, run_pipe, (@skip_ws_cons c0 z0 Hc0), Ec in E2.
          inversion E2; subst. exact Hw2. }
    destruct Hw3 as [Heq|Hw3].
    - rewrite Heq in E2. now exists a, r2, c, r.
    - pose proof (eats_keeps_bar (eats_tag_end _ E3) Hw3) as Hw4.
      apply reach_length in Hw4. lia. }
  intros s z Hn Hw. split; [now apply HE|]. split; [now apply HI|].
  intros l r. rewrite run_children_step.
  destruct (run inline_element s) as [i r1|] eqn:E1.
  - pose proof (run_consumes s consumes_inline_element E1) as L0.
    pose proof (length_text_rest r1) as L1.
    destruct (run children _) as [l1 r2|] eqn:E2; [|discriminate].
    intros H Hl; inversion H; subst; clear H.
    destruct (beyond_or_reach (reach_inline_element _ E1) Hw) as [Hb|Hw1].
    { eapply (HI s z); eassumption. }
    pose proof (eats_keeps_bar (eats_text_rest r1) Hw1) as Hw2.
    destruct (IH (snd (span is_text_char (skip_ws r1))) z ltac:(lia) Hw2)
      as (_ & _ & HC).
    eapply HC; eassumption.
  - intros H Hl; inversion H; subst. apply reach_length in Hw. lia.
Qed.

Lemma pass_element s z e r :
  reach s (bar :: z) -> run element s = Ok e r ->
  length r < length (bar :: z) -> closed_at (bar :: z).
Proof.
  intros Hw. apply (@pass_rec (S (length s)) s z (le_n _) Hw).
Qed.

Lemma pass_elements n :
  forall s z d r, length s < n -> reach s (bar :: z) ->
    run (closure element) s = Ok d r -> length r < length (bar :: z) ->
    closed_at (bar :: z).
Proof.
  induction n as [|n IH]; intros s z d r Hn Hw; [lia|].
  rewrite run_closure_step by auto with parsers.
  destruct (run element s) as [e r1|] eqn:E1.
  - pose proof (run_consumes s consumes_element E1) as L0.
    destruct (run (closure element) r1) as [d1 r2|] eqn:E2; [|discriminate].
    intros H Hl; inversion H; subst; clear H.
    destruct (beyond_or_reach (reach_element _ E1) Hw) as [Hb|Hw1].
    + eapply pass_element; eassumption.
    + eapply (IH r1 z); [lia|exact Hw1|exact E2|exact Hl].
  - intros H Hl; inversion H; subst. apply reach_length in Hw. lia.
Qed.

Lemma reach_elements n :
  forall s d r, length s < n -> run (closure element) s = Ok d r -> reach s r.
Proof.
  induction n as [|n IH]; intros s d r Hn; [lia|].
  rewrite run_closure_step by auto with parsers.
  destruct (run element s) as [e r1|] eqn:E1.
  - pose proof (run_consumes s consumes_element E1) as L0.
    destruct (run (closure element) r1) as [d1 r2|] eqn:E2; [|discriminate].
    intros H; inversion H; subst; clear H.
    apply reach_trans with r1; [eapply reach_element; eassumption|].
    eapply (IH r1); [lia|exact E2].
  - intros H; inversion H; subst. apply reach_refl.
Qed.

(** A parse that succeeds has closed the attribute list of every pipe that
    it could come to. *)
Lemma parse_closes txt d z :
  parse txt = inr d -> reach (skip_ws txt) (bar :: z) -> closed_at (bar :: z).
Proof.
  intros Hp Hw. apply Entry.parse_ok in Hp. destruct Hp as (r & Hd & Hr).
  rewrite Entry.run_document in Hd.
  destruct (le_lt_dec (length (bar :: z)) (length r)) as [Hl|Hl].
  - exfalso.
    assert (Hrr : reach (skip_ws txt) r).
    { apply (@reach_elements (S (length (skip_ws txt))) (skip_ws txt) d r);
        [lia|exact Hd]. }
    destruct (reach_suffix (reach_linear Hrr Hw Hl)) as [c3 Hc3].
    assert (Hsp : skip_ws r <> []).
    { rewrite Hc3. rewrite skip_ws_frame by reflexivity.
      destruct (skip_ws c3); discriminate. }
    congruence.
  - apply (@pass_elements (S (length (skip_ws txt))) (skip_ws txt) z d r);
      [lia|exact Hw|exact Hd|exact Hl].
Qed.

End Pass.

(** ** Closing tags without id *)

(** C8: when an input parses and, in this parse, the closing tag of an inline
    element is read from an occurrence of a closing tag with an id (a
    backslash, the id, a star), then the input with this occurrence replaced
    by the anonymous closing tag parses as well, and its tree differs from
    the first in the closing tag of that one inline element only, [None]
    instead of [Some id]. *)
Theorem C8_closing_tag_replaced pre id post d :
  is_tag_id id = true ->
  parse (pre ++ closing id ++ post) = inr d ->
  document_closes (closing id ++ post) (skip_ws (pre ++ closing id ++ post)) ->
  exists d',
    parse (pre ++ anonymous_closing ++ post) = inr d'
    /\ document_reclosed id d d'.
Proof. intros Hid Hp Hs. now apply Spine.parse_reclosed. Qed.

Lemma C8_witness :
  exists d',
    parse ((L "\v 1 \w hello | x-occurences = " ++ [dquote] ++ L "1" ++ [dquote])
           ++ anonymous_closing ++ [])
    = inr d'
    /\ document_reclosed (L "w")
         (scenario2_tree (dquote :: L "1" ++ [dquote]) (Some []) (Some []) (Some []))
         d'.
Proof.
  apply (@C8_closing_tag_replaced
           (L "\v 1 \w hello | x-occurences = " ++ [dquote] ++ L "1" ++ [dquote])
           (L "w") []).
  - reflexivity.
  - vm_compute. reflexivity.
  - apply dc_here. eapply ec_children; [lazy; reflexivity|].
    apply cc_here. eapply ic_here; lazy; reflexivity.
Defined.

(** ** The equals sign without value *)

(** C2, as stated, fails: on [k=z] the pair production has read the equals
    sign, finds no quoted value, and succeeds all the same, with a Pair
    without value and the equals sign unread. *)
Lemma C2_pair_gives_up_equals :
  run (token (L "=")) (L "=z") = Ok (L "=") (L "z")
  /\ run USFM.value (L "z") = Fail
  /\ run USFM.pair (L "k=z") = Ok (mkPair (L "k") None) (L "=z").
Proof. repeat split; vm_compute; reflexivity. Qed.

(** C2, amended: when the equals sign after a key is not followed by a
    quoted value, the pair production goes back before the equals sign and
    yields the Pair without value.  Neither a further pair nor a closing tag
    can start at the equals sign, so the attribute list ends with this pair,
    every inline element whose attributes end there fails, and so does the
    whole parse of every input in which this is the end of the attribute
    list of a pipe that lies outside the attribute lists before it. *)
Theorem C2_pair_without_value s k r e r1 :
  run USFM.key s = Ok k r ->
  run (token (L "=")) r = Ok e r1 ->
  run USFM.value r1 = Fail ->
  run USFM.pair s = Ok (mkPair k None) r
  /\ run USFM.pair r = Fail
  /\ run USFM.tag_end r = Fail
  /\ (forall n, run (closure_n (S n) USFM.pair) s = Ok [mkPair k None] r)
  /\ (forall el s0 e0 r0 a,
        blind el -> run el (skip_ws s0) = Ok e0 r0 ->
        run USFM.attributes r0 = Ok a r ->
        run (USFM.inline_element_of el) s0 = Fail)
  /\ (forall txt z a,
        reach (skip_ws txt) (bar :: z) ->
        run USFM.attributes (bar :: z) = Ok a r ->
        exists err, parse txt = inl err).
Proof.
  intros Hk He Hv.
  pose proof (Attr.run_pair_backtracks s Hk He Hv) as Hp.
  destruct (Attr.stuck_at_equals r He) as [Hp' Ht].
  repeat split; try assumption.
  - intros n. now apply Attr.run_closure_pair_last.
  - intros el s0 e0 r0 a Hb H0 Ha.
    rewrite Run.run_inline_element_of by assumption.
    now rewrite H0, Ha, Ht.
  - intros txt z a Hw Ha. destruct (parse txt) as [err|d] eqn:Ep; [eauto|].
    destruct (Pass.parse_closes txt Ep Hw) as (a0 & r2 & c & r3 & Ha0 & Hc).
    rewrite Ha in Ha0. inversion Ha0; subst. congruence.
Qed.

Lemma C2_witness :
  run USFM.pair (L "k=z") = Ok (mkPair (L "k") None) (L "=z")
  /\ run USFM.pair (L "=z") = Fail
  /\ run USFM.tag_end (L "=z") = Fail
  /\ exists err, parse (L "\v \w h|k=z") = inl err.
Proof.
  destruct (@C2_pair_without_value (L "k=z") (L "k") (L "=z") (L "=") (L "z"))
    as (H1 & H2 & H3 & _ & _ & H6); [vm_compute; reflexivity..|].
  split; [exact H1|]. split; [exact H2|]. split; [exact H3|].
  apply (H6 (L "\v \w h|k=z") (L "k=z") [mkPair (L "k") None]).
  - exists 7. vm_compute. reflexivity.
  - vm_compute. reflexivity.
Defined.

(** * Beyond the scenarios *)

(** ** Every node of a tree comes from its rule *)

Module Nodes.
Import USFM RuleFacts Run Entry Rec Walk.

Local Abbreviation children := (closure (child inline_element)).

Lemma elements_in_flat t lt ch ft :
  elements_in (mkElement t lt ch ft)
  = mkElement t lt ch ft :: flat_map (fun c => elements_in_inline (fst c)) ch.
Proof.
  simpl. f_equal. induction ch as [|[i tx] ch IH]; [reflexivity|].
  simpl. now rewrite IH.
Qed.

Lemma inlines_in_flat t lt ch ft :
  inlines_in (mkElement t lt ch ft)
  = flat_map (fun c => inlines_in_inline (fst c)) ch.
Proof.
  simpl. induction ch as [|[i tx] ch IH]; [reflexivity|].
  simpl in *. now rewrite IH.
Qed.

Section Everywhere.
Variables (PE : Element -> Prop) (PI : InlineElement -> Prop).
Hypothesis HE : forall s e r, run element s = Ok e r -> PE e.
Hypothesis HI : forall s i r, run inline_element s = Ok i r -> PI i.

Lemma nodes_rec n :
  forall s, length s <= n ->
    (forall e r, run element s = Ok e r ->
       Forall PE (elements_in e) /\ Forall PI (inlines_in e))
    /\ (forall i r, run inline_element s = Ok i r ->
       Forall PE (elements_in_inline i) /\ Forall PI (inlines_in_inline i))
    /\ (forall l r, run children s = Ok l r ->
       Forall PE (flat_map (fun c => elements_in_inline (fst c)) l)
       /\ Forall PI (flat_map (fun c => inlines_in_inline (fst c)) l)).
Proof.
  induction n as [|n IH].
  - intros [|c s] Hl; [|simpl in Hl; lia]. repeat split.
    + revert H. now rewrite run_element_at_end.
    + revert H. now rewrite run_element_at_end.
    + revert H. now rewrite run_inline_element_nil.
    + revert H. now rewrite run_inline_element_nil.
    + revert H. rewrite run_children_step, run_inline_element_nil.
      intros H; inversion H; subst. constructor.
    + revert H. rewrite run_children_step, run_inline_element_nil.
      intros H; inversion H; subst. constructor.
  - assert (HEl : forall s, length s <= S n ->
              forall e r, run element s = Ok e r ->
                Forall PE (elements_in e) /\ Forall PI (inlines_in e)).
    { intros s Hl e r H. pose proof (HE _ H) as He. revert H.
      rewrite run_element.
      destruct (run tag_start s) as [t r0|] eqn:E0; [|discriminate]. cbv zeta.
      pose proof (run_consumes s consumes_tag_start E0) as L0.
      pose proof (span_length is_text_char r0) as L1.
      destruct (run (closure _) _) as [ch r2|] eqn:E2; [|discriminate].
      intros H; inversion H; subst.
      rewrite elements_in_flat, inlines_in_flat.
      destruct (IH (snd (span is_text_char r0))) as (_ & _ & HC); [lia|].
      destruct (HC _ _ E2) as [H1 H2]. split; [now constructor|assumption]. }
    assert (HIn : forall s, length s <= S n ->
              forall i r, run inline_element s = Ok i r ->
                Forall PE (elements_in_inline i) /\ Forall PI (inlines_in_inline i)).
    { intros s Hl i r H. pose proof (HI _ H) as Hi. revert H.
      rewrite run_inline_element.
      destruct (run element (skip_ws s)) as [e r1|] eqn:E1; [|discriminate].
      destruct (run attributes r1) as [a r2|] eqn:E2; [|discriminate].
      destruct (run tag_end r2) as [c r3|] eqn:E3; [|discriminate].
      intros H; inversion H; subst.
      assert (Hk : length (skip_ws s) <= S n)
        by (pose proof (skip_ws_length s); lia).
      destruct (HEl (skip_ws s) Hk _ _ E1) as [H1 H2].
      split; [exact H1|]. cbn [inlines_in_inline]. now constructor. }
    intros s Hl. split; [now apply HEl|]. split; [now apply HIn|].
    intros l r. rewrite run_children_step.
    destruct (run inline_element s) as [i r1|] eqn:E1.
    + pose proof (run_consumes s consumes_inline_element E1) as L1.
      pose proof (length_text_rest r1) as L2.
      destruct (run (closure _) _) as [l1 r2|] eqn:E2; [|discriminate].
      intros H; inversion H; subst.
      destruct (HIn s Hl _ _ E1) as [H1 H2].
      destruct (IH (snd (span is_text_char (skip_ws r1)))) as (_ & _ & HC); [lia|].
      destruct (HC _ _ E2) as [H3 H4].
      cbn [flat_map fst]. rewrite !Forall_app. now repeat split.
    + intros H; inversion H; subst. split; constructor.
Qed.

Lemma nodes_elements n :
  forall s d r, length s < n -> run (closure element) s = Ok d r ->
    Forall PE (elements_of_document d) /\ Forall PI (inlines_of_document d).
Proof.
  induction n as [|n IH]; intros s d r Hn; [lia|].
  rewrite run_closure_step by auto with parsers.
  destruct (run element s) as [e r1|] eqn:E1.
  - pose proof (run_consumes s consumes_element E1) as L0.
    destruct (run (closure element) r1) as [d1 r2|] eqn:E2; [|discriminate].
    intros H; inversion H; subst; clear H.
    destruct (@nodes_rec (length s) s (le_n _)) as (HEl & _ & _).
    destruct (HEl _ _ E1) as [H1 H2].
    destruct (IH r1 d1 r) as [H3 H4]; [lia|exact E2|].
    unfold elements_of_document, inlines_of_document. cbn [flat_map].
    rewrite !Forall_app. now repeat split.
  - intros H; inversion H; subst. split; constructor.
Qed.

Lemma nodes_parse txt d :
  parse txt = inr d ->
  Forall PE (elements_of_document d) /\ Forall PI (inlines_of_document d).
Proof.
  intros H. apply parse_ok in H. destruct H as (r & H & _).
  rewrite run_document in H.
  apply (@nodes_elements (S (length (skip_ws txt))) (skip_ws txt) d r);
    [lia|exact H].
Qed.

End Everywhere.
End Nodes.

(** ** The patterns of [tag_id] and [value] *)

Module Lexical.
Import USFM RuleFacts Run Entry Single Rec Walk Ends.

Lemma run_rule_skip {A} (p : parser A) s : run (rule p) (skip_ws s) = run (rule p) s.
Proof. rewrite !run_rule. now rewrite skip_ws_idem. Qed.

Lemma run_tag_id_skip s : run tag_id (skip_ws s) = run tag_id s.
Proof. apply run_rule_skip. Qed.

Lemma run_value_skip s : run value (skip_ws s) = run value s.
Proof. apply run_rule_skip. Qed.

Lemma is_tag_id_intro c m :
  is_alpha c = true -> Forall (fun x => is_id_char x = true) m ->
  is_tag_id (c :: m) = true.
Proof.
  intros Hc Hm. simpl. rewrite Hc. simpl. apply forallb_forall.
  now apply Forall_forall.
Qed.

(** [tag_id] reads, behind the white space, the longest run of the pattern. *)
Lemma run_tag_id_iff s k r :
  run tag_id s = Ok k r
  <-> is_tag_id k = true /\ skip_ws s = k ++ r
      /\ match r with c :: _ => is_id_char c = false | [] => True end.
Proof.
  split.
  - rewrite run_tag_id. destruct (skip_ws s) as [|c x]; [discriminate|].
    destruct (is_alpha c) eqn:Hc; [|discriminate].
    intros H; inversion H; subst; clear H.
    split; [apply is_tag_id_intro; [exact Hc|apply span_fst_all]|].
    split; [simpl; now rewrite span_app|].
    destruct (snd (span is_id_char x)) as [|c' r'] eqn:E; [exact I|].
    eapply span_snd_head; exact E.
  - intros (Hk & Hs & Hr). rewrite <- run_tag_id_skip, Hs.
    now apply run_tag_id_exact.
Qed.

Lemma run_tag_id_fails s :
  run tag_id s = Fail
  <-> match skip_ws s with c :: _ => is_alpha c = false | [] => True end.
Proof.
  rewrite run_tag_id. destruct (skip_ws s) as [|c x]; [tauto|].
  destruct (is_alpha c); split; (discriminate || reflexivity || tauto).
Qed.

(** [value] reads, behind the white space, a quote, the characters up to the
    next quote, and that quote; its node is all of it. *)
Lemma run_value_iff s v r :
  run value s = Ok v r
  <-> exists m, skip_ws s = dquote :: m ++ dquote :: r
                /\ v = dquote :: m ++ [dquote]
                /\ Forall (fun c => is_value_char c = true) m.
Proof.
  split.
  - rewrite run_value. destruct (skip_ws s) as [|c x]; [discriminate|].
    destruct (Ascii.eqb c dquote) eqn:Hc; [|discriminate].
    apply Ascii.eqb_eq in Hc. subst c.
    destruct (snd (span is_value_char x)) as [|c' r'] eqn:E; [discriminate|].
    intros H; inversion H; subst; clear H.
    exists (fst (span is_value_char x)).
    assert (Hq : c' = dquote).
    { apply span_snd_head in E. unfold is_value_char in E.
      apply negb_false_iff in E. now apply Ascii.eqb_eq in E. }
    subst c'. split; [|split; [reflexivity|apply span_fst_all]].
    f_equal. rewrite <- E. symmetry. apply span_app.
  - intros (m & Hs & -> & Hm). rewrite run_value, Hs.
    replace (Ascii.eqb dquote dquote) with true by reflexivity.
    rewrite (@span_all is_value_char m (dquote :: r) Hm) by reflexivity.
    reflexivity.
Qed.

End Lexical.

(** ** The two tags *)

Module Tags.
Import USFM RuleFacts Run Entry Single Attr Rec Walk Ends Trim Lexical.

Lemma split_spaces s : exists w, spaces w /\ s = w ++ skip_ws s.
Proof.
  exists (fst (span is_space s)). split; [apply span_fst_all|].
  symmetry. apply span_app.
Qed.

Lemma skip_ws_tag_id k x : is_tag_id k = true -> skip_ws (k ++ x) = k ++ x.
Proof.
  intros Hk. destruct (is_tag_id_inv k Hk) as (c & m & -> & Hc & _).
  apply skip_ws_cons. now apply alpha_not_space.
Qed.

Lemma run_backslash_iff s t r :
  run backslash s = Ok t r <-> t = [bslash] /\ skip_ws s = bslash :: r.
Proof.
  rewrite run_backslash. destruct (skip_ws s) as [|c x].
  - split; [discriminate|]. intros [_ H]; discriminate.
  - destruct (Ascii.eqb c bslash) eqn:E.
    + apply Ascii.eqb_eq in E. subst c. split.
      * intros H; now inversion H.
      * intros [-> H]; now inversion H.
    + split; [discriminate|]. intros [_ H]. inversion H; subst.
      now rewrite Ascii.eqb_refl in E.
Qed.

Lemma run_star_iff s t r :
  run (token [star]) s = Ok t r <-> t = [star] /\ skip_ws s = star :: r.
Proof.
  rewrite run_token. destruct (skip_ws s) as [|c x]; cbn [strip_prefix].
  - split; [discriminate|]. intros [_ H]; discriminate.
  - destruct (Ascii.eqb star c) eqn:E.
    + apply Ascii.eqb_eq in E. subst c. split.
      * intros H; now inversion H.
      * intros [-> H]; now inversion H.
    + split; [discriminate|]. intros [_ H]. inversion H; subst.
      now rewrite Ascii.eqb_refl in E.
Qed.

Lemma ends_id_spaces w x : spaces w -> ends_id x -> ends_id (w ++ x).
Proof.
  intros [|c w' Hc _] Hx; [exact Hx|]. simpl. now apply space_not_id_char.
Qed.

(** [tag_start]: behind the white space, a backslash, white space, a tag id
    read whole; the white space after it is passed, and the node is the id. *)
Lemma run_tag_start_iff s k r :
  run tag_start s = Ok k r
  <-> exists w x,
        skip_ws s = bslash :: w ++ k ++ x /\ spaces w /\ is_tag_id k = true
        /\ ends_id x /\ r = skip_ws x.
Proof.
  rewrite run_tag_start. split.
  - destruct (run backslash s) as [b r0|] eqn:E0; [|discriminate].
    apply run_backslash_iff in E0. destruct E0 as [_ E0].
    destruct (run tag_id r0) as [t r1|] eqn:E1; [|discriminate].
    apply run_tag_id_iff in E1. destruct E1 as (Hk & E1 & Hx).
    intros H; inversion H; subst; clear H.
    destruct (split_spaces r0) as (w & Hw & Er0).
    exists w, r1. rewrite E0, Er0 at 1. rewrite E1. now repeat split.
  - intros (w & x & Hs & Hw & Hk & Hx & ->).
    assert (E0 : run backslash s = Ok [bslash] (w ++ k ++ x))
      by now apply run_backslash_iff.
    rewrite E0.
    assert (E1 : run tag_id (w ++ k ++ x) = Ok k x).
    { apply run_tag_id_iff. repeat split; try assumption.
      rewrite skip_ws_spaces by assumption. now apply skip_ws_tag_id. }
    now rewrite E1.
Qed.

(** [tag_end] with an id: behind the white space, a backslash, the id and
    the star, with any white space between them. *)
Lemma run_tag_end_some_iff s k r :
  run tag_end s = Ok (Some k) r
  <-> exists w1 w2,
        skip_ws s = bslash :: w1 ++ k ++ w2 ++ star :: r
        /\ spaces w1 /\ spaces w2 /\ is_tag_id k = true.
Proof.
  rewrite run_tag_end. split.
  - destruct (run backslash s) as [b r0|] eqn:E0; [|discriminate].
    apply run_backslash_iff in E0. destruct E0 as [_ E0].
    destruct (run tag_id r0) as [t r1|] eqn:E1.
    + apply run_tag_id_iff in E1. destruct E1 as (Hk & E1 & Hx).
      destruct (run (token [star]) r1) as [t2 r2|] eqn:E2; [|discriminate].
      apply run_star_iff in E2. destruct E2 as [_ E2].
      intros H; inversion H; subst; clear H.
      destruct (split_spaces r0) as (w1 & Hw1 & Er0).
      destruct (split_spaces r1) as (w2 & Hw2 & Er1).
      exists w1, w2. rewrite E0, Er0 at 1. rewrite E1, Er1 at 1. rewrite E2.
      now repeat split.
    + destruct (run (token [star]) r0) as [t2 r2|]; discriminate.
  - intros (w1 & w2 & Hs & Hw1 & Hw2 & Hk).
    assert (E0 : run backslash s = Ok [bslash] (w1 ++ k ++ w2 ++ star :: r))
      by now apply run_backslash_iff.
    rewrite E0.
    assert (E1 : run tag_id (w1 ++ k ++ w2 ++ star :: r) = Ok k (w2 ++ star :: r)).
    { apply run_tag_id_iff. repeat split; try assumption.
      - rewrite skip_ws_spaces by assumption. now apply skip_ws_tag_id.
      - apply ends_id_spaces; [assumption|reflexivity]. }
    rewrite E1.
    assert (E2 : run (token [star]) (w2 ++ star :: r) = Ok [star] r).
    { apply run_star_iff. split; [reflexivity|].
      rewrite skip_ws_spaces by assumption. now apply skip_ws_cons. }
    now rewrite E2.
Qed.

(** [tag_end] without id: behind the white space, a backslash and the star,
    with any white space between them. *)
Lemma run_tag_end_none_iff s r :
  run tag_end s = Ok None r
  <-> exists w, skip_ws s = bslash :: w ++ star :: r /\ spaces w.
Proof.
  rewrite run_tag_end. split.
  - destruct (run backslash s) as [b r0|] eqn:E0; [|discriminate].
    apply run_backslash_iff in E0. destruct E0 as [_ E0].
    destruct (run tag_id r0) as [t r1|] eqn:E1.
    + destruct (run (token [star]) r1) as [t2 r2|]; discriminate.
    + destruct (run (token [star]) r0) as [t2 r2|] eqn:E2; [|discriminate].
      apply run_star_iff in E2. destruct E2 as [_ E2].
      intros H; inversion H; subst; clear H.
      destruct (split_spaces r0) as (w & Hw & Er0).
      exists w. rewrite E0, Er0 at 1. rewrite E2. now split.
  - intros (w & Hs & Hw).
    assert (E0 : run backslash s = Ok [bslash] (w ++ star :: r))
      by now apply run_backslash_iff.
    rewrite E0.
    assert (Hsk : skip_ws (w ++ star :: r) = star :: r).
    { rewrite skip_ws_spaces by assumption. now apply skip_ws_cons. }
    assert (E1 : run tag_id (w ++ star :: r) = Fail).
    { apply run_tag_id_fails. now rewrite Hsk. }
    rewrite E1.
    assert (E2 : run (token [star]) (w ++ star :: r) = Ok [star] r)
      by now apply run_star_iff.
    now rewrite E2.
Qed.

End Tags.

(** ** What the rules build *)

Module Shape.
Import USFM RuleFacts Run Entry Single Attr Texts Rec Walk Ends Trim Lexical Tags Nodes.

Local Abbreviation children := (closure (child inline_element)).

Lemma trimmed_text x : trimmed (fst (span is_text_char (skip_ws x))).
Proof.
  unfold trimmed. destruct (skip_ws x) as [|c r] eqn:E; [reflexivity|].
  simpl. destruct (is_text_char c); [|reflexivity].
  destruct (span is_text_char r). simpl.
  apply skip_ws_cons. eapply skip_ws_head; exact E.
Qed.

Lemma run_tag_start_skipped s t r : run tag_start s = Ok t r -> skip_ws r = r.
Proof.
  intros H. apply run_tag_start_iff in H.
  destruct H as (w & x & _ & _ & _ & _ & ->). apply skip_ws_idem.
Qed.

(** The texts that follow the children of an element. *)
Lemma children_texts n :
  forall s l r, length s <= n -> run children s = Ok l r ->
    Forall (fun c => exists tx, snd c = Some tx /\ trimmed tx) l.
Proof.
  induction n as [|n IH]; intros s l r Hn; rewrite run_children_step;
    destruct (run inline_element s) as [i r1|] eqn:E1;
    try (intros H; inversion H; subst; constructor).
  - apply (@run_consumes _ inline_element) in E1; [|apply consumes_inline_element].
    lia.
  - apply (@run_consumes _ inline_element) in E1; [|apply consumes_inline_element].
    destruct (run children _) as [l1 r2|] eqn:E2; [|discriminate].
    intros H; inversion H; subst. constructor.
    + eexists. split; [reflexivity|apply trimmed_text].
    + eapply IH; [|exact E2]. pose proof (length_text_rest r1). lia.
Qed.

(** What the rule [element] builds. *)
Lemma element_shape s e r :
  run element s = Ok e r ->
  is_tag_id (tag_of e) = true
  /\ (exists lt, leading_of e = Some lt /\ trimmed lt)
  /\ Forall (fun c => exists tx, snd c = Some tx /\ trimmed tx) (children_of e)
  /\ final_of e = Some [].
Proof.
  rewrite run_element. destruct (run tag_start s) as [t r0|] eqn:E0; [|discriminate].
  cbv zeta. destruct (run children _) as [ch r2|] eqn:E2; [|discriminate].
  intros H; inversion H; subst; clear H. cbn [tag_of leading_of children_of final_of].
  pose proof (run_tag_start_skipped _ E0) as Hr0.
  apply run_tag_start_iff in E0. destruct E0 as (w & x & _ & _ & Hk & _ & _).
  split; [exact Hk|]. split; [|split].
  - eexists. split; [reflexivity|]. rewrite <- Hr0. apply trimmed_text.
  - eapply children_texts; [apply le_n|exact E2].
  - destruct (@children_end (length (snd (span is_text_char r0))) _ _ _
                (le_n _) (stopped_span r0) E2) as [Hs _].
    now rewrite (stopped_skip_ws r2 Hs), (stopped_text r2 Hs).
Qed.

Lemma pair_shape s p r : run pair s = Ok p r -> pair_ok p.
Proof.
  rewrite run_pair, run_key.
  destruct (run tag_id s) as [k r0|] eqn:E0; [|discriminate].
  apply run_tag_id_iff in E0. destruct E0 as (Hk & _ & _).
  destruct (run (token (L "=")) r0) as [e r1|].
  - destruct (run value r1) as [v r2|] eqn:E2.
    + apply run_value_iff in E2. destruct E2 as (m & _ & -> & Hm).
      intros H; inversion H; subst. split; [exact Hk|]. now exists m.
    + intros H; inversion H; subst. now split.
  - intros H; inversion H; subst. now split.
Qed.

Lemma attributes_shape s a r : run attributes s = Ok a r -> Forall pair_ok a.
Proof.
  rewrite run_attributes. destruct (run pipe s) as [b r0|].
  - destruct (run (closure pair) r0) as [l r1|] eqn:E.
    + intros H; inversion H; subst.
      eapply (@closure_n_all _ pair); [auto with parsers| |exact E].
      intros s1 p r2. apply pair_shape.
    + intros H; inversion H; subst. constructor.
  - intros H; inversion H; subst. constructor.
Qed.

(** What the rule [inline_element] builds. *)
Lemma inline_shape s i r :
  run inline_element s = Ok i r ->
  Forall pair_ok (attrs_of i)
  /\ opt_all (fun c => is_tag_id c = true) (closing_of i).
Proof.
  rewrite run_inline_element.
  destruct (run element (skip_ws s)) as [e r1|]; [|discriminate].
  destruct (run attributes r1) as [a r2|] eqn:E2; [|discriminate].
  destruct (run tag_end r2) as [c r3|] eqn:E3; [|discriminate].
  intros H; inversion H; subst; clear H. cbn [attrs_of closing_of].
  split; [eapply attributes_shape; exact E2|].
  destruct c as [k|]; [|exact I].
  apply run_tag_end_some_iff in E3. now destruct E3 as (w1 & w2 & _ & _ & _ & Hk).
Qed.

End Shape.

(** ** Elements without children *)

Module Simple.
Import USFM RuleFacts Run Entry Single Attr Texts Rec Walk Ends Trim Closing.
Import Lexical Tags Nodes Shape.

Local Abbreviation children := (closure (child inline_element)).

Lemma at_tag_stopped u : at_tag u -> stopped u.
Proof. destruct u as [|c u]; [trivial|]. simpl. now intros ->. Qed.

Lemma run_attributes_at_tag u : at_tag u -> run attributes u = Ok [] u.
Proof.
  destruct u as [|c u]; [reflexivity|]. simpl. intros ->.
  apply run_attributes_at_backslash.
Qed.

(** An element whose text is followed by no inline element has no child. *)
Lemma run_element_childless s t r :
  run tag_start s = Ok t r ->
  run inline_element (snd (span is_text_char r)) = Fail ->
  run element s
  = Ok (childless t (fst (span is_text_char r))) (snd (span is_text_char r)).
Proof.
  intros Ht Hi. rewrite run_element, Ht. cbv zeta.
  rewrite run_children_step, Hi.
  pose proof (stopped_span r) as Hs.
  now rewrite (stopped_skip_ws _ Hs), (stopped_text _ Hs).
Qed.

Lemma trimmed_app rest u : trimmed rest -> stopped u -> skip_ws (rest ++ u) = rest ++ u.
Proof.
  unfold trimmed. intros Hr Hu. destruct rest as [|c rest].
  - now apply stopped_skip_ws.
  - simpl. apply skip_ws_cons. eapply skip_ws_head. exact Hr.
Qed.

Lemma span_text_app rest u :
  text_ok rest -> stopped u -> span is_text_char (rest ++ u) = (rest, u).
Proof.
  intros Hr Hu. apply span_all; [exact Hr|]. now destruct u.
Qed.

Lemma ends_id_app x u : ends_id x -> at_tag u -> ends_id (x ++ u).
Proof.
  destruct x as [|c x]; [|trivial]. intros _. destruct u as [|c u]; [trivial|].
  simpl. now intros ->.
Qed.

Lemma run_tag_start_simple k w x :
  is_tag_id k = true -> spaces w -> ends_id (w ++ x) ->
  run tag_start (bslash :: k ++ w ++ x) = Ok k (skip_ws x).
Proof.
  intros Hk Hw Hx. apply run_tag_start_iff. exists [], (w ++ x).
  split; [now apply skip_ws_cons|]. split; [constructor|].
  split; [exact Hk|]. split; [exact Hx|].
  symmetry. now apply skip_ws_spaces.
Qed.

(** A tag, white space and a text, in front of a position where no inline
    element starts. *)
Lemma run_element_simple k w rest u :
  is_tag_id k = true -> spaces w -> text_ok rest -> trimmed rest ->
  ends_id (w ++ rest) -> at_tag u -> run inline_element u = Fail ->
  run element (bslash :: k ++ w ++ rest ++ u) = Ok (childless k rest) u.
Proof.
  intros Hk Hw Hr Ht He Hu Hi.
  pose proof (at_tag_stopped u Hu) as Hs.
  assert (E : run tag_start (bslash :: k ++ w ++ rest ++ u) = Ok k (rest ++ u)).
  { rewrite run_tag_start_simple; try assumption.
    - now rewrite trimmed_app.
    - rewrite app_assoc. now apply ends_id_app. }
  rewrite (run_element_childless _ E); rewrite span_text_app by assumption;
    [reflexivity|exact Hi].
Qed.

End Simple.

(** ** Tags in a row *)

Module Sequence.
Import USFM RuleFacts Run Entry Single Attr Texts Rec Walk Ends Trim Closing.
Import Lexical Tags Nodes Shape Simple.

Local Abbreviation children := (closure (child inline_element)).

Lemma run_elements_unfold s :
  run (closure element) s
  = match run element s with
    | Ok e r =>
        match run (closure element) r with
        | Ok l r' => Ok (e :: l) r'
        | Fail => Fail
        end
    | Fail => Ok [] s
    end.
Proof. apply run_closure_step; auto with parsers. Qed.

Lemma run_elements_nil : run (closure element) [] = Ok [] [].
Proof. now rewrite run_elements_unfold, run_element_at_end. Qed.

Lemma run_tag_end_nil : run tag_end [] = Fail.
Proof. now rewrite run_tag_end, run_backslash. Qed.

Lemma run_children_nil : run children [] = Ok [] [].
Proof. now rewrite run_children_step, run_inline_element_nil. Qed.

(** An inline element needs its closing tag. *)
Lemma run_inline_unclosed s e r :
  run element (skip_ws s) = Ok e r -> at_tag r -> run tag_end r = Fail ->
  run inline_element s = Fail.
Proof.
  intros He Hr Ht. rewrite run_inline_element, He.
  now rewrite run_attributes_at_tag, Ht.
Qed.

Lemma run_inline_closed s e r c r' :
  run element (skip_ws s) = Ok e r -> at_tag r -> run tag_end r = Ok c r' ->
  run inline_element s = Ok (mkInline e [] c) r'.
Proof.
  intros He Hr Ht. rewrite run_inline_element, He.
  now rewrite run_attributes_at_tag, Ht.
Qed.

Lemma simple_tag_app k rest u :
  simple_tag (k, rest) ++ u = bslash :: k ++ L " " ++ rest ++ u.
Proof.
  unfold simple_tag. cbn [fst snd]. rewrite <- app_comm_cons.
  now rewrite <- !app_assoc.
Qed.

(** No closing tag starts at a simple tag. *)
Lemma run_tag_end_simple kr u :
  simple_ok kr -> at_tag u -> run tag_end (simple_tag kr ++ u) = Fail.
Proof.
  destruct kr as [k rest]. intros (Hk & Hr & Ht & Hst) Hu. cbn [fst snd] in *.
  rewrite simple_tag_app.
  destruct (run tag_end _) as [[id|] r|] eqn:E; [| |reflexivity]; exfalso.
  - apply run_tag_end_some_iff in E.
    destruct E as (w1 & w2 & E & Hw1 & Hw2 & Hid).
    rewrite skip_ws_cons in E by reflexivity. cbn [app] in E.
    injection E as E.
    assert (E1 : run tag_id (k ++ L " " ++ rest ++ u) = Ok k (L " " ++ rest ++ u)).
    { apply run_tag_id_exact; [exact Hk|reflexivity]. }
    assert (E2 : run tag_id (k ++ L " " ++ rest ++ u) = Ok id (w2 ++ star :: r)).
    { change (k ++ L " " ++ rest ++ u) with (k ++ " "%char :: rest ++ u).
      rewrite E. apply run_tag_id_iff.
      split; [exact Hid|]. split.
      - rewrite skip_ws_spaces by assumption. now apply skip_ws_tag_id.
      - apply ends_id_spaces; [assumption|reflexivity]. }
    rewrite E1 in E2. inversion E2 as [[Hid' Hrest]].
    apply (f_equal skip_ws) in Hrest.
    rewrite (skip_ws_spaces (star :: r) Hw2) in Hrest.
    rewrite (@skip_ws_cons star r) in Hrest by reflexivity.
    change (L " " ++ rest ++ u) with (" "%char :: rest ++ u) in Hrest.
    rewrite skip_ws_space in Hrest by reflexivity.
    rewrite trimmed_app in Hrest by (try assumption; now apply at_tag_stopped).
    destruct rest as [|c rest].
    + simpl in Hrest. rewrite Hrest in Hu. discriminate Hu.
    + simpl in Hrest. inversion Hrest; subst c. discriminate Hst.
  - apply run_tag_end_none_iff in E. destruct E as (w & E & Hw).
    rewrite skip_ws_cons in E by reflexivity. cbn [app] in E.
    injection E as E.
    destruct (is_tag_id_inv k Hk) as (c & m & -> & Hc & _).
    destruct Hw as [|c' w' Hc' _]; simpl in E; inversion E; subst.
    + discriminate Hc.
    + apply alpha_not_space in Hc. congruence.
Qed.

Lemma simple_tag_at_tag kr u : at_tag (simple_tag kr ++ u).
Proof. reflexivity. Qed.

Lemma run_element_simple_tag kr u :
  simple_ok kr -> at_tag u -> run inline_element u = Fail ->
  run element (simple_tag kr ++ u) = Ok (simple_element kr) u.
Proof.
  destruct kr as [k rest]. intros (Hk & Hr & Ht & _) Hu Hi.
  rewrite simple_tag_app. unfold simple_element. cbn [fst snd] in *.
  apply run_element_simple; try assumption.
  - repeat constructor.
  - reflexivity.
Qed.

(** A sequence of simple tags: the elements it holds, and what cannot start
    at it. *)
Lemma simple_tags_rec l :
  Forall simple_ok l ->
  at_tag (flat_map simple_tag l)
  /\ run inline_element (flat_map simple_tag l) = Fail
  /\ run tag_end (flat_map simple_tag l) = Fail
  /\ run (closure element) (flat_map simple_tag l) = Ok (map simple_element l) [].
Proof.
  induction 1 as [|kr l Hkr _ (Ha & Hi & Ht & Hc)]; cbn [flat_map map].
  - split; [exact I|]. split; [apply run_inline_element_nil|].
    split; [apply run_tag_end_nil|apply run_elements_nil].
  - pose proof (run_element_simple_tag _ Hkr Ha Hi) as He.
    split; [reflexivity|]. split; [|split].
    + eapply run_inline_unclosed; [|exact Ha|exact Ht].
      rewrite (stopped_skip_ws _ (at_tag_stopped _ (simple_tag_at_tag kr _))).
      exact He.
    + now apply run_tag_end_simple.
    + now rewrite run_elements_unfold, He, Hc.
Qed.

Lemma parse_spaces w s d :
  spaces w -> run document s = Ok d [] -> parse (w ++ s) = inr d.
Proof.
  intros Hw Hd. apply parse_ok. exists []. split; [|reflexivity].
  rewrite run_document in *. now rewrite skip_ws_spaces.
Qed.

Lemma parse_at_tag s d :
  at_tag s -> run (closure element) s = Ok d [] -> parse s = inr d.
Proof.
  intros Hs Hd. apply parse_ok. exists []. split; [|reflexivity].
  now rewrite run_document, (stopped_skip_ws _ (at_tag_stopped _ Hs)).
Qed.

Lemma parse_simple_tags w l :
  spaces w -> Forall simple_ok l ->
  parse (w ++ flat_map simple_tag l) = inr (map simple_element l).
Proof.
  intros Hw Hl. apply parse_spaces; [exact Hw|].
  destruct (simple_tags_rec Hl) as (Ha & _ & _ & Hc).
  rewrite run_document, (stopped_skip_ws _ (at_tag_stopped _ Ha)). exact Hc.
Qed.

End Sequence.

(** ** Closing tags, read and misread *)

Module Nesting.
Import USFM RuleFacts Run Entry Single Attr Texts Rec Walk Ends Trim Closing.
Import Lexical Tags Nodes Shape Simple Sequence.

Local Abbreviation children := (closure (child inline_element)).

Lemma close_tag_at_tag c post : at_tag (close_tag c ++ post).
Proof. now destruct c. Qed.

Lemma run_tag_end_close c post :
  opt_all (fun id => is_tag_id id = true) c ->
  run tag_end (close_tag c ++ post) = Ok c post.
Proof.
  destruct c as [id|]; simpl.
  - intros Hid. now apply run_tag_end_closing.
  - intros _. apply run_tag_end_anonymous.
Qed.

Lemma star_text : text_ok [star] /\ trimmed [star] /\ ends_id ([] ++ [star]).
Proof. repeat split. repeat constructor. Qed.

(** A closing tag with an id, where no inline element follows, is an
    element: the id is its tag and the star its text. *)
Lemma run_element_closing id u :
  is_tag_id id = true -> at_tag u -> run inline_element u = Fail ->
  run element (closing id ++ u) = Ok (childless id [star]) u.
Proof.
  intros Hid Hu Hi. destruct star_text as (H1 & H2 & H3).
  replace (closing id ++ u) with (bslash :: id ++ [] ++ [star] ++ u)
    by (unfold closing; simpl; now rewrite <- app_assoc).
  apply run_element_simple; try assumption. constructor.
Qed.

(** At a last closing tag no inline element starts. *)
Lemma run_inline_last_close c :
  opt_all (fun id => is_tag_id id = true) c ->
  run inline_element (close_tag c) = Fail.
Proof.
  destruct c as [id|]; simpl.
  - intros Hid. eapply run_inline_unclosed with (r := []);
      [|exact I|apply run_tag_end_nil].
    change (skip_ws (closing id)) with (closing id).
    rewrite <- (app_nil_r (closing id)).
    apply run_element_closing; [exact Hid|exact I|apply run_inline_element_nil].
  - intros _. rewrite <- (app_nil_r anonymous_closing). apply run_inline_anonymous.
Qed.

Lemma run_children_one s i :
  run inline_element s = Ok i [] -> run children s = Ok [(i, Some [])] [].
Proof.
  intros H. rewrite run_children_step, H.
  change (snd (span is_text_char (skip_ws []))) with (@nil ascii).
  now rewrite run_children_nil.
Qed.

(** An element with one child that ends the input. *)
Lemma run_element_one_child s t r i :
  run tag_start s = Ok t r ->
  run inline_element (snd (span is_text_char r)) = Ok i [] ->
  run element s
  = Ok (mkElement t (Some (fst (span is_text_char r))) [(i, Some [])] (Some [])) [].
Proof.
  intros Ht Hi. rewrite run_element, Ht. cbv zeta.
  now rewrite (run_children_one _ Hi).
Qed.

Lemma parse_one_element s e : run element s = Ok e [] -> at_tag s -> parse s = inr [e].
Proof.
  intros He Hs. apply parse_at_tag; [exact Hs|].
  now rewrite run_elements_unfold, He, run_elements_nil.
Qed.

(** An element whose only child is an element without children, closed by
    any closing tag. *)
Lemma parse_one_child a w1 b w2 rest c :
  is_tag_id a = true -> is_tag_id b = true -> spaces w1 -> spaces w2 ->
  text_ok rest -> trimmed rest -> ends_id (w2 ++ rest) ->
  opt_all (fun id => is_tag_id id = true) c ->
  parse (bslash :: a ++ w1 ++ bslash :: b ++ w2 ++ rest ++ close_tag c)
  = inr [mkElement a (Some []) [(mkInline (childless b rest) [] c, Some [])] (Some [])].
Proof.
  intros Ha Hb Hw1 Hw2 Hr Ht He Hc.
  assert (Eb : run element (bslash :: b ++ w2 ++ rest ++ close_tag c)
               = Ok (childless b rest) (close_tag c)).
  { apply run_element_simple; try assumption.
    - rewrite <- (app_nil_r (close_tag c)). apply close_tag_at_tag.
    - now apply run_inline_last_close. }
  assert (Ei : run inline_element (bslash :: b ++ w2 ++ rest ++ close_tag c)
               = Ok (mkInline (childless b rest) [] c) []).
  { eapply run_inline_closed.
    - rewrite skip_ws_cons by reflexivity. exact Eb.
    - rewrite <- (app_nil_r (close_tag c)). apply close_tag_at_tag.
    - rewrite <- (app_nil_r (close_tag c)). now apply run_tag_end_close. }
  apply parse_one_element; [|reflexivity].
  assert (Es : run tag_start (bslash :: a ++ w1 ++ bslash :: b ++ w2 ++ rest ++ close_tag c)
               = Ok a (bslash :: b ++ w2 ++ rest ++ close_tag c)).
  { rewrite run_tag_start_simple; try assumption.
    - now rewrite skip_ws_cons by reflexivity.
    - apply ends_id_spaces; [assumption|reflexivity]. }
  rewrite (run_element_one_child _ Es (i := mkInline (childless b rest) [] c));
    [reflexivity|exact Ei].
Qed.

(** After an element without children, a closing tag with an id is read as
    a second element. *)
Lemma parse_closing_at_top a w rest c :
  is_tag_id a = true -> spaces w -> text_ok rest -> trimmed rest ->
  ends_id (w ++ rest) -> is_tag_id c = true ->
  parse (bslash :: a ++ w ++ rest ++ closing c)
  = inr [childless a rest; childless c [star]].
Proof.
  intros Ha Hw Hr Ht He Hc.
  assert (Hi : run inline_element (closing c) = Fail)
    by now apply (run_inline_last_close (Some c)).
  assert (E1 : run element (bslash :: a ++ w ++ rest ++ closing c)
               = Ok (childless a rest) (closing c)).
  { apply run_element_simple; try assumption. reflexivity. }
  assert (E2 : run element (closing c) = Ok (childless c [star]) []).
  { rewrite <- (app_nil_r (closing c)).
    apply run_element_closing; [exact Hc|exact I|apply run_inline_element_nil]. }
  apply parse_at_tag; [reflexivity|].
  rewrite run_elements_unfold, E1, run_elements_unfold, E2.
  now rewrite run_elements_nil.
Qed.

(** After an element without children, the closing tag without id is left
    over. *)
Lemma document_anonymous_at_top a w rest :
  is_tag_id a = true -> spaces w -> text_ok rest -> trimmed rest ->
  ends_id (w ++ rest) ->
  run document (bslash :: a ++ w ++ rest ++ anonymous_closing)
  = Ok [childless a rest] anonymous_closing.
Proof.
  intros Ha Hw Hr Ht He.
  assert (Hi : run inline_element anonymous_closing = Fail)
    by now apply (run_inline_last_close None).
  assert (E1 : run element (bslash :: a ++ w ++ rest ++ anonymous_closing)
               = Ok (childless a rest) anonymous_closing).
  { apply run_element_simple; try assumption. reflexivity. }
  rewrite run_document, skip_ws_cons by reflexivity.
  rewrite run_elements_unfold, E1, run_elements_unfold.
  assert (E2 : run element anonymous_closing = Fail).
  { rewrite run_element, run_tag_start. reflexivity. }
  now rewrite E2.
Qed.

(** Two closing tags with ids in a row: the first is read as an element,
    which the second closes. *)
Lemma run_inline_two_closings cb ca :
  is_tag_id cb = true -> is_tag_id ca = true ->
  run inline_element (closing cb ++ closing ca)
  = Ok (mkInline (childless cb [star]) [] (Some ca)) [].
Proof.
  intros Hb Ha. eapply run_inline_closed.
  - change (skip_ws (closing cb ++ closing ca)) with (closing cb ++ closing ca).
    apply run_element_closing; [exact Hb|reflexivity|].
    now apply (run_inline_last_close (Some ca)).
  - reflexivity.
  - rewrite <- (app_nil_r (closing ca)). now apply run_tag_end_closing.
Qed.

Lemma parse_two_closings v a b x cb ca :
  is_tag_id v = true -> is_tag_id a = true -> simple_ok (b, x) ->
  is_tag_id cb = true -> is_tag_id ca = true ->
  parse (simple_tag (v, []) ++ simple_tag (a, []) ++ simple_tag (b, x)
         ++ closing cb ++ closing ca)
  = inr [childless v []; childless a [];
         mkElement b (Some x)
           [(mkInline (childless cb [star]) [] (Some ca), Some [])] (Some [])].
Proof.
  intros Hv Ha Hbx Hcb Hca.
  assert (Hsv : simple_ok (v, [])) by (repeat split; [assumption|constructor]).
  assert (Hsa : simple_ok (a, [])) by (repeat split; [assumption|constructor]).
  pose proof (@run_inline_two_closings cb ca Hcb Hca) as Ei.
  set (T := closing cb ++ closing ca) in *.
  assert (HT : at_tag T) by reflexivity.
  assert (Eb : run element (simple_tag (b, x) ++ T)
               = Ok (mkElement b (Some x)
                       [(mkInline (childless cb [star]) [] (Some ca), Some [])]
                       (Some [])) []).
  { destruct Hbx as (Hb & Hx & Ht & _). cbn [fst snd] in *.
    assert (Es : run tag_start (simple_tag (b, x) ++ T) = Ok b (x ++ T)).
    { rewrite simple_tag_app, run_tag_start_simple;
        [|assumption|repeat constructor|reflexivity].
      rewrite trimmed_app; [reflexivity|assumption|now apply at_tag_stopped]. }
    rewrite (run_element_one_child _ Es
               (i := mkInline (childless cb [star]) [] (Some ca)));
      rewrite span_text_app; try assumption; try now apply at_tag_stopped.
    reflexivity. }
  assert (Hib : run inline_element (simple_tag (b, x) ++ T) = Fail).
  { eapply run_inline_unclosed with (r := []); [|exact I|apply run_tag_end_nil].
    rewrite (stopped_skip_ws _ (at_tag_stopped _ (simple_tag_at_tag _ _))).
    exact Eb. }
  pose proof (@run_element_simple_tag (a, []) (simple_tag (b, x) ++ T) Hsa
                (simple_tag_at_tag _ _) Hib) as Ea.
  assert (Hia : run inline_element (simple_tag (a, []) ++ simple_tag (b, x) ++ T) = Fail).
  { eapply run_inline_unclosed; [|apply simple_tag_at_tag|].
    - rewrite (stopped_skip_ws _ (at_tag_stopped _ (simple_tag_at_tag _ _))).
      exact Ea.
    - now apply run_tag_end_simple. }
  pose proof (@run_element_simple_tag (v, [])
                (simple_tag (a, []) ++ simple_tag (b, x) ++ T) Hsv
                (simple_tag_at_tag _ _) Hia) as Ev.
  apply parse_at_tag; [reflexivity|].
  rewrite run_elements_unfold, Ev, run_elements_unfold, Ea, run_elements_unfold, Eb.
  now rewrite run_elements_nil.
Qed.

End Nesting.

(** ** Attribute lists, written and read *)

Module Printed.
Import USFM RuleFacts Run Entry Single Attr Texts Rec Walk Ends Trim Closing Frame.
Import Lexical Tags Nodes Shape Simple Sequence.

Lemma run_pair_skip s : run pair (skip_ws s) = run pair s.
Proof. apply run_rule_skip. Qed.

(** A pair written with a value, with any white space around the equals
    sign. *)
Lemma run_pair_valued k w1 w2 v r :
  is_tag_id k = true -> spaces w1 -> spaces w2 -> quoted v ->
  run pair (k ++ w1 ++ L "=" ++ w2 ++ v ++ r) = Ok (mkPair k (Some v)) r.
Proof.
  intros Hk H1 H2 (m & -> & Hm). rewrite run_pair, run_key.
  rewrite run_tag_id_exact by (auto; apply after_key; auto).
  rewrite run_token, skip_ws_spaces by assumption.
  simpl app. rewrite skip_ws_cons by reflexivity.
  cbn [strip_prefix L list_ascii_of_string].
  replace (Ascii.eqb "="%char "="%char) with true by reflexivity.
  assert (E : run value (w2 ++ dquote :: (m ++ [dquote]) ++ r)
              = Ok (dquote :: m ++ [dquote]) r).
  { apply run_value_iff. exists m. split; [|now split].
    rewrite skip_ws_spaces by assumption. rewrite skip_ws_cons by reflexivity.
    now rewrite <- app_assoc. }
  now rewrite E.
Qed.

Lemma run_pair_stopped u : stopped u -> run pair u = Fail.
Proof.
  intros Hu. rewrite run_pair, run_key.
  assert (E : run tag_id u = Fail).
  { apply run_tag_id_fails. rewrite (stopped_skip_ws u Hu).
    destruct u as [|c u]; [exact I|]. now destruct (stop_char c Hu) as (_ & H & _). }
  now rewrite E.
Qed.

(** What follows a printed pair: the next printed pair, or the end of the
    list. *)
Lemma after_pair ps u :
  stopped u ->
  ends_id (flat_map (fun p => L " " ++ print_pair p) ps ++ u)
  /\ (Forall pair_ok ps ->
      strip_prefix (L "=")
        (skip_ws (flat_map (fun p => L " " ++ print_pair p) ps ++ u)) = None).
Proof.
  intros Hu. destruct ps as [|p ps]; cbn [flat_map app].
  - rewrite (stopped_skip_ws u Hu). destruct u as [|c u]; [now split|].
    destruct (stop_char c Hu) as (_ & _ & Hi & _ & He & _).
    split; [exact Hi|]. intros _. cbn [strip_prefix L list_ascii_of_string].
    now rewrite He.
  - split; [reflexivity|]. intros Hp. inversion Hp as [|p' ps' [Hk _] _]; subst.
    rewrite <- !app_assoc.
    assert (Hsp : spaces (L " ")) by (repeat constructor).
    rewrite (skip_ws_spaces _ Hsp).
    unfold print_pair.
    destruct (is_tag_id_inv _ Hk) as (c & m & -> & Hc & _).
    rewrite <- !app_assoc. cbn [app].
    rewrite skip_ws_cons by now apply alpha_not_space.
    cbn [strip_prefix L list_ascii_of_string].
    destruct (Ascii.eqb "="%char c) eqn:E; [|reflexivity].
    apply Ascii.eqb_eq in E. subst c. discriminate Hc.
Qed.

Lemma run_pair_printed p x :
  pair_ok p -> ends_id x -> strip_prefix (L "=") (skip_ws x) = None ->
  run pair (L " " ++ print_pair p ++ x) = Ok p x.
Proof.
  assert (Hsp : spaces (L " ")) by (repeat constructor).
  destruct p as [k [v|]]; intros [Hk Hv] Hx He; cbn [pair_key pair_value] in *;
    rewrite <- run_pair_skip;
    rewrite (skip_ws_spaces _ Hsp), run_pair_skip; unfold print_pair;
    cbn [pair_key pair_value]; rewrite <- app_assoc.
  - rewrite <- app_assoc.
    apply (@run_pair_valued k [] [] v x); (assumption || constructor).
  - cbn [app]. now apply run_pair_no_value.
Qed.

Lemma run_pairs_step s :
  run (closure pair) s
  = match run pair s with
    | Ok a r =>
        match run (closure pair) r with
        | Ok l r' => Ok (a :: l) r'
        | Fail => Fail
        end
    | Fail => Ok [] s
    end.
Proof. apply run_closure_step; auto with parsers. Qed.

Lemma run_pairs_printed ps u :
  Forall pair_ok ps -> stopped u ->
  run (closure pair) (flat_map (fun p => L " " ++ print_pair p) ps ++ u) = Ok ps u.
Proof.
  intros Hps Hu. induction Hps as [|p ps Hp Hps IH]; cbn [flat_map app].
  - now rewrite run_pairs_step, run_pair_stopped.
  - rewrite run_pairs_step. rewrite <- !app_assoc.
    destruct (@after_pair ps u Hu) as [H1 H2].
    rewrite run_pair_printed; [|assumption|assumption|now apply H2].
    now rewrite IH.
Qed.

(** Reading a printed attribute list gives the list back. *)
Lemma run_attributes_printed ps u :
  Forall pair_ok ps -> stopped u ->
  run attributes (print_attributes ps ++ u) = Ok ps u.
Proof.
  intros Hps Hu. unfold print_attributes. cbn [app].
  rewrite run_attributes, run_pipe. rewrite skip_ws_cons by reflexivity.
  replace (Ascii.eqb bar bar) with true by reflexivity.
  now rewrite run_pairs_printed.
Qed.

End Printed.

(** ** White space around a text, and the first pipe *)

Module Blank.
Import USFM RuleFacts Run Entry Single Attr Texts Rec Walk Ends Trim Closing Frame.
Import Reach Eats Pass.
Import Lexical Tags Nodes Shape Simple Sequence.

Lemma skip_ws_blank w : spaces w -> skip_ws w = [].
Proof. intros H. rewrite <- (app_nil_r w). now rewrite skip_ws_spaces. Qed.

Lemma parse_blank w : spaces w -> parse w = inr [].
Proof.
  intros H. rewrite <- (app_nil_r w). apply parse_spaces; [exact H|].
  rewrite run_document. apply run_elements_nil.
Qed.

Lemma start_skip w s far : spaces w -> start (w ++ s) far = start s far.
Proof. intros H. unfold start, rule. now rewrite skip_ws_spaces. Qed.

(** [document] never fails: its closure ends at the first element that does
    not parse. *)
Lemma document_total s far : exists d r far', document s far = (Ok d r, far').
Proof.
  destruct (document s far) as [[d r|] f] eqn:E; [now exists d, r, f|].
  exfalso. unfold document, rule, closure in E.
  destruct (closure_n (length (skip_ws s)) element (skip_ws s) far)
    as [[l r|] f'] eqn:Ec; [discriminate|].
  now apply closure_n_never_fails in Ec.
Qed.

Lemma document_spaces w s far :
  spaces w -> document (w ++ s) far = document s far.
Proof. intros H. unfold document, rule. now rewrite skip_ws_spaces. Qed.

Lemma parse_leading_spaces w s :
  spaces w -> parse (w ++ s) = shift_error (length w) (parse s).
Proof.
  intros Hw. destruct (document_total s None) as (d & r & far & Hd).
  assert (Hd' : document (w ++ s) None = (Ok d r, far))
    by now rewrite document_spaces.
  rewrite (parse_by_state _ Hd), (parse_by_state _ Hd').
  destruct (skip_ws r) as [|c r'] eqn:Er; [reflexivity|].
  destruct (note_le (length (c :: r')) ExpEnd (furthest_of far))
    as (rem & e & -> & Hle).
  assert (Hr : length r <= length s).
  { pose proof (@shrinks_rule _ (closure element) (@shrinks_closure _ element)
                  _ _ _ _ _ Hd) as H.
    pose proof (skip_ws_length s). lia. }
  pose proof (skip_ws_length r) as Hs. rewrite Er in Hs.
  cbn [shift_error position expecting]. rewrite length_app.
  do 2 f_equal. lia.
Qed.

(** The first pipe of a text that parses starts an attribute list that a
    closing tag follows. *)
Lemma first_pipe_closed pre z d :
  barfree pre -> parse (pre ++ bar :: z) = inr d -> closed_at (bar :: z).
Proof.
  intros Hpre Hp. apply (parse_closes _ Hp).
  rewrite skip_ws_frame by reflexivity. apply reach_steps.
  unfold barfree in *. rewrite <- (span_app is_space pre) in Hpre.
  apply Forall_app in Hpre. apply Hpre.
Qed.

End Blank.

(** ** The failure recorded at a pipe *)

Module Quiet.
Import USFM RuleFacts Run Entry Single Attr Texts Rec Walk Ends Trim Closing Frame.
Import Lexical Tags Nodes Shape Simple Sequence.

Lemma quiet_ret {A} (a : A) : quiet (ret a).
Proof. intros s far a' r far' H. now inversion H. Qed.

Lemma quiet_bind {A B} (p : parser A) (k : A -> parser B) :
  quiet p -> (forall a, quiet (k a)) -> quiet (bind p k).
Proof.
  intros Hp Hk s far b r far'. unfold bind.
  destruct (p s far) as [[a r1|] f1] eqn:E; [|discriminate].
  intros H. apply Hk in H. apply Hp in E. congruence.
Qed.

Lemma quiet_rule {A} (p : parser A) : quiet p -> quiet (rule p).
Proof. intros Hp s far a r far' H. apply rule_ok in H. now apply Hp in H. Qed.

Lemma quiet_token t : quiet (token t).
Proof.
  intros s far a r far'. unfold token.
  destruct (strip_prefix t (skip_ws s)); [|discriminate].
  intros H. now inversion H.
Qed.

Lemma quiet_tag_id : quiet tag_id.
Proof.
  apply quiet_rule. intros [|c s] far a r far'; [discriminate|].
  destruct (is_alpha c); [|discriminate].
  destruct (span is_id_char s). intros H. now inversion H.
Qed.

Lemma quiet_ws : quiet ws.
Proof.
  apply quiet_rule. intros s far a r far'.
  destruct (span is_space s). intros H. now inversion H.
Qed.

Lemma quiet_text : quiet text.
Proof.
  apply quiet_rule. intros s far a r far'.
  destruct (span is_text_char s). intros H. now inversion H.
Qed.

Lemma quiet_tag_start : quiet tag_start.
Proof.
  unfold tag_start, backslash. apply quiet_rule.
  apply quiet_bind; [apply quiet_rule, quiet_token|intros _].
  apply quiet_bind; [apply quiet_tag_id|intros t].
  apply quiet_bind; [apply quiet_ws|intros _]. apply quiet_ret.
Qed.

(** The whole result of a quiet parser, from its outcome. *)
Lemma quiet_run {A} (p : parser A) s far a r :
  blind p -> quiet p -> run p s = Ok a r -> p s far = (Ok a r, far).
Proof.
  intros Hb Hq Hr. pose proof (Hb s far None) as E. fold (run p s) in E.
  destruct (p s far) as [o far'] eqn:Ep. simpl in E. rewrite Hr in E. subst o.
  now rewrite (Hq _ _ _ _ _ Ep).
Qed.

Lemma text_at s far :
  text s far = (Ok (fst (span is_text_char (skip_ws s)))
                   (snd (span is_text_char (skip_ws s))), far).
Proof. apply quiet_run; [apply blind_text|apply quiet_text|apply run_text]. Qed.

(** The failures after a rule has failed at a pipe for want of a backslash:
    the failure is recorded there. *)
Local Abbreviation at_bar z far :=
  (Some (mkTrail (S (@length ascii z), ExpToken [bslash]) false
           (note (S (@length ascii z)) (ExpToken [bslash]) (furthest_of far)))).

Lemma at_bar_again z far : at_bar z (at_bar z far) = at_bar z far.
Proof. cbn [furthest_of recorded]. now rewrite note_again. Qed.

Lemma tag_start_at_bar z far : tag_start (bar :: z) far = (Fail, at_bar z far).
Proof.
  unfold tag_start, backslash, rule, bind, token, raise.
  do 3 change (skip_ws (bar :: z)) with (bar :: z).
  cbn [strip_prefix]. change (Ascii.eqb bslash bar) with false.
  cbn [leave is_pattern length]. now rewrite note_again.
Qed.

(** At a pipe no element starts: the backslash of its tag is missing. *)
Lemma element_at_bar z far : element (bar :: z) far = (Fail, at_bar z far).
Proof.
  rewrite element_unfold. unfold element_of, rule, bind.
  change (skip_ws (bar :: z)) with (bar :: z). rewrite tag_start_at_bar.
  cbn [leave]. now rewrite note_again.
Qed.

Lemma closure_n_stops {A} (p : parser A) n s far far' :
  p s far = (Fail, far') -> closure_n n p s far = (Ok [] s, far').
Proof. intros H. destruct n; simpl; now rewrite H. Qed.

Lemma closure_n_one {A} (p : parser A) n s far a r far1 far2 :
  p s far = (Ok a r, far1) -> length r < length s -> 0 < n ->
  p r far1 = (Fail, far2) ->
  closure_n n p s far = (Ok [a] r, far2).
Proof.
  intros H1 Hl Hn H2. destruct n as [|n]; [lia|]. cbn [closure_n].
  rewrite H1. apply Nat.ltb_lt in Hl. rewrite Hl.
  now rewrite (@closure_n_stops _ p n r far1 far2 H2).
Qed.

Lemma children_at_bar z far :
  closure (child inline_element) (bar :: z) far
  = (Ok [] (bar :: z), at_bar z far).
Proof.
  apply closure_n_stops. unfold child, bind, inline_element, inline_element_of, rule.
  change (skip_ws (bar :: z)) with (bar :: z). unfold bind.
  rewrite element_at_bar. cbn [leave]. now rewrite note_again.
Qed.

(** An element whose text ends at a pipe: it has no child, and the failure
    of the search for one is recorded at the pipe. *)
Lemma element_before_bar s far k r m z :
  run tag_start s = Ok k r -> span is_text_char r = (m, bar :: z) ->
  element s far = (Ok (childless k m) (bar :: z), at_bar z far).
Proof.
  intros Hs Hm. rewrite element_unfold. unfold element_of, rule.
  assert (Hs' : run tag_start (skip_ws s) = Ok k r).
  { rewrite <- Hs. apply run_rule_skip. }
  unfold bind at 1.
  rewrite (@quiet_run _ tag_start (skip_ws s) far k r
             blind_tag_start quiet_tag_start Hs').
  assert (Hr : skip_ws r = r) by (eapply run_tag_start_skipped; exact Hs).
  unfold bind at 1. unfold optional at 1. rewrite text_at, Hr, Hm. cbn [fst snd].
  unfold bind at 1. rewrite children_at_bar.
  unfold bind at 1. unfold optional at 1. rewrite text_at. reflexivity.
Qed.

(** A text made of one element whose text ends at a pipe. *)
Lemma document_before_bar s k r m z :
  run tag_start s = Ok k r -> span is_text_char r = (m, bar :: z) ->
  document s None = (Ok [childless k m] (bar :: z), at_bar z None).
Proof.
  intros Hs Hm. unfold document, rule.
  assert (Hs' : run tag_start (skip_ws s) = Ok k r).
  { rewrite <- Hs. apply run_rule_skip. }
  pose proof (@element_before_bar (skip_ws s) None k r m z Hs' Hm) as He.
  assert (Hl : length (bar :: z) < length (skip_ws s)).
  { pose proof (run_consumes _ consumes_tag_start Hs') as L0.
    pose proof (span_length is_text_char r) as L1. rewrite Hm in L1.
    simpl in *. lia. }
  unfold closure.
  assert (Hn : 0 < length (skip_ws s)) by lia.
  rewrite (@closure_n_one _ element _ _ _ _ _ _ _ He Hl Hn
             (element_at_bar z _)).
  now rewrite at_bar_again.
Qed.

Lemma parse_before_bar s k r m z :
  run tag_start s = Ok k r -> span is_text_char r = (m, bar :: z) ->
  parse s = inl (mkError (length s - S (length z)) (ExpToken [bslash])).
Proof.
  intros Hs Hm. rewrite (parse_by_state _ (document_before_bar _ Hs Hm)).
  change (skip_ws (bar :: z)) with (bar :: z).
  cbn [furthest_of recorded note length]. now rewrite Nat.ltb_irrefl.
Qed.

Lemma parse_top_pipe k w rest z :
  is_tag_id k = true -> spaces w -> text_ok rest -> trimmed rest ->
  ends_id (w ++ rest) ->
  parse (bslash :: k ++ w ++ rest ++ bar :: z)
  = inl (mkError (length (bslash :: k ++ w ++ rest)) (ExpToken [bslash])).
Proof.
  intros Hk Hw Hr Ht He.
  assert (Hs : stopped (bar :: z)) by reflexivity.
  assert (E : run tag_start (bslash :: k ++ w ++ rest ++ bar :: z)
              = Ok k (rest ++ bar :: z)).
  { rewrite run_tag_start_simple; try assumption.
    - now rewrite trimmed_app.
    - rewrite app_assoc. destruct (w ++ rest); [reflexivity|exact He]. }
  rewrite (@parse_before_bar _ k _ rest z E (@span_text_app rest (bar :: z) Hr Hs)).
  do 2 f_equal. cbn [length]. rewrite !length_app. cbn [length]. lia.
Qed.

End Quiet.

(** ** Printed trees, read back *)

Module RoundTrip.
Import USFM RuleFacts Run Entry Single Attr Texts Rec Walk Ends Trim Closing Frame.
Import Lexical Tags Nodes Shape Simple Sequence Nesting Printed.

Local Abbreviation children := (closure (child inline_element)).

Lemma print_element_flat k lt ch ft :
  print_element (mkElement k lt ch ft)
  = bslash :: k ++ L " " ++ opt_str lt ++ flat_map print_child ch.
Proof.
  cbn [print_element].
  rewrite (@flat_map_ext _ _ _ print_child); [reflexivity|].
  intros [[e a c] tx]. reflexivity.
Qed.

Lemma print_element_at_tag e u : at_tag (print_element e ++ u).
Proof. now destruct e. Qed.

Lemma print_children_stopped ch u :
  stopped u -> stopped (flat_map print_child ch ++ u).
Proof.
  intros Hu. destruct ch as [|[[e a c] tx] ch]; [exact Hu|].
  cbn [flat_map]. unfold print_child at 1, print_inline. cbn [fst snd].
  rewrite <- !app_assoc. apply at_tag_stopped, print_element_at_tag.
Qed.

Lemma height_children k lt ch ft n :
  height (mkElement k lt ch ft) <= S n ->
  Forall (fun c => height_inline (fst c) <= n) ch.
Proof.
  cbn [height]. intros H. apply le_S_n in H.
  induction ch as [|[[e a c] tx] ch IH]; [constructor|].
  simpl in H. constructor; [simpl; lia|]. apply IH. lia.
Qed.

Lemma print_attrs_stopped a u : stopped u -> stopped (print_attrs a ++ u).
Proof. intros Hu. destruct a; [exact Hu|reflexivity]. Qed.

(** What follows the element of an inline element: its attributes and its
    closing tag. *)
Lemma run_attributes_print_attrs a u :
  Forall pair_ok a -> at_tag u ->
  run attributes (print_attrs a ++ u) = Ok a u.
Proof.
  intros Ha Hu. destruct a as [|p a].
  - now apply run_attributes_at_tag.
  - apply run_attributes_printed; [exact Ha|now apply at_tag_stopped].
Qed.

Lemma run_inline_print_attrs a u :
  a <> [] -> run inline_element (print_attrs a ++ u) = Fail.
Proof.
  destruct a as [|p a]; [congruence|]. intros _. apply run_inline_at_bar.
Qed.

(** The inline element of a printed element, its attributes and its closing
    tag. *)
Lemma run_inline_printed e a c v :
  Forall pair_ok a -> opt_all (fun id => is_tag_id id = true) c ->
  run element (print_element e ++ print_attrs a ++ close_tag c ++ v)
  = Ok e (print_attrs a ++ close_tag c ++ v) ->
  run inline_element (print_inline (mkInline e a c) ++ v) = Ok (mkInline e a c) v.
Proof.
  intros Ha Hc He. cbn [print_inline]. rewrite <- !app_assoc.
  rewrite run_inline_element.
  rewrite (stopped_skip_ws _ (at_tag_stopped _ (print_element_at_tag e _))).
  rewrite He, run_attributes_print_attrs by (try assumption; apply close_tag_at_tag).
  now rewrite run_tag_end_close.
Qed.

(** The text behind a child, and the children behind it. *)
Lemma run_children_cons s i tx R l r :
  run inline_element s = Ok i (tx ++ R) -> text_node tx -> stopped R ->
  run children R = Ok l r ->
  run children s = Ok ((i, Some tx) :: l) r.
Proof.
  intros Hi [Ht Hs] HR Hl. rewrite run_children_step, Hi.
  rewrite trimmed_app, span_text_app by assumption. cbn [fst snd].
  now rewrite Hl.
Qed.

Lemma run_element_children k lt P ch u :
  is_tag_id k = true -> text_node lt -> stopped P -> stopped u ->
  run children P = Ok ch u ->
  run element (bslash :: k ++ L " " ++ lt ++ P)
  = Ok (mkElement k (Some lt) ch (Some [])) u.
Proof.
  intros Hk [Ht Hs] HP Hu Hc.
  assert (E : run tag_start (bslash :: k ++ L " " ++ lt ++ P) = Ok k (lt ++ P)).
  { rewrite run_tag_start_simple; [|assumption|repeat constructor|reflexivity].
    now rewrite trimmed_app. }
  rewrite run_element, E. cbv zeta. rewrite span_text_app by assumption.
  cbn [fst snd]. rewrite Hc.
  now rewrite (stopped_skip_ws u Hu), (stopped_text u Hu).
Qed.

Section Below.
Variable n : nat.
Hypothesis IH :
  forall e u, height e <= n -> anonymous e -> stopped u ->
              run inline_element u = Fail ->
              run element (print_element e ++ u) = Ok e u.

Lemma inline_fails_behind a v :
  run inline_element (print_attrs a ++ anonymous_closing ++ v) = Fail.
Proof.
  destruct a as [|p a]; [apply run_inline_anonymous|apply run_inline_at_bar].
Qed.

Lemma run_anonymous_children ch :
  forall u, Forall (fun c => height_inline (fst c) <= n) ch ->
    Forall anonymous_child ch -> stopped u -> run inline_element u = Fail ->
    run children (flat_map print_child ch ++ u) = Ok ch u.
Proof.
  induction ch as [|c ch IHch]; intros u Hh Ha Hu Hi.
  - cbn [flat_map app]. now rewrite run_children_step, Hi.
  - inversion Hh as [|c0 ch0 Hhc Hhch]; subst.
    inversion Ha as [|c0 ch0 Hac Hach]; subst.
    destruct Hac as [e a tx He Hp Htx]. cbn [fst height_inline] in Hhc.
    cbn [flat_map]. unfold print_child at 1. cbn [fst snd opt_str].
    rewrite <- !app_assoc.
    set (R := flat_map print_child ch ++ u).
    assert (HR : stopped R) by now apply print_children_stopped.
    apply run_children_cons with (tx := tx) (R := R);
      [|assumption|assumption|now apply IHch].
    apply run_inline_printed with (c := None); [assumption|exact I|].
    apply IH; [assumption|assumption| |apply inline_fails_behind].
    apply print_attrs_stopped. reflexivity.
Qed.

End Below.

(** Reading a printed tree whose closing tags are without id gives the tree
    back, in front of any position where no inline element starts. *)
Lemma run_element_printed n :
  forall e u, height e <= n -> anonymous e -> stopped u ->
              run inline_element u = Fail ->
              run element (print_element e ++ u) = Ok e u.
Proof.
  induction n as [|n IH]; intros e u Hh He Hu Hi.
  - destruct e. simpl in Hh. lia.
  - destruct He as [k lt ch Hk Hlt Hch].
    rewrite print_element_flat. cbn [opt_str].
    rewrite <- app_comm_cons, <- !app_assoc.
    apply run_element_children; try assumption.
    + now apply print_children_stopped.
    + apply (run_anonymous_children IH); try assumption.
      eapply height_children; exact Hh.
Qed.

Lemma run_element_anonymous e u :
  anonymous e -> stopped u -> run inline_element u = Fail ->
  run element (print_element e ++ u) = Ok e u.
Proof. apply (@run_element_printed (height e)). apply le_n. Qed.

(** Behind the children of a top-level element, a closing tag with an id is
    read as an element that nothing closes. *)
Lemma run_inline_bogus id tx R l :
  is_tag_id id = true -> text_ok tx -> stopped R -> run children R = Ok l [] ->
  run inline_element (closing id ++ tx ++ R) = Fail.
Proof.
  intros Hid Ht HR Hl.
  assert (E : run element (closing id ++ tx ++ R)
              = Ok (mkElement id (Some (star :: tx)) l (Some [])) []).
  { assert (Es : run tag_start (closing id ++ tx ++ R) = Ok id (star :: tx ++ R)).
    { replace (closing id ++ tx ++ R) with (bslash :: id ++ [] ++ star :: tx ++ R)
        by (unfold closing; simpl; now rewrite <- app_assoc).
      rewrite run_tag_start_simple; [|assumption|constructor|reflexivity].
      now rewrite skip_ws_cons by reflexivity. }
    rewrite run_element, Es. cbv zeta.
    assert (Hsp : span is_text_char (star :: tx ++ R) = (star :: tx, R)).
    { apply (@span_text_app (star :: tx) R); [|exact HR].
      constructor; [reflexivity|exact Ht]. }
    rewrite Hsp. cbn [fst snd]. now rewrite Hl. }
  eapply run_inline_unclosed with (r := []); [|exact I|apply run_tag_end_nil].
  change (skip_ws (closing id ++ tx ++ R)) with (closing id ++ tx ++ R).
  exact E.
Qed.

Lemma run_closed_children ch :
  Forall closed_child ch -> run children (flat_map print_child ch) = Ok ch [].
Proof.
  induction 1 as [|c ch Hc Hch IHch].
  - apply run_children_nil.
  - destruct Hc as [e a cl tx He Hp Hcl Htx].
    cbn [flat_map]. unfold print_child at 1. cbn [fst snd opt_str].
    rewrite <- !app_assoc.
    set (R := flat_map print_child ch) in *.
    assert (HR : stopped R).
    { rewrite <- (app_nil_r R). now apply print_children_stopped. }
    apply run_children_cons with (tx := tx) (R := R); try assumption.
    apply run_inline_printed; try assumption.
    apply run_element_anonymous; [assumption| |].
    + apply print_attrs_stopped, at_tag_stopped, close_tag_at_tag.
    + destruct a as [|p a]; [|apply run_inline_at_bar].
      destruct cl as [id|]; [|apply run_inline_anonymous].
      cbn [print_attrs app close_tag].
      apply run_inline_bogus with (l := ch); try assumption. apply Htx.
Qed.

Lemma run_element_top_level e :
  top_level e -> run element (print_element e) = Ok e [].
Proof.
  intros [k lt ch Hk Hlt Hch]. rewrite print_element_flat. cbn [opt_str].
  apply run_element_children; try assumption; try exact I.
  - rewrite <- (app_nil_r (flat_map _ _)). now apply print_children_stopped.
  - now apply run_closed_children.
Qed.

Lemma parse_printed e : top_level e -> parse (print_element e) = inr [e].
Proof.
  intros He. apply parse_one_element; [now apply run_element_top_level|].
  rewrite <- (app_nil_r (print_element e)). apply print_element_at_tag.
Qed.

End RoundTrip.

(** * Further properties of the rules and of the driver *)

(** ** The lexical rules *)

(** X1: [tag_id] succeeds exactly when the input, behind the white space
    that is skipped, begins with a tag id that no further letter, digit or
    hyphen continues: its node is that id, the longest match of the pattern,
    and the rest is what follows it.  It fails exactly when the first
    character behind the white space is no letter. *)
Theorem tag_id_longest_match :
  (forall s k r,
     run USFM.tag_id s = Ok k r
     <-> is_tag_id k = true /\ skip_ws s = k ++ r /\ ends_id r)
  /\ (forall s,
        run USFM.tag_id s = Fail
        <-> match skip_ws s with c :: _ => is_alpha c = false | [] => True end).
Proof.
  split.
  - intros s k r. apply Lexical.run_tag_id_iff.
  - intros s. apply Lexical.run_tag_id_fails.
Qed.

(** X2: [value] succeeds exactly when the input, behind the white space,
    begins with a double quote and holds a second one: it reads up to the
    first of these, its node is the literal with both quotes, and between
    them any character but the double quote may stand. *)
Theorem value_reads_quoted_literal s v r :
  run USFM.value s = Ok v r
  <-> exists m, skip_ws s = dquote :: m ++ dquote :: r
                /\ v = dquote :: m ++ [dquote]
                /\ Forall (fun c => is_value_char c = true) m.
Proof. apply Lexical.run_value_iff. Qed.

(** X3: [tag_start] succeeds exactly on a backslash and a tag id read whole,
    with any white space before the backslash and between the two; its node
    is the id, and the white space behind the id is passed.  The rule [ws]
    itself never has a character to match: its node is always empty. *)
Theorem tag_start_reads :
  (forall s k r,
     run USFM.tag_start s = Ok k r
     <-> exists w x,
           skip_ws s = bslash :: w ++ k ++ x /\ spaces w /\ is_tag_id k = true
           /\ ends_id x /\ r = skip_ws x)
  /\ (forall s, run USFM.ws s = Ok [] (skip_ws s)).
Proof.
  split.
  - intros s k r. apply Tags.run_tag_start_iff.
  - intros s. apply Run.run_ws.
Qed.

(** X4: [tag_end] yields an id exactly on a backslash, a tag id and a star,
    and no id exactly on a backslash and a star, in both cases with any
    white space before and between them; the rest is what follows the
    star. *)
Theorem tag_end_reads :
  (forall s k r,
     run USFM.tag_end s = Ok (Some k) r
     <-> exists w1 w2,
           skip_ws s = bslash :: w1 ++ k ++ w2 ++ star :: r
           /\ spaces w1 /\ spaces w2 /\ is_tag_id k = true)
  /\ (forall s r,
        run USFM.tag_end s = Ok None r
        <-> exists w, skip_ws s = bslash :: w ++ star :: r /\ spaces w).
Proof.
  split.
  - intros s k r. apply Tags.run_tag_end_some_iff.
  - intros s r. apply Tags.run_tag_end_none_iff.
Qed.

(** ** Attributes *)

(** X5: a key, an equals sign and a quoted literal, with any white space
    around the equals sign, is read by [pair] as the Pair of the key and the
    literal, whatever the literal holds between its quotes: backslashes,
    pipes and line breaks included. *)
Theorem pair_with_value k w1 w2 v r :
  is_tag_id k = true -> spaces w1 -> spaces w2 -> quoted v ->
  run USFM.pair (k ++ w1 ++ L "=" ++ w2 ++ v ++ r) = Ok (mkPair k (Some v)) r.
Proof. apply Printed.run_pair_valued. Qed.

Lemma pair_with_value_witness :
  run USFM.pair (L "x-note" ++ L " " ++ L "=" ++ [newline]
                 ++ (dquote :: L "a\b|c" ++ [dquote]) ++ L "\w*")
  = Ok (mkPair (L "x-note") (Some (dquote :: L "a\b|c" ++ [dquote]))) (L "\w*").
Proof.
  apply pair_with_value.
  - reflexivity.
  - repeat constructor.
  - repeat constructor.
  - exists (L "a\b|c"). split; [reflexivity|repeat constructor].
Defined.

(** X6: an attribute list written out -- a pipe, then every pair behind one
    space, a pair with a value as its key, an equals sign and its literal --
    and followed by a backslash, a pipe or the end of the input is read back
    by [attributes] as the same list of pairs, in the same order, up to
    what follows. *)
Theorem attributes_round_trip ps u :
  Forall pair_ok ps -> stopped u ->
  run USFM.attributes (print_attributes ps ++ u) = Ok ps u.
Proof. apply Printed.run_attributes_printed. Qed.

Lemma attributes_round_trip_witness :
  run USFM.attributes
    (print_attributes
       [mkPair (L "x-strong") (Some (in_quotes "b:H7225"));
        mkPair (L "x-plain") None;
        mkPair (L "x-morph") (Some (in_quotes "He,R:Ncfsa"))]
     ++ L "\*")
  = Ok [mkPair (L "x-strong") (Some (in_quotes "b:H7225"));
        mkPair (L "x-plain") None;
        mkPair (L "x-morph") (Some (in_quotes "He,R:Ncfsa"))]
       (L "\*").
Proof.
  apply attributes_round_trip; [|reflexivity].
  repeat constructor.
  - exists (L "b:H7225"). split; [reflexivity|repeat constructor].
  - exists (L "He,R:Ncfsa"). split; [reflexivity|repeat constructor].
Defined.

(** X7: in a text that parses, the first pipe starts an attribute list
    that a closing tag follows: a pipe is accepted nowhere but behind the
    element of an inline element. *)
Theorem first_pipe_needs_closing_tag pre z d :
  barfree pre -> parse (pre ++ bar :: z) = inr d -> closed_at (bar :: z).
Proof. apply Blank.first_pipe_closed. Qed.

Lemma first_pipe_needs_closing_tag_witness :
  closed_at (bar :: L " x-occurences = " ++ in_quotes "1" ++ L "\w*").
Proof.
  apply (@first_pipe_needs_closing_tag (L "\v 1 \w hello ")
           (L " x-occurences = " ++ in_quotes "1" ++ L "\w*")
           (scenario2_tree (in_quotes "1") (Some []) (Some []) (Some []))).
  - repeat constructor.
  - vm_compute. reflexivity.
Defined.

(** X8: a text that begins with a tag, white space and a text without
    backslash, and goes on with a pipe, is an error at the offset of the
    pipe, whatever follows it: the first element of the text ends there
    without a child, attributes are read for inline elements only, and the
    failure reported is the backslash that a further element would need.
    This is the first element of a text only: behind another element, which
    tries the tag as its child, failures are recorded further on. *)
Theorem top_level_pipe_error k w rest z :
  is_tag_id k = true -> spaces w -> text_ok rest -> trimmed rest ->
  ends_id (w ++ rest) ->
  parse (bslash :: k ++ w ++ rest ++ bar :: z)
  = inl (mkError (length (bslash :: k ++ w ++ rest)) (ExpToken [bslash])).
Proof. apply Quiet.parse_top_pipe. Qed.

Lemma top_level_pipe_error_witness :
  parse (bslash :: L "w" ++ L " " ++ L "hello " ++ bar :: L " x-lemma = " ++ in_quotes "b")
  = inl (mkError (length (bslash :: L "w" ++ L " " ++ L "hello ")) (ExpToken [bslash])).
Proof.
  apply top_level_pipe_error.
  - reflexivity.
  - repeat constructor.
  - repeat constructor.
  - reflexivity.
  - reflexivity.
Defined.

(** ** White space *)

(** X9: a text of white space only, the empty text included, parses to the
    Document without elements. *)
Theorem blank_text_is_empty_document w : spaces w -> parse w = inr [].
Proof. apply Blank.parse_blank. Qed.

Lemma blank_text_is_empty_document_witness :
  parse (newline :: L "    ") = inr [].
Proof. apply blank_text_is_empty_document. repeat constructor. Defined.

(** X10: white space in front of a text changes nothing but the offset of
    the error: the text parses to the same Document, or fails with the same
    expectation, further by the length of the white space. *)
Theorem leading_white_space w s :
  spaces w -> parse (w ++ s) = shift_error (length w) (parse s).
Proof. apply Blank.parse_leading_spaces. Qed.

Lemma leading_white_space_witness :
  parse ((newline :: L "    ") ++ scenario3)
  = shift_error (length (newline :: L "    ")) (parse scenario3).
Proof. apply leading_white_space. repeat constructor. Defined.

(** ** Elements *)

(** X11: a text made of tags in a row, each followed by one space and a
    text without backslash and pipe that begins neither with white space
    nor with a star, behind any white space, is no SyntaxError, and the
    Document that its parse returns is the elements of these tags, in
    order, each with its text and without children: a tag that nothing
    closes starts a further top-level element.  Nothing is said of the rows
    on which the interpreter runs out of call depth, where the program
    returns nothing. *)
Theorem simple_tags_in_sequence w l :
  spaces w -> Forall simple_ok l ->
  (forall err, parse (w ++ flat_map simple_tag l) <> inl err)
  /\ (forall d, parse (w ++ flat_map simple_tag l) = inr d ->
                d = map simple_element l).
Proof.
  intros Hw Hl. rewrite (Sequence.parse_simple_tags Hw Hl).
  split; [discriminate|]. intros d H. now inversion H.
Qed.

Lemma simple_tags_in_sequence_witness :
  (forall err,
     parse ((newline :: L "    ")
            ++ flat_map simple_tag
                 [(L "id", L "GEN EN_ULT en_English_ltr" ++ newline :: L "    ");
                  (L "usfm", L "3.0" ++ newline :: L "    ")])
     <> inl err)
  /\ (forall d,
        parse ((newline :: L "    ")
               ++ flat_map simple_tag
                    [(L "id", L "GEN EN_ULT en_English_ltr" ++ newline :: L "    ");
                     (L "usfm", L "3.0" ++ newline :: L "    ")])
        = inr d ->
        d = map simple_element
              [(L "id", L "GEN EN_ULT en_English_ltr" ++ newline :: L "    ");
               (L "usfm", L "3.0" ++ newline :: L "    ")]).
Proof.
  apply simple_tags_in_sequence; [repeat constructor|].
  repeat constructor.
Defined.

(** X12: a tag followed by a second tag with its text and by a closing tag
    parses to one element whose only child is the inline element of the
    second tag, and the closing tag of the child is the closing tag as
    written: the id it carries, whether or not it is the id of the tag it
    closes, or none. *)
Theorem inline_child_any_closing_tag a w1 b w2 rest c :
  is_tag_id a = true -> is_tag_id b = true -> spaces w1 -> spaces w2 ->
  text_ok rest -> trimmed rest -> ends_id (w2 ++ rest) ->
  opt_all (fun id => is_tag_id id = true) c ->
  parse (bslash :: a ++ w1 ++ bslash :: b ++ w2 ++ rest ++ close_tag c)
  = inr [mkElement a (Some [])
           [(mkInline (childless b rest) [] c, Some [])] (Some [])].
Proof. apply Nesting.parse_one_child. Qed.

Lemma inline_child_any_closing_tag_witness :
  parse (bslash :: L "v" ++ L " " ++ bslash :: L "w" ++ L " " ++ L "In"
         ++ close_tag (Some (L "zaln-e")))
  = inr [mkElement (L "v") (Some [])
           [(mkInline (childless (L "w") (L "In")) [] (Some (L "zaln-e")), Some [])]
           (Some [])].
Proof.
  apply inline_child_any_closing_tag; try reflexivity; repeat constructor.
Defined.

(** X13: behind a top-level element without children, a closing tag with
    an id is no error: it is read as a second element, whose tag is the id
    and whose text is the star.  The closing tag without id, in the same
    place, is left over and makes the parse fail, at or behind its
    backslash. *)
Theorem closing_tag_at_top_level a w rest :
  is_tag_id a = true -> spaces w -> text_ok rest -> trimmed rest ->
  ends_id (w ++ rest) ->
  (forall c, is_tag_id c = true ->
     parse (bslash :: a ++ w ++ rest ++ closing c)
     = inr [childless a rest; childless c [star]])
  /\ (exists e,
        parse (bslash :: a ++ w ++ rest ++ anonymous_closing) = inl e
        /\ length (bslash :: a ++ w ++ rest) <= position e).
Proof.
  intros Ha Hw Hr Ht He. split.
  - intros c Hc. now apply Nesting.parse_closing_at_top.
  - pose proof (@Nesting.document_anonymous_at_top a w rest Ha Hw Hr Ht He) as Hd.
    destruct (Entry.parse_by_document _ Hd) as [[Hn _]|(_ & e & Hp & Hl & _)];
      [discriminate Hn|].
    exists e. split; [exact Hp|].
    change (skip_ws anonymous_closing) with anonymous_closing in Hl.
    cbn [length] in *. rewrite !length_app in *. cbn [length] in Hl. lia.
Qed.

Lemma closing_tag_at_top_level_witness :
  (forall c, is_tag_id c = true ->
     parse (bslash :: L "w" ++ L " " ++ L "hello" ++ closing c)
     = inr [childless (L "w") (L "hello"); childless c [star]])
  /\ (exists e,
        parse (bslash :: L "w" ++ L " " ++ L "hello" ++ anonymous_closing) = inl e
        /\ length (bslash :: L "w" ++ L " " ++ L "hello") <= position e).
Proof.
  apply closing_tag_at_top_level; try reflexivity; repeat constructor.
Defined.

(** X14: two closing tags with ids in a row do not close two nested inline
    elements.  In a text of three tags, the third with a text, and two such
    closing tags, the first closing tag is read as an element whose text is
    the star and which the second closing tag closes: the parse gives three
    top-level elements, the first two without children and the third with
    that element as its only child. *)
Theorem two_closing_tags_misread v a b x cb ca :
  is_tag_id v = true -> is_tag_id a = true -> simple_ok (b, x) ->
  is_tag_id cb = true -> is_tag_id ca = true ->
  parse (simple_tag (v, []) ++ simple_tag (a, []) ++ simple_tag (b, x)
         ++ closing cb ++ closing ca)
  = inr [childless v []; childless a [];
         mkElement b (Some x)
           [(mkInline (childless cb [star]) [] (Some ca), Some [])] (Some [])].
Proof. apply Nesting.parse_two_closings. Qed.

Lemma two_closing_tags_misread_witness :
  parse (simple_tag (L "v", []) ++ simple_tag (L "a", []) ++ simple_tag (L "b", L "x")
         ++ closing (L "b") ++ closing (L "a"))
  = inr [childless (L "v") []; childless (L "a") [];
         mkElement (L "b") (Some (L "x"))
           [(mkInline (childless (L "b") [star]) [] (Some (L "a")), Some [])]
           (Some [])].
Proof.
  apply two_closing_tags_misread; try reflexivity.
  repeat split; repeat constructor.
Defined.

(** ** The trees of the texts that parse *)

(** X15: in every parsed Document, the tag of every element, the key of
    every attribute and the id of every closing tag that has one is a tag
    id: a letter followed by letters, digits and hyphens. *)
Theorem tags_are_tag_ids txt d :
  parse txt = inr d ->
  Forall (fun e => is_tag_id (tag_of e) = true) (elements_of_document d)
  /\ Forall (fun i => Forall (fun p => is_tag_id (pair_key p) = true) (attrs_of i)
                      /\ opt_all (fun c => is_tag_id c = true) (closing_of i))
            (inlines_of_document d).
Proof.
  apply Nodes.nodes_parse.
  - intros s e r H. now destruct (Shape.element_shape _ H).
  - intros s i r H. destruct (Shape.inline_shape _ H) as [Ha Hc].
    split; [|exact Hc]. eapply Forall_impl; [|exact Ha]. now intros p [Hp _].
Qed.

Lemma tags_are_tag_ids_witness :
  Forall (fun e => is_tag_id (tag_of e) = true)
         (elements_of_document self_closing_attributes_tree)
  /\ Forall (fun i => Forall (fun p => is_tag_id (pair_key p) = true) (attrs_of i)
                      /\ opt_all (fun c => is_tag_id c = true) (closing_of i))
            (inlines_of_document self_closing_attributes_tree).
Proof.
  apply (@tags_are_tag_ids
           (lines [L "\v 1"; L "\zaln-s |x-strong=" ++ in_quotes "b" ++ L "\*";
                   L "\w hello \w*"; L "\zaln-e\*"])).
  vm_compute. reflexivity.
Defined.

(** X16: in every parsed Document, the value of every attribute that has
    one is the quoted literal as written: it begins and ends with a double
    quote and holds none between them, so it is never the empty string. *)
Theorem values_are_quoted txt d :
  parse txt = inr d ->
  Forall (fun i => Forall (fun p => opt_all quoted (pair_value p)) (attrs_of i))
         (inlines_of_document d).
Proof.
  intros H.
  apply (@Nodes.nodes_parse (fun _ => True)
           (fun i => Forall (fun p => opt_all quoted (pair_value p)) (attrs_of i)))
    with (txt := txt); [tauto| |exact H].
  intros s i r Hi. destruct (Shape.inline_shape _ Hi) as [Ha _].
  eapply Forall_impl; [|exact Ha]. now intros p [_ Hp].
Qed.

Lemma values_are_quoted_witness :
  Forall (fun i => Forall (fun p => opt_all quoted (pair_value p)) (attrs_of i))
         (inlines_of_document self_closing_attributes_tree).
Proof.
  apply (@values_are_quoted
           (lines [L "\v 1"; L "\zaln-s |x-strong=" ++ in_quotes "b" ++ L "\*";
                   L "\w hello \w*"; L "\zaln-e\*"])).
  vm_compute. reflexivity.
Defined.

(** X17: in every parsed Document, the final text of every element is the
    empty match: the text before it has read all there was to read, so the
    last optional text of the rule [element] never holds a character. *)
Theorem final_text_is_empty txt d :
  parse txt = inr d ->
  Forall (fun e => final_of e = Some []) (elements_of_document d).
Proof.
  intros H.
  apply (@Nodes.nodes_parse (fun e => final_of e = Some []) (fun _ => True))
    with (txt := txt); [|tauto|exact H].
  intros s e r He. now destruct (Shape.element_shape _ He) as (_ & _ & _ & Hf).
Qed.

Lemma final_text_is_empty_witness :
  Forall (fun e => final_of e = Some [])
         (elements_of_document self_closing_attributes_tree).
Proof.
  apply (@final_text_is_empty
           (lines [L "\v 1"; L "\zaln-s |x-strong=" ++ in_quotes "b" ++ L "\*";
                   L "\w hello \w*"; L "\zaln-e\*"])).
  vm_compute. reflexivity.
Defined.

(** X18: in every parsed Document, every element has a leading text and
    every child is followed by a text, and none of these texts begins with
    white space: the white space behind a tag is skipped, not kept. *)
Theorem texts_are_trimmed txt d :
  parse txt = inr d ->
  Forall (fun e => (exists lt, leading_of e = Some lt /\ trimmed lt)
                   /\ Forall (fun c => exists tx, snd c = Some tx /\ trimmed tx)
                             (children_of e))
         (elements_of_document d).
Proof.
  intros H.
  apply (@Nodes.nodes_parse
           (fun e => (exists lt, leading_of e = Some lt /\ trimmed lt)
                     /\ Forall (fun c => exists tx, snd c = Some tx /\ trimmed tx)
                               (children_of e))
           (fun _ => True)) with (txt := txt); [|tauto|exact H].
  intros s e r He. now destruct (Shape.element_shape _ He) as (_ & Hl & Hc & _).
Qed.

Lemma texts_are_trimmed_witness :
  Forall (fun e => (exists lt, leading_of e = Some lt /\ trimmed lt)
                   /\ Forall (fun c => exists tx, snd c = Some tx /\ trimmed tx)
                             (children_of e))
         (elements_of_document self_closing_attributes_tree).
Proof.
  apply (@texts_are_trimmed
           (lines [L "\v 1"; L "\zaln-s |x-strong=" ++ in_quotes "b" ++ L "\*";
                   L "\w hello \w*"; L "\zaln-e\*"])).
  vm_compute. reflexivity.
Defined.

(** X20: round trip.  A top-level element as the rules build it -- tags
    that are tag ids, texts without backslash and pipe that do not begin
    with white space, attributes with keys that are tag ids and values that
    are quoted literals, an empty final text -- whose children are closed by
    any closing tags and below whose children every closing tag is without
    id, written out as its tag, its text and its children, each with its
    attributes, its closing tag and the text behind it, is no SyntaxError,
    and the Document that its parse returns is this element alone.  Nothing
    is said of the trees on whose text the interpreter runs out of call
    depth, where the program returns nothing. *)
Theorem print_parse_round_trip e :
  top_level e ->
  (forall err, parse (print_element e) <> inl err)
  /\ (forall d, parse (print_element e) = inr d -> d = [e]).
Proof.
  intros He. rewrite (RoundTrip.parse_printed He).
  split; [discriminate|]. intros d H. now inversion H.
Qed.

Lemma print_parse_round_trip_witness :
  (forall err, parse (print_element verse) <> inl err)
  /\ (forall d, parse (print_element verse) = inr d -> d = [verse]).
Proof.
  apply print_parse_round_trip.
  repeat (econstructor || reflexivity).
Defined.

(** ** The driver *)

(** X19: run as a script, the module raises no SyntaxError: each of the
    eight texts of its driver functions parses, and the tree that
    [self_closing_attributes] prints is the element [v] with the text of its
    line and three children, [zaln-s] with its attribute, [w] with its text,
    and [zaln-e]. *)
Theorem main_completes :
  exists ts, main = inr ts /\ length ts = 8
             /\ last ts [] = self_closing_attributes_tree.
Proof.
  eexists. split; [vm_compute; reflexivity|].
  split; vm_compute; reflexivity.
Qed.
